(** * Phantom Framework: EventHub and PluginLoader

    A shallow embedding of [src/core/eventHub.ts] and [src/core/loader.ts]
    (the event bus and the plugin loader) together with the properties the
    specification states about them.

    Conventions of the embedding.
    - JavaScript numbers are rationals ([Q]) plus [NaN]; the 32-bit
      arithmetic of [simpleHash] is written out on [Z].
    - Callbacks (hub observers, plugin hooks) are data: a callback is the
      list of hub calls it makes, followed by a normal return or a throw.
    - What the host provides ([JSON.stringify], [Math.random], [Date.now],
      dynamic [import], the manifest file) is a record of oracles.
    - The bus is synchronous and re-entrant: an observer may call [emit]
      from inside a delivery.  Nested calls are bounded by a depth budget
      (the call stack): a call that finds it used up throws ([None]), and
      what it throws is caught where the code or rxjs catches it.  The
      exhaustion is placed at the entry of a hub call, before the call
      has done anything; in a run of the code it may strike anywhere
      below that entry, so what is stated about counters is stated for
      runs in which the stack suffices.
    - Observables are modelled by what a subscription delivers
      synchronously: a list of values and how the stream ends. *)

From Stdlib Require Import String Ascii ZArith QArith List Lia HexString.
From stdpp Require Import base option list gmap strings pretty.
Import ListNotations.

#[local] Set Warnings "-register-all".

Local Open Scope string_scope.
Local Open Scope list_scope.
Local Open Scope nat_scope.

(* ===================================================================== *)
(** * Values and events (types.ts) *)
(* ===================================================================== *)

(** A JavaScript number: a finite value or [NaN] (only [0/0] produces it
    here). *)
Inductive JsNumber :=
| Finite (q : Q)
| NaN.

(** A JavaScript value of type [any], as far as events carry one. *)
Inductive Value :=
| VUndefined
| VNull
| VBool (b : bool)
| VNum (n : JsNumber)
| VStr (s : string)
| VArr (items : list Value)
| VObj (fields : list (string * Value)).

Definition VInt (n : nat) : Value := VNum (Finite (inject_Z (Z.of_nat n))).

Definition optional {A} (f : A -> Value) (o : option A) : Value :=
  match o with Some a => f a | None => VUndefined end.

(** [SpectralEvent.metadata], with the two routing fields the loader adds. *)
Record Metadata := mkMetadata {
  haunted : option bool;
  intensity : option JsNumber;
  origin_realm : option string;
  curse_level : option JsNumber;
  spectral_signature : option string;
  processed_by : option string;
  original_source : option string
}.

Definition noMetadata : Metadata :=
  mkMetadata None None None None None None None.

Record SpectralEvent := mkEvent {
  ev_type : string;
  timestamp : Z;
  source : string;
  data : Value;
  metadata : option Metadata
}.

Definition metadata_value (m : Metadata) : Value :=
  VObj [ ("haunted", optional VBool (haunted m));
         ("intensity", optional VNum (intensity m));
         ("origin_realm", optional VStr (origin_realm m));
         ("curse_level", optional VNum (curse_level m));
         ("spectral_signature", optional VStr (spectral_signature m));
         ("processed_by", optional VStr (processed_by m));
         ("original_source", optional VStr (original_source m)) ].

(** An event placed inside another event's payload ([originalEvent]). *)
Definition event_value (e : SpectralEvent) : Value :=
  VObj [ ("type", VStr (ev_type e));
         ("timestamp", VNum (Finite (inject_Z (timestamp e))));
         ("source", VStr (source e));
         ("data", data e);
         ("metadata", optional metadata_value (metadata e)) ].

(** Two events are the same message when they agree on everything but the
    metadata, which the hub and the router attach in place. *)
Definition same_message (a b : SpectralEvent) : Prop :=
  ev_type a = ev_type b /\ timestamp a = timestamp b /\
  source a = source b /\ data a = data b.

Definition with_metadata (e : SpectralEvent) (m : Metadata) : SpectralEvent :=
  mkEvent (ev_type e) (timestamp e) (source e) (data e) (Some m).

Inductive SpectralErrorType :=
| MANIFESTATION_FAILED
| DISTURBANCE_DETECTED
| BANISHMENT_REQUIRED
| REALM_COLLAPSE
| GHOSTLY_CRASH.

Record SpectralError := mkSpectralError {
  se_type : SpectralErrorType;
  se_message : string;
  se_source : string;
  se_timestamp : Z;
  haunt_level : Q;
  recovery_possible : bool
}.

(** A thrown value: a plain [Error] or a [SpectralError]. *)
Inductive Error :=
| PlainError (message : string)
| Spectral (e : SpectralError).

Definition error_message (e : Error) : string :=
  match e with
  | PlainError m => m
  | Spectral s => se_message s
  end.

Inductive PluginState :=
| DORMANT
| AWAKENING
| ACTIVE
| HAUNTING
| BANISHED
| EXORCISED.

(* ===================================================================== *)
(** * The language's Map, with live iteration *)
(* ===================================================================== *)

(** A [Map] keeps its entries in insertion order.  [delete] empties the
    entry's slot and [set] of a new key appends, so an iteration in progress
    (which walks the slots by position) skips entries deleted ahead of it and
    reaches entries added behind it.  A key has at most one slot in a map
    built with [set]; [delete] empties every slot of the key. *)
Module JsMap.

Definition t (V : Type) : Type := list (option (string * V)).

Definition empty {V} : t V := [].

Fixpoint get {V} (k : string) (m : t V) : option V :=
  match m with
  | [] => None
  | Some (k', v) :: rest => if String.eqb k k' then Some v else get k rest
  | None :: rest => get k rest
  end.

Definition has {V} (k : string) (m : t V) : bool :=
  match get k m with Some _ => true | None => false end.

Fixpoint set {V} (k : string) (v : V) (m : t V) : t V :=
  match m with
  | [] => [Some (k, v)]
  | Some (k', v') :: rest =>
      if String.eqb k k' then Some (k, v) :: rest
      else Some (k', v') :: set k v rest
  | None :: rest => None :: set k v rest
  end.

Fixpoint delete {V} (k : string) (m : t V) : t V :=
  match m with
  | [] => []
  | Some (k', v) :: rest =>
      (if String.eqb k k' then None else Some (k', v)) :: delete k rest
  | None :: rest => None :: delete k rest
  end.

(** The live entries, in iteration order. *)
Fixpoint entries {V} (m : t V) : list (string * V) :=
  match m with
  | [] => []
  | Some kv :: rest => kv :: entries rest
  | None :: rest => entries rest
  end.

Definition size {V} (m : t V) : nat := length (entries m).

(** [new Map(m)]: a fresh map with the live entries of [m]. *)
Definition copy {V} (m : t V) : t V := map Some (entries m).

(** The slot an iterator at position [pos] reads: [None] past the end,
    [Some None] for an emptied slot. *)
Definition slot {V} (pos : nat) (m : t V) : option (option (string * V)) :=
  nth_error m pos.

End JsMap.

(* ===================================================================== *)
(** * Spectral signatures (eventHub.ts, simpleHash) *)
(* ===================================================================== *)

(** [ToInt32]: wrap to a signed 32-bit integer. *)
Definition toInt32 (z : Z) : Z :=
  let m := (z mod 2 ^ 32)%Z in
  if (m <? 2 ^ 31)%Z then m else (m - 2 ^ 32)%Z.

(** One round of the loop, [char] being [str.charCodeAt(i)]:
    [hash = ((hash << 5) - hash) + char; hash = hash & hash]. *)
Definition hash_step (hash : Z) (char : Z) : Z :=
  toInt32 (toInt32 (hash * 32) - hash + char)%Z.

(** [simpleHash(str)], for a string given as its UTF-16 code units (what
    [charCodeAt] reads). *)
Definition simpleHash (str : list Z) : Z :=
  Z.abs (fold_left hash_step str 0%Z).

(** [n.toString(16)] for a non-negative integer. *)
Definition toString16 (z : Z) : string :=
  match z with
  | Zpos p => HexString.Raw.of_pos p EmptyString
  | _ => "0"
  end.

(* ===================================================================== *)
(** * Callbacks, plugins and observers *)
(* ===================================================================== *)

(** How a synchronous callback finishes. *)
Inductive Outcome :=
| Returns
| Throws (message : string).

(** What a callback may do while it runs: call back into the hub, or
    remove a plugin, either from a [Map] it holds a reference to or through
    the loader's [teardownPlugin]. *)
Inductive Call :=
| CEmit (e : SpectralEvent)
| CSetState (key : string) (value : Value)
| CMapDelete (m : nat) (key : string)
| CTeardown (pluginId : string).

(** One run of a callback: the calls it makes, in order, then its outcome. *)
Record Reaction := mkReaction {
  calls : list Call;
  outcome : Outcome
}.

Definition silent : Reaction := mkReaction [] Returns.

(** What subscribing to an Observable delivers synchronously. *)
Inductive StreamEnd :=
| Completes
| ErrorsWith (message : string)
| StaysOpen.

Record Stream (A : Type) := mkStream {
  emitted : list A;
  ending : StreamEnd
}.
Arguments mkStream {A} _ _.
Arguments emitted {A} _.
Arguments ending {A} _.

(** [plugin.process(event)]: the hook throws, or returns an Observable. *)
Inductive Processed :=
| ProcessThrows (message : string)
| ProcessReturns (s : Stream SpectralEvent).

Record ProcessRun := mkRun {
  before : list Call;
  result : Processed
}.

Record PluginConfig := mkConfig {
  cfg_id : string;
  cfg_path : string;
  cfg_class : string;
  haunt_probability : option Q
}.

(** [spookiness_level] is whatever the YAML file holds under that name
    ([VUndefined] when it is absent): its declared type is not checked
    when the file is parsed. *)
Record PluginManifest := mkManifest {
  plugins : list PluginConfig;
  version : string;
  spookiness_level : Value
}.

(** [IPlugin]. *)
Record Plugin := mkPlugin {
  plugin_id : string;
  manifest : PluginManifest;
  init : Reaction;
  process : SpectralEvent -> ProcessRun;
  teardown : Outcome;
  haunt : option Processed;
  manifest_disturbance : option bool
}.

(** The closures subscribed to the hub: an application callback, the
    routing subscription of [setupPluginEventRouting] (closed over a
    reference to the [plugins] map it was given), or the internal observer
    of a [spectralIterator]. *)
Inductive Observer :=
| Callback (react : SpectralEvent -> Reaction)
| PluginRouter (plugins_ref : nat)
| IteratorSink (iterator : nat).

(** rxjs [Subscription] of a hub observer. *)
Record Subscription := mkSubscription { subscriber : nat }.

(** A [BehaviorSubject] of the keyed store with the observers [select]
    attached to it. *)
Record BehaviorSubject := mkSubject {
  bs_value : Value;
  bs_observers : list (Value -> Reaction)
}.

Record StreamState := mkStreamState {
  ss_key : string;
  ss_value : Value;
  lastUpdated : Z;
  subscribers : nat;
  is_cursed : bool;
  haunt_count : nat
}.

Inductive IteratorResult :=
| Yielded (e : SpectralEvent)
| Done.

(** The local variables of one [spectralIterator] generator. *)
Record SpectralIterator := mkIterator {
  it_filter : option (SpectralEvent -> bool);
  maxEvents : option nat;
  it_eventCount : nat;
  eventQueue : list SpectralEvent;
  resolveNext : bool;
  isComplete : bool;
  settled : option IteratorResult;
  it_subscription : option Subscription;
  returned : bool
}.

Record EventHub := mkHub {
  observers : list (nat * Observer);
  subscriptions : nat;
  spectralState : gmap string BehaviorSubject;
  streamStates : gmap string StreamState;
  hauntedStreams : gset string;
  cursedKeys : gset string;
  eventCount : nat;
  hauntLevel : Q;
  lastDisturbance : Z
}.

Record PluginLoader := mkLoader {
  loadedPlugins : nat;
  pluginStates : gmap string PluginState;
  retryAttempts : gmap string nat
}.

Definition maxRetries : nat := 3.
Definition retryDelay : Q := 1000.

(** What [new PluginClass()] yields before validation: any member may be
    missing. *)
Record RawInstance := mkRaw {
  raw_id : option string;
  raw_manifest : option PluginManifest;
  raw_init : option Reaction;
  raw_process : option (SpectralEvent -> ProcessRun);
  raw_teardown : option Outcome;
  raw_haunt : option Processed;
  raw_disturbance : option bool
}.

Inductive Construction :=
| ConstructorThrows (message : string)
| Constructs (instance : RawInstance).

Record Module_ := mkModule {
  exports : list (string * Construction);
  default_export : option Construction
}.

(** The parsed YAML of a manifest file; [raw_plugins] is [None] when the
    [plugins] member is missing or not an array. *)
Record RawManifest := mkRawManifest {
  raw_plugins : option (list PluginConfig);
  raw_version : string;
  raw_spookiness : Value
}.

Inductive Imported :=
| ImportFails (message : string)
| Imports (m : Module_).

Inductive ManifestFile :=
| ReadFails (message : string)
| Parsed (m : RawManifest).

(** What the runtime provides.  [JSON_stringify v] is the text
    [JSON.stringify(v)] returns, given as its UTF-16 code units;
    [Math_random n] is the [n]-th draw of
    [Math.random()], [base36] renders a draw as
    [toString(36).substr(2, 9)], [error_stack] is the stack text of an
    error with the given message, [import_] is the dynamic [import] of a
    resolved module path, and [readManifest] reads and parses a manifest
    file. *)
Record Host := mkHost {
  JSON_stringify : Value -> list Z;
  Math_random : nat -> Q;
  Date_now : Z;
  base36 : Q -> string;
  error_stack : string -> string;
  import_ : string -> Imported;
  readManifest : string -> ManifestFile
}.

(** What the instrumented run records: [Subject.next] is called with an
    event, a subscriber's handler is called with it, a plugin's [process]
    or [init] hook is called, an observer of a key is handed a value, a
    timer is started. *)
Inductive Trace :=
| TNext (e : SpectralEvent)
| TObserved (observer : nat) (e : SpectralEvent)
| TProcess (pluginId : string) (e : SpectralEvent)
| TInit (pluginId : string)
| TKeyObserved (key : string) (observer : nat) (v : Value)
| TTimer (ms : Q).

Record World := mkWorld {
  host : Host;
  randomCalls : nat;
  hub : EventHub;
  loader : PluginLoader;
  maps : list (JsMap.t Plugin);
  iterators : list SpectralIterator;
  trace : list Trace
}.

(** A call made from inside a callback.  [None] is a call that found the
    stack used up: it throws a [RangeError] before it has changed
    anything. *)
Definition Rec : Type := Call -> World -> option World.

Definition stack_exhausted : string := "Maximum call stack size exceeded".

(* ===================================================================== *)
(** * State updates *)
(* ===================================================================== *)

Definition with_hub (f : EventHub -> EventHub) (w : World) : World :=
  mkWorld (host w) (randomCalls w) (f (hub w)) (loader w) (maps w)
          (iterators w) (trace w).

Definition with_loader (f : PluginLoader -> PluginLoader) (w : World) : World :=
  mkWorld (host w) (randomCalls w) (hub w) (f (loader w)) (maps w)
          (iterators w) (trace w).

Definition with_maps (f : list (JsMap.t Plugin) -> list (JsMap.t Plugin))
    (w : World) : World :=
  mkWorld (host w) (randomCalls w) (hub w) (loader w) (f (maps w))
          (iterators w) (trace w).

Definition with_iterators (f : list SpectralIterator -> list SpectralIterator)
    (w : World) : World :=
  mkWorld (host w) (randomCalls w) (hub w) (loader w) (maps w)
          (f (iterators w)) (trace w).

Definition record (t : Trace) (w : World) : World :=
  mkWorld (host w) (randomCalls w) (hub w) (loader w) (maps w)
          (iterators w) (trace w ++ [t]).

(** [Math.random()]: the next draw of the host's generator. *)
Definition random (w : World) : Q * World :=
  (Math_random (host w) (randomCalls w),
   mkWorld (host w) (S (randomCalls w)) (hub w) (loader w) (maps w)
           (iterators w) (trace w)).

Definition set_observers (v : list (nat * Observer)) (h : EventHub) : EventHub :=
  mkHub v (subscriptions h) (spectralState h) (streamStates h)
        (hauntedStreams h) (cursedKeys h) (eventCount h) (hauntLevel h)
        (lastDisturbance h).

Definition set_subscriptions (v : nat) (h : EventHub) : EventHub :=
  mkHub (observers h) v (spectralState h) (streamStates h)
        (hauntedStreams h) (cursedKeys h) (eventCount h) (hauntLevel h)
        (lastDisturbance h).

Definition set_spectralState (v : gmap string BehaviorSubject) (h : EventHub)
    : EventHub :=
  mkHub (observers h) (subscriptions h) v (streamStates h)
        (hauntedStreams h) (cursedKeys h) (eventCount h) (hauntLevel h)
        (lastDisturbance h).

Definition set_streamStates (v : gmap string StreamState) (h : EventHub)
    : EventHub :=
  mkHub (observers h) (subscriptions h) (spectralState h) v
        (hauntedStreams h) (cursedKeys h) (eventCount h) (hauntLevel h)
        (lastDisturbance h).

Definition set_hauntedStreams (v : gset string) (h : EventHub) : EventHub :=
  mkHub (observers h) (subscriptions h) (spectralState h) (streamStates h)
        v (cursedKeys h) (eventCount h) (hauntLevel h) (lastDisturbance h).

Definition set_cursedKeys (v : gset string) (h : EventHub) : EventHub :=
  mkHub (observers h) (subscriptions h) (spectralState h) (streamStates h)
        (hauntedStreams h) v (eventCount h) (hauntLevel h) (lastDisturbance h).

Definition set_eventCount (v : nat) (h : EventHub) : EventHub :=
  mkHub (observers h) (subscriptions h) (spectralState h) (streamStates h)
        (hauntedStreams h) (cursedKeys h) v (hauntLevel h) (lastDisturbance h).

Definition set_hauntLevel (v : Q) (h : EventHub) : EventHub :=
  mkHub (observers h) (subscriptions h) (spectralState h) (streamStates h)
        (hauntedStreams h) (cursedKeys h) (eventCount h) v (lastDisturbance h).

Definition set_lastDisturbance (v : Z) (h : EventHub) : EventHub :=
  mkHub (observers h) (subscriptions h) (spectralState h) (streamStates h)
        (hauntedStreams h) (cursedKeys h) (eventCount h) (hauntLevel h) v.

Definition set_loadedPlugins (v : nat) (l : PluginLoader) : PluginLoader :=
  mkLoader v (pluginStates l) (retryAttempts l).

Definition set_pluginStates (v : gmap string PluginState) (l : PluginLoader)
    : PluginLoader :=
  mkLoader (loadedPlugins l) v (retryAttempts l).

Definition set_retryAttempts (v : gmap string nat) (l : PluginLoader)
    : PluginLoader :=
  mkLoader (loadedPlugins l) (pluginStates l) v.

(** The [Map] behind a reference; a dangling reference reads as empty. *)
Definition map_at (m : nat) (w : World) : JsMap.t Plugin :=
  default JsMap.empty (maps w !! m).

Definition update_map (m : nat) (f : JsMap.t Plugin -> JsMap.t Plugin)
    (w : World) : World :=
  with_maps (fun ms => <[m := f (map_at m w)]> ms) w.

(** [new Map(...)]. *)
Definition new_map (content : JsMap.t Plugin) (w : World) : nat * World :=
  (length (maps w), with_maps (fun ms => ms ++ [content]) w).

(** Sequencing of callbacks' calls and of loops over a list. *)
Fixpoint for_each {A} (body : A -> World -> option World) (l : list A)
    (w : World) : option World :=
  match l with
  | [] => Some w
  | a :: rest =>
      match body a w with
      | Some w' => for_each body rest w'
      | None => None
      end
  end.

(** The calls a callback makes, in order.  The [RangeError] of a call
    that found the stack used up ends the callback there. *)
Fixpoint run_calls (rec : Rec) (cs : list Call) (w : World)
    : World * Outcome :=
  match cs with
  | [] => (w, Returns)
  | c :: rest =>
      match rec c w with
      | Some w' => run_calls rec rest w'
      | None => (w, Throws stack_exhausted)
      end
  end.

(** One run of a callback: its calls, then its own outcome. *)
Definition run_reaction (rec : Rec) (r : Reaction) (w : World)
    : World * Outcome :=
  let '(w, thrown) := run_calls rec (calls r) w in
  (w, match thrown with Returns => outcome r | Throws _ => thrown end).

(** A hub call made from the handler of an rxjs subscriber: what the
    handler throws is caught by rxjs, which reports it from a timer, and
    the caller of the handler goes on. *)
Definition attempt (rec : Rec) (c : Call) (w : World) : World :=
  default w (rec c w).

(* ===================================================================== *)
(** * EventHub (eventHub.ts) *)
(* ===================================================================== *)

Definition qmin (a b : Q) : Q := if Qle_bool a b then a else b.
Definition qlt (a b : Q) : bool := negb (Qle_bool b a).

Definition generateSpectralSignature (w : World) (type : string) (d : Value)
    : string :=
  "spectral_" +:+
  toString16 (simpleHash
    (JSON_stringify (host w) (VObj [("type", VStr type); ("data", d)]))).

Definition calculateHauntProbability (w : World) : Q :=
  let baseProb := (5 # 100)%Q in
  let hauntBonus := (hauntLevel (hub w) * (2 # 10))%Q in
  let disturbanceBonus :=
    (inject_Z (Z.of_nat (size (hauntedStreams (hub w)))) * (1 # 100))%Q in
  qmin (1 # 2) (Qred (baseProb + hauntBonus + disturbanceBonus)).

Definition increaseHauntLevel (w : World) : World :=
  with_hub (fun h => set_hauntLevel (qmin 1 (Qred (hauntLevel h + (1 # 10))%Q)) h) w.

Definition set_signature (s : string) (m : Metadata) : Metadata :=
  mkMetadata (haunted m) (intensity m) (origin_realm m) (curse_level m)
             (Some s) (processed_by m) (original_source m).

Definition set_haunt (level : Q) (m : Metadata) : Metadata :=
  mkMetadata (Some true) (Some (Finite level)) (origin_realm m)
             (curse_level m) (spectral_signature m) (processed_by m)
             (original_source m).

(** The first half of [emit]: count the event, attach the signature and,
    on a successful draw, the haunt flag.  The event object is updated in
    place, so this is the event the observers see. *)
Definition stamp (event : SpectralEvent) (w : World) : SpectralEvent * World :=
  let w := with_hub (fun h => set_eventCount (S (eventCount h)) h) w in
  let md := default noMetadata (metadata event) in
  let md := set_signature
              (generateSpectralSignature w (ev_type event) (data event)) md in
  let '(draw, w) := random w in
  if qlt draw (calculateHauntProbability w)
  then (with_metadata event (set_haunt (hauntLevel (hub w)) md),
        increaseHauntLevel w)
  else (with_metadata event md, w).

Definition diagnostic (w : World) (type : string) (src : string) (d : Value)
    (m : Metadata) : SpectralEvent :=
  mkEvent type (Date_now (host w)) src d (Some m).

Definition flagged (level : Q) : Metadata :=
  mkMetadata (Some true) (Some (Finite level)) None None None None None.

(** [handleSubscriberError]: runs inside a delivery, so its [emit] is a
    nested call. *)
Definition handleSubscriberError (rec : Rec) (message : string)
    (event : SpectralEvent) (w : World) : option World :=
  rec (CEmit (diagnostic w "subscriber_error" "EventHub"
                (VObj [("originalEvent", event_value event);
                       ("error", VStr message)])
                (flagged (1 # 2)%Q))) w.

(** ** The observer of a spectralIterator *)

Definition update_iterator (i : nat) (f : SpectralIterator -> SpectralIterator)
    (w : World) : World :=
  with_iterators (fun its =>
    match its !! i with
    | Some it => <[i := f it]> its
    | None => its
    end) w.

Definition truthy (n : option nat) : bool :=
  match n with Some (S _) => true | _ => false end.

(** The callback [spectralIterator] subscribes with. *)
Definition iterator_observer (event : SpectralEvent) (it : SpectralIterator)
    : SpectralIterator :=
  let passes :=
    match it_filter it with Some f => f event | None => true end in
  if negb passes then it else
  let count := S (it_eventCount it) in
  let '(queue, waiting, settle) :=
    if resolveNext it
    then (eventQueue it, false, Some (Yielded event))
    else (eventQueue it ++ [event], false, settled it) in
  let complete :=
    if truthy (maxEvents it) && (default 0 (maxEvents it) <=? count)
    then true else isComplete it in
  mkIterator (it_filter it) (maxEvents it) count queue waiting complete
             settle (it_subscription it) (returned it).

(* ===================================================================== *)
(** * PluginLoader: teardown (loader.ts) *)
(* ===================================================================== *)

(** The settlement of a promise. *)
Inductive Result (A : Type) :=
| Resolved (a : A)
| Rejected (e : Error).
Arguments Resolved {A} _.
Arguments Rejected {A} _.

(** The loader's [createSpectralError]. *)
Definition createSpectralError (w : World) (type : SpectralErrorType)
    (message : string) (src : string) : SpectralError :=
  mkSpectralError type message src (Date_now (host w))
    (match type with REALM_COLLAPSE => 1 | _ => (1 # 2) end)%Q
    (match type with REALM_COLLAPSE => false | _ => true end).

Definition setPluginState (pluginId : string) (s : PluginState) (w : World)
    : World :=
  with_loader (fun l => set_pluginStates (<[pluginId := s]> (pluginStates l)) l) w.

Definition registry (w : World) : JsMap.t Plugin :=
  map_at (loadedPlugins (loader w)) w.

Definition teardownPlugin (pluginId : string) (w : World)
    : Result unit * World :=
  match JsMap.get pluginId (registry w) with
  | None =>
      (Rejected (PlainError ("Plugin '" +:+ pluginId +:+ "' not found")), w)
  | Some plugin =>
      let w := setPluginState pluginId BANISHED w in
      match teardown plugin with
      | Returns =>
          let w := update_map (loadedPlugins (loader w))
                              (JsMap.delete pluginId) w in
          let w := with_loader (fun l =>
                     set_pluginStates (delete pluginId (pluginStates l)) l) w in
          let w := with_loader (fun l =>
                     set_retryAttempts (delete pluginId (retryAttempts l)) l) w in
          (Resolved tt, w)
      | Throws message =>
          (Rejected (Spectral (createSpectralError w BANISHMENT_REQUIRED
             ("Failed to teardown plugin '" +:+ pluginId +:+ "': " +:+ message)
             "PluginLoader")), w)
      end
  end.

(* ===================================================================== *)
(** * PluginLoader: event routing (loader.ts, setupPluginEventRouting) *)
(* ===================================================================== *)

Definition set_routing (pluginId src : string) (m : Metadata) : Metadata :=
  mkMetadata (haunted m) (intensity m) (origin_realm m) (curse_level m)
             (spectral_signature m) (Some pluginId) (Some src).

(** The [next] handler of [processed$.subscribe]: the output with the
    routing metadata added, as it is handed to [hub.emit]. *)
Definition routed (pluginId : string) (event processedEvent : SpectralEvent)
    : SpectralEvent :=
  with_metadata processedEvent
    (set_routing pluginId (source event)
       (default noMetadata (metadata processedEvent))).

Definition plugin_processing_error (w : World) (pluginId : string)
    (event : SpectralEvent) (message : string) : SpectralEvent :=
  diagnostic w "plugin_processing_error" "PluginLoader"
    (VObj [("pluginId", VStr pluginId);
           ("originalEvent", event_value event);
           ("error", VStr message)])
    (flagged (6 # 10)%Q).

(** The body of the routing loop for one entry of the map.  The loop's
    [try]/[catch] ends the entry when the hook throws, also when a call
    the hook makes finds the stack used up; the two handlers of
    [processed$.subscribe] call [hub.emit] as subscribers of an rxjs
    stream do. *)
Definition route_to (rec : Rec) (pluginId : string) (plugin : Plugin)
    (event : SpectralEvent) (w : World) : option World :=
  if String.eqb (source event) pluginId then Some w
  else
    let w := record (TProcess pluginId event) w in
    let run := process plugin event in
    let '(w, thrown) := run_calls rec (before run) w in
    match thrown, result run with
    | Throws _, _ | Returns, ProcessThrows _ => Some w
    | Returns, ProcessReturns processed =>
        w ← for_each
              (fun out w =>
                 Some (attempt rec (CEmit (routed pluginId event out)) w))
              (emitted processed) w;
        match ending processed with
        | ErrorsWith message =>
            Some (attempt rec
                    (CEmit (plugin_processing_error w pluginId event message))
                    w)
        | _ => Some w
        end
    end.

(** [for (const [pluginId, plugin] of plugins)]: the iterator reads the
    map behind the reference again at every step.  No callback appends to
    a [Map], so [slots] (the number of slots when the pass starts) bounds
    the walk. *)
Fixpoint route_from (rec : Rec) (m : nat) (event : SpectralEvent)
    (slots pos : nat) (w : World) : option World :=
  match slots with
  | 0 => Some w
  | S slots' =>
      match JsMap.slot pos (map_at m w) with
      | None => Some w
      | Some None => route_from rec m event slots' (S pos) w
      | Some (Some (pluginId, plugin)) =>
          w ← route_to rec pluginId plugin event w;
          route_from rec m event slots' (S pos) w
      end
  end.

(** The callback [setupPluginEventRouting] subscribes with. *)
Definition route (rec : Rec) (m : nat) (event : SpectralEvent) (w : World)
    : option World :=
  route_from rec m event (length (map_at m w)) 0 w.

(* ===================================================================== *)
(** * EventHub: emit, subscribe, setState *)
(* ===================================================================== *)

(** One observer's turn in [Subject.next]: the wrapper [subscribe]
    installed calls the observer and turns a throw into a
    [subscriber_error] event.  When [handleSubscriberError] itself throws
    (its [emit] found the stack used up), the error leaves the wrapper;
    rxjs (version 7, whose [throwError(() => ...)] the hub uses) catches
    what a subscriber's handler throws and reports it from a timer, and
    [Subject.next] goes on to the next observer. *)
Definition deliver (rec : Rec) (event : SpectralEvent)
    (sub : nat * Observer) (w : World) : option World :=
  let w := record (TObserved (fst sub) event) w in
  match snd sub with
  | Callback react =>
      let '(w, thrown) := run_reaction rec (react event) w in
      match thrown with
      | Returns => Some w
      | Throws message =>
          Some (default w (handleSubscriberError rec message event w))
      end
  | PluginRouter m => route rec m event w
  | IteratorSink i => Some (update_iterator i (iterator_observer event) w)
  end.

(** rxjs [Subject.next]: the observers subscribed when the call starts, in
    subscription order. *)
Definition Subject_next (rec : Rec) (event : SpectralEvent) (w : World)
    : option World :=
  for_each (deliver rec event) (observers (hub w)) (record (TNext event) w).

Definition emit (rec : Rec) (event : SpectralEvent) (w : World)
    : option World :=
  let '(event, w) := stamp event w in
  Subject_next rec event w.

(** rxjs [Subject.subscribe]. *)
Definition Subject_subscribe (o : Observer) (w : World) : Subscription * World :=
  let n := subscriptions (hub w) in
  (mkSubscription n,
   with_hub (fun h =>
     set_subscriptions (S n) (set_observers (observers h ++ [(n, o)]) h)) w).

(** rxjs [Subscription.unsubscribe]: idempotent removal. *)
Definition unsubscribe (s : Subscription) (w : World) : World :=
  with_hub (fun h =>
    set_observers
      (List.filter (fun p => negb (Nat.eqb (fst p) (subscriber s)))
                   (observers h)) h) w.

(** [EventHub.subscribe]: declared [void]; the subscription that
    [super.subscribe] returns is dropped. *)
Definition subscribe (o : Observer) (w : World) : option Subscription * World :=
  let '(_, w) := Subject_subscribe o w in
  (None, w).

(** [subscription?.unsubscribe?.()]. *)
Definition unsubscribe_if_any (s : option Subscription) (w : World) : World :=
  match s with
  | Some s => unsubscribe s w
  | None => w
  end.

Definition getState (key : string) (w : World) : Value :=
  match spectralState (hub w) !! key with
  | Some subject => bs_value subject
  | None => VUndefined
  end.

Definition getSubscriberCount (key : string) (w : World) : nat :=
  match streamStates (hub w) !! key with
  | Some state => subscribers state
  | None => 0
  end.

Definition updateStreamState (key : string) (value : Value) (n : nat)
    (w : World) : World :=
  with_hub (fun h =>
    set_streamStates
      (<[key := mkStreamState key value (Date_now (host w)) n
                  (bool_decide (key ∈ cursedKeys h))
                  (size (hauntedStreams h))]> (streamStates h)) h) w.

Definition incrementSubscriberCount (key : string) (w : World) : World :=
  with_hub (fun h =>
    match streamStates h !! key with
    | Some state =>
        set_streamStates
          (<[key := mkStreamState (ss_key state) (ss_value state)
                      (lastUpdated state) (S (subscribers state))
                      (is_cursed state) (haunt_count state)]> (streamStates h)) h
    | None => h
    end) w.

Definition is_undefined (v : Value) : bool :=
  match v with VUndefined => true | _ => false end.

(** One [select(key)] pipeline (the [fst observer]-th of the key)
    receiving a value from the key's subject:
    [filter], [tap], [switchMap] (a cursed key delays the value behind a
    timer, which this synchronous run records and does not follow), then
    the subscriber.  rxjs reports a subscriber's throw asynchronously. *)
Definition select_next (rec : Rec) (key : string) (value : Value)
    (observer : nat * (Value -> Reaction)) (w : World) : option World :=
  if is_undefined value then Some w
  else
    let w := incrementSubscriberCount key w in
    if bool_decide (key ∈ cursedKeys (hub w))
    then let '(draw, w) := random w in
         Some (record (TTimer (draw * 100)%Q) w)
    else
      let w := record (TKeyObserved key (fst observer) value) w in
      Some (fst (run_reaction rec (snd observer value) w)).

Definition state_changed (w : World) (key : string) (value : Value)
    : SpectralEvent :=
  diagnostic w "state_changed" "EventHub"
    (VObj [("key", VStr key); ("value", value)])
    (mkMetadata (Some (bool_decide (key ∈ cursedKeys (hub w)))) None None None
                (Some (generateSpectralSignature w key value)) None None).

Definition setState (rec : Rec) (key : string) (value : Value) (w : World)
    : option World :=
  w ← match spectralState (hub w) !! key with
      | None =>
          Some (with_hub (fun h =>
                  set_spectralState
                    (<[key := mkSubject value []]> (spectralState h)) h) w)
      | Some subject =>
          let w := with_hub (fun h =>
                     set_spectralState
                       (<[key := mkSubject value (bs_observers subject)]>
                          (spectralState h)) h) w in
          for_each (select_next rec key value)
                   (imap pair (bs_observers subject)) w
      end;
  let w := updateStreamState key value (getSubscriberCount key w) w in
  emit rec (state_changed w key value) w.

(** [select(key).subscribe(observer)]: the subject is created on first
    use, holding no value; the new observer is handed the current value
    through the pipeline at once. *)
Definition select (rec : Rec) (key : string) (observer : Value -> Reaction)
    (w : World) : option World :=
  let w :=
    match spectralState (hub w) !! key with
    | Some _ => w
    | None =>
        updateStreamState key VUndefined 0
          (with_hub (fun h =>
             set_spectralState
               (<[key := mkSubject VUndefined []]> (spectralState h)) h) w)
    end in
  match spectralState (hub w) !! key with
  | Some subject =>
      let w := with_hub (fun h =>
                 set_spectralState
                   (<[key := mkSubject (bs_value subject)
                               (bs_observers subject ++ [observer])]>
                      (spectralState h)) h) w in
      select_next rec key (bs_value subject)
                  (length (bs_observers subject), observer) w
  | None => Some w
  end.

Definition curseKey (key : string) (w : World) : World :=
  with_hub (fun h => set_cursedKeys ({[key]} ∪ cursedKeys h) h) w.

Definition uncurseKey (key : string) (w : World) : World :=
  with_hub (fun h => set_cursedKeys (cursedKeys h ∖ {[key]}) h) w.

(** A call made from inside a callback, with [depth] further levels of
    nesting left on the stack; with none left the call throws its
    [RangeError]. *)
Fixpoint run_call (depth : nat) (c : Call) (w : World) : option World :=
  match depth with
  | 0 => None
  | S depth' =>
      match c with
      | CEmit event => emit (run_call depth') event w
      | CSetState key value => setState (run_call depth') key value w
      | CMapDelete m key => Some (update_map m (JsMap.delete key) w)
      | CTeardown pluginId => Some (snd (teardownPlugin pluginId w))
      end
  end.

(* ===================================================================== *)
(** * PluginLoader: loading (loader.ts) *)
(* ===================================================================== *)

Definition manifestation_failed (w : World) (message : string) : Error :=
  Spectral (createSpectralError w MANIFESTATION_FAILED message "PluginLoader").

(** JavaScript's truthiness of a value. *)
Definition is_truthy (v : Value) : bool :=
  match v with
  | VUndefined | VNull | VNum NaN => false
  | VBool b => b
  | VNum (Finite q) => negb (Qeq_bool q 0)
  | VStr s => negb (String.eqb s EmptyString)
  | VArr _ | VObj _ => true
  end.

(** [['mild', 'moderate', 'terrifying'].includes(level)]. *)
Definition names_level (level : Value) : bool :=
  match level with
  | VStr s =>
      String.eqb s "mild" || String.eqb s "moderate" ||
      String.eqb s "terrifying"
  | _ => false
  end.

(** The check [loadManifest] makes of the level: only a truthy value that
    is none of the three names is refused. *)
Definition valid_spookiness (level : Value) : bool :=
  negb (is_truthy level && negb (names_level level)).

Definition loadManifest (manifestPath : string) (w : World)
    : Result PluginManifest :=
  let checked : PluginManifest + string :=
    match readManifest (host w) manifestPath with
    | ReadFails message => inr message
    | Parsed raw =>
        match raw_plugins raw with
        | None => inr "Invalid manifest: plugins array is required"
        | Some ps =>
            if valid_spookiness (raw_spookiness raw)
            then inl (mkManifest ps (raw_version raw) (raw_spookiness raw))
            else inr "Invalid spookiness level - must be mild, moderate, or terrifying"
        end
    end in
  match checked with
  | inl manifest => Resolved manifest
  | inr message =>
      Rejected (manifestation_failed w
        ("Failed to load manifest from " +:+ manifestPath +:+ ": " +:+ message))
  end.

(** [validatePlugin]: the three methods, the two properties, then the id. *)
Definition validatePlugin (plugin : RawInstance) (config : PluginConfig)
    : Plugin + string :=
  let missing kind name :=
    inr ("Plugin '" +:+ cfg_id config +:+ "' missing required " +:+ kind
         +:+ ": " +:+ name) in
  match raw_init plugin, raw_process plugin, raw_teardown plugin with
  | None, _, _ => missing "method" "init"
  | Some _, None, _ => missing "method" "process"
  | Some _, Some _, None => missing "method" "teardown"
  | Some i, Some p, Some t =>
      match raw_id plugin, raw_manifest plugin with
      | None, _ => missing "property" "id"
      | Some _, None => missing "property" "manifest"
      | Some id, Some m =>
          if String.eqb id (cfg_id config)
          then inl (mkPlugin id m i p t (raw_haunt plugin)
                             (raw_disturbance plugin))
          else inr ("Plugin ID mismatch: expected '" +:+ cfg_id config
                    +:+ "', got '" +:+ id +:+ "'")
      end
  end.

Fixpoint export_named (name : string) (l : list (string * Construction))
    : option Construction :=
  match l with
  | [] => None
  | (n, c) :: rest => if String.eqb name n then Some c else export_named name rest
  end.

(** The [try] block of [loadPlugin] up to the validated instance: import
    the module, pick the class, construct, validate. *)
Definition summon (h : Host) (pluginConfig : PluginConfig) : Plugin + string :=
  match import_ h (cfg_path pluginConfig) with
  | ImportFails message => inr message
  | Imports pluginModule =>
      match export_named (cfg_class pluginConfig) (exports pluginModule),
            default_export pluginModule with
      | None, None =>
          inr ("Plugin class '" +:+ cfg_class pluginConfig
               +:+ "' not found in module " +:+ cfg_path pluginConfig)
      | Some PluginClass, _ | None, Some PluginClass =>
          match PluginClass with
          | ConstructorThrows message => inr message
          | Constructs plugin => validatePlugin plugin pluginConfig
          end
      end
  end.

Definition loadPlugin (pluginConfig : PluginConfig) (w : World)
    : Result Plugin * World :=
  let id := cfg_id pluginConfig in
  let w := setPluginState id AWAKENING w in
  match summon (host w) pluginConfig with
  | inl plugin =>
      let w := update_map (loadedPlugins (loader w)) (JsMap.set id plugin) w in
      let w := setPluginState id DORMANT w in
      let w := with_loader (fun l =>
                 set_retryAttempts (delete id (retryAttempts l)) l) w in
      (Resolved plugin, w)
  | inr message =>
      let w := setPluginState id BANISHED w in
      (Rejected (manifestation_failed w
         ("Failed to load plugin '" +:+ id +:+ "': " +:+ message)), w)
  end.

Definition pow2 (n : nat) : Q := inject_Z (2 ^ Z.of_nat n).

(** [retryLoad] calls itself after a failed attempt; [budget] bounds the
    unfolding ([retryLoad] passes one more than [maxRetries], which is
    never used up). *)
Fixpoint retryLoad_from (budget : nat) (pluginConfig : PluginConfig)
    (maxRetries : nat) (w : World) : option (Result Plugin * World) :=
  match budget with
  | 0 => None
  | S budget' =>
      let id := cfg_id pluginConfig in
      let currentAttempts := default 0 (retryAttempts (loader w) !! id) in
      if maxRetries <=? currentAttempts
      then Some (Rejected (manifestation_failed w
                   ("Plugin '" +:+ id +:+ "' failed to load after "
                    +:+ pretty maxRetries +:+ " attempts")), w)
      else
        match loadPlugin pluginConfig w with
        | (Resolved plugin, w) => Some (Resolved plugin, w)
        | (Rejected error, w) =>
            let newAttempts := S currentAttempts in
            let w := with_loader (fun l =>
                       set_retryAttempts (<[id := newAttempts]> (retryAttempts l)) l) w in
            if newAttempts <? maxRetries
            then
              let '(draw, w) := random w in
              let delay := (retryDelay * pow2 newAttempts + draw * 1000)%Q in
              retryLoad_from budget' pluginConfig maxRetries
                             (record (TTimer delay) w)
            else Some (Rejected error, w)
        end
  end.

Definition retryLoad (pluginConfig : PluginConfig) (maxRetries : nat)
    (w : World) : option (Result Plugin * World) :=
  retryLoad_from (S maxRetries) pluginConfig maxRetries w.

Definition set_origin (pluginId : string) (m : Metadata) : Metadata :=
  mkMetadata (Some true) (intensity m) (Some pluginId) (curse_level m)
             (spectral_signature m) (processed_by m) (original_source m).

(** [plugin.manifest.plugins[0]?.haunt_probability || 0]. *)
Definition own_haunt_probability (plugin : Plugin) : Q :=
  match plugins (manifest plugin) with
  | c :: _ => default 0%Q (haunt_probability c)
  | [] => 0%Q
  end.

Definition initializePlugin (rec : Rec) (plugin : Plugin) (w : World)
    : option (Result unit * World) :=
  let pluginId := plugin_id plugin in
  let failed message w :=
    let w := setPluginState pluginId BANISHED w in
    (Rejected (manifestation_failed w
       ("Failed to initialize plugin '" +:+ pluginId +:+ "': " +:+ message)), w) in
  let w := setPluginState pluginId AWAKENING w in
  let w := record (TInit pluginId) w in
  let '(w, thrown) := run_reaction rec (init plugin) w in
  match thrown with
  | Throws message => Some (failed message w)
  | Returns =>
      let w := setPluginState pluginId ACTIVE w in
      match haunt plugin with
      | None => Some (Resolved tt, w)
      | Some haunting =>
          let '(draw, w) := random w in
          if qlt draw (own_haunt_probability plugin)
          then
            let w := setPluginState pluginId HAUNTING w in
            match haunting with
            | ProcessThrows message => Some (failed message w)
            | ProcessReturns emissions =>
                w ← for_each
                      (fun hauntEvent =>
                         emit rec (with_metadata hauntEvent
                           (set_origin pluginId
                              (default noMetadata (metadata hauntEvent)))))
                      (emitted emissions) w;
                match ending emissions with
                | ErrorsWith _ =>
                    Some (Resolved tt, setPluginState pluginId ACTIVE w)
                | _ => Some (Resolved tt, w)
                end
            end
          else Some (Resolved tt, w)
      end
  end.

Definition getSpookinessIntensity (level : Value) : Q :=
  match level with
  | VStr "mild" => 3 # 10
  | VStr "moderate" => 6 # 10
  | VStr "terrifying" => 1
  | _ => 5 # 10
  end.

Definition manifest_loading (w : World) (manifestPath : string)
    (manifest : PluginManifest) : SpectralEvent :=
  diagnostic w "manifest_loading" "PluginLoader"
    (VObj [("manifestPath", VStr manifestPath);
           ("pluginCount", VInt (length (plugins manifest)));
           ("spookiness_level", spookiness_level manifest)])
    (mkMetadata
       (Some (match spookiness_level manifest with
              | VStr s => String.eqb s "terrifying"
              | _ => false
              end))
       (Some (Finite (getSpookinessIntensity (spookiness_level manifest))))
       None None None None None).

Definition plugin_loaded (w : World) (plugin : Plugin)
    (pluginConfig : PluginConfig) : SpectralEvent :=
  let p := default 0%Q (haunt_probability pluginConfig) in
  diagnostic w "plugin_loaded" "PluginLoader"
    (VObj [("pluginId", VStr (plugin_id plugin));
           ("pluginPath", VStr (cfg_path pluginConfig));
           ("haunt_probability",
            optional (fun q => VNum (Finite q)) (haunt_probability pluginConfig))])
    (mkMetadata (Some (qlt (1 # 2) p)) (Some (Finite p))
                None None None None None).

Definition plugin_load_failed (w : World) (pluginConfig : PluginConfig)
    (error : Error) : SpectralEvent :=
  diagnostic w "plugin_load_failed" "PluginLoader"
    (VObj [("pluginId", VStr (cfg_id pluginConfig));
           ("error", VStr (error_message error))])
    (flagged (8 # 10)%Q).

(** [a / b] for [a <= b]: only [0 / 0] has no finite value. *)
Definition ratio (a b : nat) : JsNumber :=
  match b with
  | 0 => NaN
  | _ => Finite (Qred (inject_Z (Z.of_nat a) / inject_Z (Z.of_nat b)))
  end.

Definition coven_assembled (w : World) (total loaded : nat) : SpectralEvent :=
  diagnostic w "coven_assembled" "PluginLoader"
    (VObj [("totalPlugins", VInt total);
           ("loadedPlugins", VInt loaded);
           ("failedPlugins",
            VNum (Finite (inject_Z (Z.of_nat total - Z.of_nat loaded))))])
    (mkMetadata (Some (loaded <? total)) (Some (ratio loaded total))
                None None None None None).

(** The body of the loop of [loadAllPlugins] for one descriptor;
    [loadedPlugins] is the function's local map. *)
Definition load_one (rec : Rec) (loadedPlugins : nat)
    (pluginConfig : PluginConfig) (w : World) : option World :=
  '(loaded, w) ← retryLoad pluginConfig maxRetries w;
  match loaded with
  | Rejected error => emit rec (plugin_load_failed w pluginConfig error) w
  | Resolved plugin =>
      '(initialized, w) ← initializePlugin rec plugin w;
      match initialized with
      | Rejected error => emit rec (plugin_load_failed w pluginConfig error) w
      | Resolved _ =>
          let w := update_map loadedPlugins
                              (JsMap.set (plugin_id plugin) plugin) w in
          emit rec (plugin_loaded w plugin pluginConfig) w
      end
  end.

Definition loadAllPlugins (rec : Rec) (manifestPath : string) (w : World)
    : option (Result nat * World) :=
  match loadManifest manifestPath w with
  | Rejected error => Some (Rejected error, w)
  | Resolved manifest =>
      let '(loadedPlugins, w) := new_map JsMap.empty w in
      w ← emit rec (manifest_loading w manifestPath manifest) w;
      w ← for_each (load_one rec loadedPlugins) (plugins manifest) w;
      w ← emit rec (coven_assembled w (length (plugins manifest))
                       (JsMap.size (map_at loadedPlugins w))) w;
      Some (Resolved loadedPlugins, w)
  end.

Definition getLoadedPlugins (w : World) : nat * World :=
  new_map (JsMap.copy (registry w)) w.

Definition getPluginState (pluginId : string) (w : World)
    : option PluginState :=
  pluginStates (loader w) !! pluginId.

Definition setupPluginEventRouting (plugins : nat) (w : World) : World :=
  snd (subscribe (PluginRouter plugins) w).

(* ===================================================================== *)
(** * EventHub: stream utilities (processStream, fuseStreams) *)
(* ===================================================================== *)

Definition generateStreamId (prefix : string) (w : World) : string * World :=
  let '(draw, w) := random w in
  (prefix +:+ "_" +:+ pretty (Date_now (host w)) +:+ "_" +:+ base36 (host w) draw,
   w).

Definition handleStreamDisturbance (rec : Rec) (message streamId : string)
    (w : World) : option World :=
  let w := with_hub (fun h =>
             set_hauntedStreams ({[streamId]} ∪ hauntedStreams h)
               (set_lastDisturbance (Date_now (host w)) h)) w in
  emit rec (diagnostic w "spectral_disturbance" "EventHub"
              (VObj [("streamId", VStr streamId); ("error", VStr message)])
              (flagged (7 # 10)%Q)) w.

Definition manifestGhostlyCrash (rec : Rec) (message context : string)
    (w : World) : option World :=
  let w := with_hub (fun h =>
             set_hauntLevel (qmin 1 (Qred (hauntLevel h + (3 # 10))%Q))
               (set_lastDisturbance (Date_now (host w)) h)) w in
  emit rec (diagnostic w "ghostly_crash" "EventHub"
              (VObj [("context", VStr context); ("error", VStr message);
                     ("stack", VStr (error_stack (host w) message))])
              (mkMetadata (Some true) (Some (Finite 1)) None
                          (Some (Finite (hauntLevel (hub w)))) None None None)) w.

(** The hub's own [createSpectralError]. *)
Definition hub_createSpectralError (w : World) (type : SpectralErrorType)
    (message : string) (src : string) : SpectralError :=
  mkSpectralError type message src (Date_now (host w)) (hauntLevel (hub w))
    (match type with REALM_COLLAPSE => false | _ => true end).

(** When the notifications of a subscription arrive: during the
    [subscribe] call itself, or in a later task. *)
Inductive Timing :=
| Synchronously
| Later.

Inductive SourceEnd :=
| SourceErrors (message : string)
| SourceCompletes
| SourceStaysOpen.

(** What one subscription to [input$] delivers. *)
Record SourceRun (T : Type) := mkSourceRun {
  arrives : Timing;
  items : list T;
  finish : SourceEnd
}.
Arguments mkSourceRun {T} _ _ _.
Arguments arrives {T} _.
Arguments items {T} _.
Arguments finish {T} _.

(** [fn(data)]: the transform throws, or returns an Observable. *)
Inductive Transformed (R : Type) :=
| TransformThrows (message : string)
| TransformReturns (s : Stream R).
Arguments TransformThrows {R} _.
Arguments TransformReturns {R} _.

Inductive Final :=
| Failed (e : SpectralError)
| Completed
| Open.

Record Processed_stream (R : Type) := mkProcessed {
  outputs : list R;
  final : Final;
  resubscriptions : nat;
  delays : list Q
}.
Arguments mkProcessed {R} _ _ _ _.
Arguments outputs {R} _.
Arguments final {R} _.
Arguments resubscriptions {R} _.
Arguments delays {R} _.

(** The [switchMap] stage for one item: a throw of the transform, or an
    error of the stream it returned, is reported and ends that item only. *)
Definition transform_item {T R} (rec : Rec) (streamId : string)
    (fn : T -> Transformed R) (item : T) (acc : list R * World)
    : option (list R * World) :=
  let '(outs, w) := acc in
  match fn item with
  | TransformThrows message =>
      w ← handleStreamDisturbance rec message streamId w; Some (outs, w)
  | TransformReturns inner =>
      match ending inner with
      | ErrorsWith message =>
          w ← handleStreamDisturbance rec message streamId w;
          Some (outs ++ emitted inner, w)
      | _ => Some (outs ++ emitted inner, w)
      end
  end.

(** The stream [switchMap] is subscribed to when its source completes
    (the one of the last item) is still open: the transform returned a
    stream that neither completes nor errors. *)
Definition last_stays_open {T R} (fn : T -> Transformed R) (l : list T)
    : bool :=
  match last l with
  | Some item =>
      match fn item with
      | TransformReturns inner =>
          match ending inner with StaysOpen => true | _ => false end
      | TransformThrows _ => false
      end
  | None => false
  end.

Fixpoint transform_items {T R} (rec : Rec) (streamId : string)
    (fn : T -> Transformed R) (l : list T) (acc : list R * World)
    : option (list R * World) :=
  match l with
  | [] => Some acc
  | item :: rest =>
      acc ← transform_item rec streamId fn item acc;
      transform_items rec streamId fn rest acc
  end.

(** The pipeline of [processStream] from the [index]-th subscription to
    [input$] on.  [index] is also the number of errors the [retryWhen]
    notifier has seen and the number of values [take(3)] has let through.

    rxjs: [retryWhen] resubscribes on each value of the notifier and
    completes the result when the notifier completes; [take(3)] passes its
    third value on, which starts the third resubscription, and then
    completes.  So what the fourth subscription delivers counts only if it
    arrives during that [subscribe] call; an error that arrives then
    reaches [index >= 3] and fails the stream.  Before that, a source
    that completes completes the output only once the stream of its last
    item has completed too ([switchMap]). *)
Fixpoint processStream_from {T R} (rec : Rec) (streamId : string)
    (input : nat -> SourceRun T) (fn : T -> Transformed R)
    (budget index : nat) (acc : Processed_stream R) (w : World)
    : option (Processed_stream R * World) :=
  match budget with
  | 0 => None
  | S budget' =>
      let run := input index in
      let finished f outs w :=
        Some (mkProcessed outs f (resubscriptions acc) (delays acc), w) in
      match index, arrives run with
      | 3, Later => finished Completed (outputs acc) w
      | _, _ =>
          '(outs, w) ← transform_items rec streamId fn (items run)
                                         (outputs acc, w);
          match finish run with
          | SourceCompletes =>
              finished (if (index =? 3)
                           || negb (last_stays_open fn (items run))
                        then Completed else Open) outs w
          | SourceStaysOpen =>
              finished (if index =? 3 then Completed else Open) outs w
          | SourceErrors message =>
              w ← manifestGhostlyCrash rec message streamId w;
              let error := hub_createSpectralError w DISTURBANCE_DETECTED
                ("Stream " +:+ streamId
                 +:+ " encountered spectral disturbance: " +:+ message)
                "EventHub" in
              let w := increaseHauntLevel w in
              if 3 <=? index then finished (Failed error) outs w
              else
                let '(draw, w) := random w in
                let delay := (pow2 index * 1000 + draw * 1000)%Q in
                processStream_from rec streamId input fn budget' (S index)
                  (mkProcessed outs Open (S (resubscriptions acc))
                               (delays acc ++ [delay]))
                  (record (TTimer delay) w)
          end
      end
  end.

Definition processStream {T R} (rec : Rec) (input : nat -> SourceRun T)
    (fn : T -> Transformed R) (w : World)
    : option (Processed_stream R * World) :=
  let '(streamId, w) := generateStreamId "stream" w in
  processStream_from rec streamId input fn 4 0 (mkProcessed [] Open 0 []) w.

(** ** fuseStreams *)

Inductive Signal :=
| SNext (i : nat) (v : Value)
| SError (i : nat) (message : string)
| SComplete (i : nat).

(** A notification of one of the sources, with the time it arrives at. *)
Record Timed := mkTimed { at_ms : nat; signal : Signal }.

Inductive Fused :=
| Tuple (values : list Value)
| End.

(** The state of one [fuseStreams] pipeline: [combineLatest]'s latest
    values, [debounceTime]'s pending tuple with the time it is due,
    [distinctUntilChanged]'s previous tuple, and what the subscribers have
    received. *)
Record Fusion := mkFusion {
  latest : list (option Value);
  completed : list bool;
  pending : option (list Value * nat);
  previous : option (list Value);
  alive : bool;
  received : list Fused
}.

Definition all_present (l : list (option Value)) : option (list Value) :=
  mapM (fun x => x) l.

(** [debounceTime] lets its pending tuple through, then
    [distinctUntilChanged] drops it if it prints like the previous one. *)
Definition release (w : World) (f : Fusion) : Fusion :=
  match pending f with
  | Some (values, _) =>
      let same :=
        match previous f with
        | Some prev =>
            bool_decide (JSON_stringify (host w) (VArr prev)
                         = JSON_stringify (host w) (VArr values))
        | None => false
        end in
      if same
      then mkFusion (latest f) (completed f) None (previous f) (alive f)
                    (received f)
      else mkFusion (latest f) (completed f) None (Some values) (alive f)
                    (received f ++ [Tuple values])
  | None => f
  end.

(** The debounce timer has fired by time [now]. *)
Definition flush (w : World) (now : nat) (f : Fusion) : Fusion :=
  match pending f with
  | Some (_, due) => if due <=? now then release w f else f
  | None => f
  end.

(** One notification of a source reaching the pipeline.  rxjs
    [combineLatest] completes when the last of its sources has completed,
    whether or not every source has emitted; [debounceTime] then lets its
    pending tuple through before it completes. *)
Definition fuse_step (rec : Rec) (fusionId : string) (s : Timed)
    (acc : Fusion * World) : option (Fusion * World) :=
  let '(f, w) := acc in
  if negb (alive f) then Some (f, w)
  else
    let f := flush w (at_ms s) f in
    match signal s with
    | SNext i v =>
        let latest' := <[i := Some v]> (latest f) in
        let pending' :=
          match all_present latest' with
          | Some values => Some (values, at_ms s + 10)
          | None => pending f
          end in
        Some (mkFusion latest' (completed f) pending' (previous f) true
                       (received f), w)
    | SError i message =>
        w ← manifestGhostlyCrash rec message fusionId w;
        Some (mkFusion (latest f) (completed f) None (previous f) false
                       (received f ++ [Tuple []; End]), w)
    | SComplete i =>
        let completed' := <[i := true]> (completed f) in
        if forallb (fun b => b) completed'
        then
          let f := release w f in
          Some (mkFusion (latest f) completed' None (previous f) false
                         (received f ++ [End]), w)
        else Some (mkFusion (latest f) completed' (pending f) (previous f)
                            true (received f), w)
    end.

Fixpoint fuse_steps (rec : Rec) (fusionId : string) (l : list Timed)
    (acc : Fusion * World) : option (Fusion * World) :=
  match l with
  | [] => Some acc
  | s :: rest =>
      acc ← fuse_step rec fusionId s acc;
      fuse_steps rec fusionId rest acc
  end.

(** [fuseStreams(...streams)] run on the notifications [signals] of its
    [n] sources, observed up to time [horizon]. *)
Definition fuseStreams (rec : Rec) (n : nat) (signals : list Timed)
    (horizon : nat) (w : World) : option (Fusion * World) :=
  match n with
  | 0 => Some (mkFusion [] [] None None false [Tuple []; End], w)
  | _ =>
      let '(fusionId, w) := generateStreamId "fusion" w in
      '(f, w) ← fuse_steps rec fusionId signals
                  (mkFusion (replicate n None) (replicate n false) None None
                            true [], w);
      Some (if alive f then flush w horizon f else f, w)
  end.

(* ===================================================================== *)
(** * EventHub: spectralIterator *)
(* ===================================================================== *)

Definition set_iterator_state (queue : list SpectralEvent) (waiting : bool)
    (settle : option IteratorResult) (ret : bool) (it : SpectralIterator)
    : SpectralIterator :=
  mkIterator (it_filter it) (maxEvents it) (it_eventCount it) queue waiting
             (isComplete it) settle (it_subscription it) ret.

(** The generator's prologue, run by the first [next()]: the locals and
    the subscription. *)
Definition spectralIterator (filter : option (SpectralEvent -> bool))
    (maxEvents : option nat) (w : World) : nat * World :=
  let i := length (iterators w) in
  let '(subscription, w) := subscribe (IteratorSink i) w in
  (i, with_iterators (fun its =>
        its ++ [mkIterator filter maxEvents 0 [] false false None
                           subscription false]) w).

(** The [finally] block: [subscription?.unsubscribe?.()]. *)
Definition iterator_cleanup (i : nat) (w : World) : World :=
  match iterators w !! i with
  | Some it =>
      update_iterator i (set_iterator_state (eventQueue it) false None true)
        (unsubscribe_if_any (it_subscription it) w)
  | None => w
  end.

Inductive Pulled :=
| Got (r : IteratorResult)
| Awaiting.

(** The consumer's [next()] on a generator that is not waiting: one turn
    of the [while] loop up to its [yield] or [await]. *)
Definition iterator_next (i : nat) (w : World) : Pulled * World :=
  match iterators w !! i with
  | None => (Got Done, w)
  | Some it =>
      if returned it then (Got Done, w)
      else if isComplete it then (Got Done, iterator_cleanup i w)
      else
        match eventQueue it with
        | e :: rest =>
            (Got (Yielded e),
             update_iterator i (set_iterator_state rest false None false) w)
        | [] =>
            (Awaiting,
             update_iterator i (set_iterator_state [] true None false) w)
        end
  end.

(** The 30 second timer of a pending [await]. *)
Definition iterator_timeout (i : nat) (w : World) : World :=
  match iterators w !! i with
  | Some it =>
      if resolveNext it
      then update_iterator i
             (set_iterator_state (eventQueue it) false (Some Done) false) w
      else w
  | None => w
  end.

(** The generator resumes after its [await] settled. *)
Definition iterator_resume (i : nat) (w : World) : Pulled * World :=
  match iterators w !! i with
  | Some it =>
      match settled it with
      | Some Done => (Got Done, iterator_cleanup i w)
      | Some (Yielded e) =>
          (Got (Yielded e),
           update_iterator i
             (set_iterator_state (eventQueue it) false None false) w)
      | None => (Awaiting, w)
      end
  | None => (Got Done, w)
  end.

(* ===================================================================== *)
(** * Specification vocabulary *)
(* ===================================================================== *)

(** What a run added to the trace. *)
Definition added (w w' : World) (l : list Trace) : Prop :=
  trace w' = trace w ++ l.

(** No routing pass hands a plugin an event of its own. *)
Definition Honest (l : list Trace) : Prop :=
  forall id e, TProcess id e ∈ l -> source e <> id.

(** A map after some of its entries were deleted. *)
Definition shrinks (a b : JsMap.t Plugin) : Prop :=
  Forall2 (fun x y => y = x \/ y = None) a b.

(** The keyed store keeps the observers of every key it had. *)
Definition keeps_observers (s s' : gmap string BehaviorSubject) : Prop :=
  forall key,
    match s !! key with
    | Some subject =>
        exists v, s' !! key = Some (mkSubject v (bs_observers subject))
    | None => s' !! key = None \/ exists v, s' !! key = Some (mkSubject v [])
    end.

(** What the callbacks of a run are known not to touch: the maps they
    delete nothing from and the keys they do not write. *)
Record Guard := mkGuard {
  kept_map : nat -> Prop;
  kept_key : string -> Prop
}.

Definition unguarded : Guard := mkGuard (fun _ => False) (fun _ => False).

(** Only the map behind [m] is guarded. *)
Definition guard_map (m : nat) : Guard := mkGuard (eq m) (fun _ => False).

(** Only the key [key] is guarded. *)
Definition guard_key (key : string) : Guard := mkGuard (fun _ => False) (eq key).

(** What every run of callbacks leaves in place. *)
Record Frame (G : Guard) (w w' : World) : Prop := mkFrame {
  frame_host : host w' = host w;
  frame_observers : observers (hub w') = observers (hub w);
  frame_registry : loadedPlugins (loader w') = loadedPlugins (loader w);
  frame_loader : kept_map G (loadedPlugins (loader w)) -> loader w' = loader w;
  frame_cursed : cursedKeys (hub w') = cursedKeys (hub w);
  frame_maps : Forall2 shrinks (maps w) (maps w');
  frame_kept_map : forall m, kept_map G m -> map_at m w' = map_at m w;
  frame_keys : keeps_observers (spectralState (hub w)) (spectralState (hub w'));
  frame_kept_key : forall key, kept_key G key -> getState key w' = getState key w;
  frame_trace : exists l, added w w' l /\ Honest l
}.

(** The nesting a call needs, for a ranking [rk] of event types. *)
Definition call_rank (rk : string -> nat) (c : Call) : nat :=
  match c with
  | CEmit e => rk (ev_type e)
  | CSetState _ _ => S (rk "state_changed")
  | CMapDelete _ _ | CTeardown _ => 0
  end.

(** A call that spares what is guarded; [reg] is the loader's own
    registry, which [teardownPlugin] deletes from. *)
Definition spares (G : Guard) (reg : nat) (c : Call) : Prop :=
  match c with
  | CEmit _ => True
  | CSetState key _ => ~ kept_key G key
  | CMapDelete m _ => ~ kept_map G m
  | CTeardown _ => ~ kept_map G reg
  end.

Definition tame (rk : string -> nat) (G : Guard) (reg bound : nat)
    (cs : list Call) : Prop :=
  Forall (fun c => call_rank rk c < bound /\ spares G reg c) cs.

Definition tame_process (rk : string -> nat) (G : Guard)
    (reg bound : nat) (run : ProcessRun) : Prop :=
  tame rk G reg bound (before run) /\
  match result run with
  | ProcessThrows _ => True
  | ProcessReturns s =>
      Forall (fun out => rk (ev_type out) < bound) (emitted s) /\
      (forall message, ending s = ErrorsWith message ->
         rk "plugin_processing_error" < bound)
  end.

(** Every reaction ranks below the event that caused it: what an observer
    emits in reply to an event (and the [subscriber_error] of a throw),
    what a routed plugin outputs for it, and what the observers of a key
    do on a state change.  Such a hub answers every call within a depth
    given by the rank. *)
Record Ranked (rk : string -> nat) (G : Guard) (w : World) : Prop :=
  mkRanked {
  ranked_callbacks : forall i react e,
    (i, Callback react) ∈ observers (hub w) ->
    tame rk G (loadedPlugins (loader w)) (rk (ev_type e)) (calls (react e)) /\
    (forall message, outcome (react e) = Throws message ->
       rk "subscriber_error" < rk (ev_type e));
  ranked_plugins : forall i m id plugin e,
    (i, PluginRouter m) ∈ observers (hub w) ->
    (id, plugin) ∈ JsMap.entries (map_at m w) ->
    source e <> id ->
    tame_process rk G (loadedPlugins (loader w)) (rk (ev_type e))
                 (process plugin e);
  ranked_keys : forall key subject observer v,
    spectralState (hub w) !! key = Some subject ->
    observer ∈ bs_observers subject ->
    tame rk G (loadedPlugins (loader w)) (S (rk "state_changed"))
         (calls (observer v))
}.

(** What is known of the nested calls of a function: below [bound] they
    return, leave the frame in place, and an [emit] announces the stamped
    event first. *)
Definition Answers (rk : string -> nat) (G : Guard) (bound : nat)
    (rec : Rec) : Prop :=
  forall c w,
    Ranked rk G w -> call_rank rk c < bound ->
    spares G (loadedPlugins (loader w)) c ->
    exists w', rec c w = Some w' /\ Frame G w w' /\
      forall e, c = CEmit e ->
        exists l, added w w' (TNext (fst (stamp e w)) :: l).

(** A trace entry recorded between two worlds. *)
Definition within (w w' : World) (t : Trace) : Prop :=
  exists l, added w w' l /\ t ∈ l.

(** What one turn of the routing loop does for a plugin it does not skip:
    it calls the hook, and every event the hook's stream delivers goes to
    [emit] with the routing metadata. *)
Definition RoutedTo (id : string) (plugin : Plugin) (event : SpectralEvent)
    (w w' : World) : Prop :=
  (exists l, added w w' (TProcess id event :: l)) /\
  forall s out, result (process plugin event) = ProcessReturns s ->
    out ∈ emitted s ->
    exists w0, within w w' (TNext (fst (stamp (routed id event out) w0))).

(** The world after [setState] wrote the value and before it notifies. *)
Definition written (key : string) (value : Value) (w : World) : World :=
  with_hub (fun h =>
    set_spectralState
      (<[key := mkSubject value
                  (match spectralState h !! key with
                   | Some subject => bs_observers subject
                   | None => []
                   end)]> (spectralState h)) h) w.

(** A caller's [emit(e1); ...; emit(en)]. *)
Definition emit_all (rec : Rec) (events : list SpectralEvent) (w : World)
    : option World :=
  for_each (emit rec) events w.

Definition is_diagnostic (e : SpectralEvent) : bool :=
  String.eqb (ev_type e) "subscriber_error".

(** The events subscriber [i] was handed, in order. *)
Fixpoint seen_by (i : nat) (l : list Trace) : list SpectralEvent :=
  match l with
  | [] => []
  | TObserved j e :: rest =>
      if Nat.eqb i j then e :: seen_by i rest else seen_by i rest
  | _ :: rest => seen_by i rest
  end.

(** The deliveries of a run, in order, the hub's own [subscriber_error]
    events left out. *)
Fixpoint deliveries (l : list Trace) : list (nat * SpectralEvent) :=
  match l with
  | [] => []
  | TObserved j e :: rest =>
      if is_diagnostic e then deliveries rest else (j, e) :: deliveries rest
  | _ :: rest => deliveries rest
  end.

(** The plugins whose hook a run called, in order. *)
Fixpoint hooks_called (l : list Trace) : list string :=
  match l with
  | [] => []
  | TProcess id _ :: rest => id :: hooks_called rest
  | _ :: rest => hooks_called rest
  end.

(** An observer that calls nothing back and accepts the hub's
    [subscriber_error] events. *)
Definition polite (o : Observer) : Prop :=
  exists react, o = Callback react /\
    (forall e, calls (react e) = []) /\
    (forall e, is_diagnostic e = true -> outcome (react e) = Returns).

Definition all_polite (w : World) : Prop :=
  Forall (fun sub => polite (snd sub)) (observers (hub w)).

(** What a run among polite observers leaves: the observers, and a trace
    whose deliveries are [ds]. *)
Definition delivers (w w' : World) (ds : list (nat * SpectralEvent)) : Prop :=
  observers (hub w') = observers (hub w) /\
  exists l, added w w' l /\ deliveries l = ds.

(** What subscriber [i] was handed, the hub's diagnostics left out. *)
Definition received_by (i : nat) (l : list Trace) : list SpectralEvent :=
  map snd (List.filter (fun d => Nat.eqb (fst d) i) (deliveries l)).

(** ** Vocabulary of the loader's loop *)

(** A later world: its trace extends the earlier one's. *)
Definition After (w w' : World) : Prop := exists l, added w w' l.

(** What the loop of [loadAllPlugins] relies on from one descriptor to the
    next: [reg] is the loader's registry, [loaded] the function's local
    map, and no routing pass runs over either. *)
Record Loading (rk : string -> nat) (G : Guard) (h : Host) (reg loaded : nat)
    (w : World) : Prop := mkLoading {
  loading_ranked : Ranked rk G w;
  loading_routers : forall i m,
    (i, PluginRouter m) ∈ observers (hub w) -> m <> reg /\ m <> loaded;
  loading_host : host w = h;
  loading_registry : loadedPlugins (loader w) = reg;
  loading_local : loaded < length (maps w)
}.

(** A step that leaves the records of every other plugin alone. *)
Definition Elsewhere (loaded : nat) (id : string) (w w' : World) : Prop :=
  forall id', id' <> id ->
    pluginStates (loader w') !! id' = pluginStates (loader w) !! id' /\
    retryAttempts (loader w') !! id' = retryAttempts (loader w) !! id' /\
    JsMap.get id' (map_at loaded w') = JsMap.get id' (map_at loaded w) /\
    JsMap.get id' (registry w') = JsMap.get id' (registry w).

(** A step of the loader's own bookkeeping for plugin [id]: the hub and
    the host stay, and so does every map but the registry. *)
Record Kept (reg : nat) (id : string) (w w' : World) : Prop := mkKept {
  kept_hub : hub w' = hub w;
  kept_host : host w' = host w;
  kept_registry : loadedPlugins (loader w') = loadedPlugins (loader w);
  kept_length : length (maps w') = length (maps w);
  kept_maps : forall m, m <> reg -> map_at m w' = map_at m w;
  kept_states : forall id', id' <> id ->
    pluginStates (loader w') !! id' = pluginStates (loader w) !! id';
  kept_retries : forall id', id' <> id ->
    retryAttempts (loader w') !! id' = retryAttempts (loader w) !! id';
  kept_trace : After w w';
  kept_others : forall id', id' <> id ->
    JsMap.get id' (registry w') = JsMap.get id' (registry w)
}.

Definition attempts_of (id : string) (w : World) : nat :=
  default 0 (retryAttempts (loader w) !! id).

Definition load_failure (cfg : PluginConfig) (message : string) : string :=
  "Failed to load plugin '" +:+ cfg_id cfg +:+ "': " +:+ message.

(** A plugin whose [init] returns, calling back only what the hub answers,
    and whose [haunt], if it has one, returns its stream. *)
Definition healthy (rk : string -> nat) (G : Guard) (reg depth : nat)
    (plugin : Plugin) : Prop :=
  outcome (init plugin) = Returns /\
  tame rk G reg depth (calls (init plugin)) /\
  forall message, haunt plugin <> Some (ProcessThrows message).

(** Between two points of the loop at which nothing was added to the
    local map. *)
Definition Quiet (rk : string -> nat) (G : Guard) (h : Host)
    (reg loaded : nat) (id : string) (w w' : World) : Prop :=
  Loading rk G h reg loaded w' /\ Elsewhere loaded id w w' /\
  map_at loaded w' = map_at loaded w /\ After w w'.

(** The failure diagnostic of [loadAllPlugins] for a descriptor. *)
Definition reports_failure (cfg : PluginConfig) (message : string)
    (e : SpectralEvent) : Prop :=
  ev_type e = "plugin_load_failed" /\ source e = "PluginLoader" /\
  data e = VObj [("pluginId", VStr (cfg_id cfg)); ("error", VStr message)].

(** The success diagnostic of [loadAllPlugins] for a descriptor. *)
Definition reports_loaded (cfg : PluginConfig) (e : SpectralEvent) : Prop :=
  ev_type e = "plugin_loaded" /\ source e = "PluginLoader" /\
  data e = VObj [("pluginId", VStr (cfg_id cfg));
                 ("pluginPath", VStr (cfg_path cfg));
                 ("haunt_probability",
                  optional (fun q => VNum (Finite q)) (haunt_probability cfg))].

(** The [init] hook of a plugin ran: it was called, and every event it
    emitted went out on the hub. *)
Definition init_ran (plugin : Plugin) (w w' : World) : Prop :=
  within w w' (TInit (plugin_id plugin)) /\
  forall e, CEmit e ∈ calls (init plugin) ->
    exists e', within w w' (TNext e') /\ same_message e e'.

(** What loading and initializing a plugin leaves behind: the plugin is
    in the loader's registry, its [init] hook ran, and the
    [plugin_loaded] event went out. *)
Definition initialized (cfg : PluginConfig) (plugin : Plugin)
    (w w' : World) : Prop :=
  JsMap.get (cfg_id cfg) (registry w') = Some plugin /\
  init_ran plugin w w' /\
  exists e, within w w' (TNext e) /\ reports_loaded cfg e.

(** What the loop leaves for a descriptor. *)
Definition dealt_with (h : Host) (loaded : nat) (cfg : PluginConfig)
    (w w' : World) : Prop :=
  match summon h cfg with
  | inl plugin =>
      JsMap.get (cfg_id cfg) (map_at loaded w') = Some plugin /\
      (pluginStates (loader w') !! cfg_id cfg = Some ACTIVE \/
       haunt plugin <> None /\
       pluginStates (loader w') !! cfg_id cfg = Some HAUNTING) /\
      initialized cfg plugin w w'
  | inr message =>
      JsMap.get (cfg_id cfg) (map_at loaded w')
        = JsMap.get (cfg_id cfg) (map_at loaded w) /\
      pluginStates (loader w') !! cfg_id cfg = Some BANISHED /\
      exists e, within w w' (TNext e) /\
        reports_failure cfg (load_failure cfg message) e
  end.

(** A descriptor the loop can deal with: its plugin is healthy or fails
    to load, and its retries are not used up. *)
Definition loadable (rk : string -> nat) (G : Guard) (h : Host)
    (reg depth : nat) (cfg : PluginConfig) (w : World) : Prop :=
  attempts_of (cfg_id cfg) w < maxRetries /\
  match summon h cfg with
  | inl plugin => healthy rk G reg depth plugin
  | inr _ => True
  end.

(* ===================================================================== *)
(** * Vocabulary of the loader's own properties *)
(* ===================================================================== *)

(** The same world on another host: the module files or the manifest
    changed on disk. *)
Definition on_host (h : Host) (w : World) : World :=
  mkWorld h (randomCalls w) (hub w) (loader w) (maps w) (iterators w)
          (trace w).

(** The waits of [retryLoad] after failed attempts [first], [first + 1],
    ..., each with the next draw of the generator as its jitter. *)
Definition backoff (w : World) (first count : nat) : list Trace :=
  map (fun j =>
         TTimer (retryDelay * pow2 (first + j)
                 + Math_random (host w) (randomCalls w + j) * 1000)%Q)
      (seq 0 count).

Definition retries_used_up (cfg : PluginConfig) (n : nat) : string :=
  "Plugin '" +:+ cfg_id cfg +:+ "' failed to load after " +:+ pretty n
  +:+ " attempts".

(** Every plugin of the map is stored under its own id. *)
Definition keyed_by_id (m : JsMap.t Plugin) : Prop :=
  forall id plugin, (id, plugin) ∈ JsMap.entries m -> plugin_id plugin = id.

(* ===================================================================== *)
(** * Vocabulary of a whole batch *)
(* ===================================================================== *)

Definition init_failure (plugin : Plugin) (message : string) : string :=
  "Failed to initialize plugin '" +:+ plugin_id plugin +:+ "': " +:+ message.

(** The entry [loadAllPlugins] adds to its map for a descriptor: none when
    the plugin does not load or its [init] throws. *)
Definition enlisted (h : Host) (cfg : PluginConfig)
    : option (string * Plugin) :=
  match summon h cfg with
  | inl plugin =>
      match outcome (init plugin) with
      | Returns => Some (plugin_id plugin, plugin)
      | Throws _ => None
      end
  | inr _ => None
  end.

(** What the batch needs of a descriptor: retries left, an [init] that
    calls back only what the hub answers, and no [haunt] that throws. *)
Definition fit (rk : string -> nat) (G : Guard) (h : Host)
    (reg depth : nat) (cfg : PluginConfig) (w : World) : Prop :=
  attempts_of (cfg_id cfg) w < maxRetries /\
  match summon h cfg with
  | inl plugin =>
      tame rk G reg depth (calls (init plugin)) /\
      forall message, haunt plugin <> Some (ProcessThrows message)
  | inr _ => True
  end.

(** The [coven_assembled] diagnostic of a batch. *)
Definition reports_batch (total loaded : nat) (e : SpectralEvent) : Prop :=
  ev_type e = "coven_assembled" /\ source e = "PluginLoader" /\
  data e = VObj [("totalPlugins", VInt total);
                 ("loadedPlugins", VInt loaded);
                 ("failedPlugins",
                  VNum (Finite (inject_Z (Z.of_nat total - Z.of_nat loaded))))].

(* ===================================================================== *)
(** * Vocabulary of the hub's counters and metrics *)
(* ===================================================================== *)

(** The polynomial [c0 * 31^(n-1) + ... + c(n-1)] over the code units
    of a string, continued from [acc]. *)
Definition polynomial31 (acc : Z) (l : list Z) : Z :=
  fold_left (fun a c => (31 * a + c)%Z) l acc.

(** [getSpectralMetrics()]. *)
Record SpectralMetrics := mkMetrics {
  m_eventCount : nat;
  m_hauntLevel : Q;
  m_activeStreams : nat;
  m_cursedKeys : nat;
  m_lastDisturbance : Z
}.

Definition getSpectralMetrics (w : World) : SpectralMetrics :=
  mkMetrics (eventCount (hub w)) (hauntLevel (hub w))
            (size (spectralState (hub w))) (size (cursedKeys (hub w)))
            (lastDisturbance (hub w)).

Definition qmax (a b : Q) : Q := if Qle_bool a b then b else a.

(** The five-second timer of [initializeSpectralMonitoring]:
    [hauntLevel = Math.max(0, hauntLevel * 0.95)]. *)
Definition decayHauntLevel (w : World) : World :=
  with_hub (fun h =>
    set_hauntLevel (qmax 0 (Qred (hauntLevel h * (95 # 100))%Q)) h) w.

Definition level_ok (w : World) : Prop :=
  (0 <= hauntLevel (hub w))%Q /\ (hauntLevel (hub w) <= 1)%Q.

(** The events a run handed to [Subject.next]. *)
Fixpoint nexts (l : list Trace) : nat :=
  match l with
  | [] => 0
  | TNext _ :: rest => S (nexts rest)
  | _ :: rest => nexts rest
  end.

(** What every run keeps of the hub's counters: the haunt level stays in
    range, and the event count grows by the events handed out. *)
Definition Tallied (w w' : World) : Prop :=
  (level_ok w -> level_ok w') /\
  exists l, added w w' l /\
    eventCount (hub w') = eventCount (hub w) + nexts l.

Definition Sound (rec : Rec) : Prop :=
  forall c w w', rec c w = Some w' -> Tallied w w'.

(* ===================================================================== *)
(** * Vocabulary of the hub's diagnostics *)
(* ===================================================================== *)

(** The [subscriber_error] diagnostic for a throw of an observer. *)
Definition reports_throw (event : SpectralEvent) (message : string)
    (d : SpectralEvent) : Prop :=
  ev_type d = "subscriber_error" /\ source d = "EventHub" /\
  data d = VObj [("originalEvent", event_value event);
                 ("error", VStr message)].

(** The [plugin_processing_error] diagnostic for an error of the stream a
    plugin returned. *)
Definition reports_stream_error (pluginId : string) (event : SpectralEvent)
    (message : string) (d : SpectralEvent) : Prop :=
  ev_type d = "plugin_processing_error" /\ source d = "PluginLoader" /\
  data d = VObj [("pluginId", VStr pluginId);
                 ("originalEvent", event_value event);
                 ("error", VStr message)].

(** What a turn of the routing loop leaves for a plugin it does not skip:
    the hook was called, and an error of its stream was reported. *)
Definition Reported (id : string) (plugin : Plugin) (event : SpectralEvent)
    (w w' : World) : Prop :=
  within w w' (TProcess id event) /\
  forall s message,
    result (process plugin event) = ProcessReturns s ->
    ending s = ErrorsWith message ->
    exists d, within w w' (TNext d) /\
      reports_stream_error id event message d.

(* ===================================================================== *)
(** * Vocabulary of fused streams *)
(* ===================================================================== *)

(** No source errors among the notifications. *)
Definition error_free (signals : list Timed) : Prop :=
  forall s i message, s ∈ signals -> signal s <> SError i message.

(** Source [i] emits no value among the notifications. *)
Definition mute (i : nat) (signals : list Timed) : Prop :=
  forall s v, s ∈ signals -> signal s <> SNext i v.

(** The tuples among what the subscribers received, in order. *)
Fixpoint tuples (l : list Fused) : list (list Value) :=
  match l with
  | [] => []
  | Tuple values :: rest => values :: tuples rest
  | End :: rest => tuples rest
  end.

(** No two neighbours of the list print the same. *)
Fixpoint changing (h : Host) (l : list (list Value)) : Prop :=
  match l with
  | a :: (b :: _) as rest =>
      JSON_stringify h (VArr a) <> JSON_stringify h (VArr b) /\ changing h rest
  | _ => True
  end.

(** What holds of a fusion one of whose sources has not emitted yet. *)
Definition waiting_for (i : nat) (f : Fusion) : Prop :=
  (alive f = true -> latest f !! i = Some None) /\
  pending f = None /\ tuples (received f) = [].

(** [distinctUntilChanged] holds the last tuple delivered. *)
Definition distinct_so_far (h : Host) (f : Fusion) : Prop :=
  previous f = last (tuples (received f)) /\
  changing h (tuples (received f)).

(* ===================================================================== *)
(** * Vocabulary of processed streams *)
(* ===================================================================== *)

(** What the transform contributes for an item: the values of the stream
    it returned, up to that stream's end or error. *)
Definition yield_of {T R} (fn : T -> Transformed R) (item : T) : list R :=
  match fn item with
  | TransformThrows _ => []
  | TransformReturns inner => emitted inner
  end.

(** The transform fails for the item: it throws, or the stream it
    returned errors. *)
Definition fails_with {T R} (fn : T -> Transformed R) (item : T)
    (message : string) : Prop :=
  fn item = TransformThrows message \/
  exists inner, fn item = TransformReturns inner /\
                ending inner = ErrorsWith message.

(** The [spectral_disturbance] diagnostic of a stream. *)
Definition reports_disturbance (streamId message : string)
    (d : SpectralEvent) : Prop :=
  ev_type d = "spectral_disturbance" /\ source d = "EventHub" /\
  data d = VObj [("streamId", VStr streamId); ("error", VStr message)].

(** The id [processStream] gives its stream in [w]. *)
Definition stream_id_in (w : World) : string :=
  fst (generateStreamId "stream" w).

(** The wait before resubscription [attempt + 1]: [2^attempt] seconds
    plus a jitter drawn from the host's generator. *)
Definition backoff_of (h : Host) (attempt : nat) (delay : Q) : Prop :=
  exists n, delay = (pow2 attempt * 1000 + Math_random h n * 1000)%Q.

(* ===================================================================== *)
(** * Vocabulary of iterators *)
(* ===================================================================== *)

(** The iterator's filter lets the event through. *)
Definition passes (it : SpectralIterator) (e : SpectralEvent) : Prop :=
  match it_filter it with
  | Some f => f e = true
  | None => True
  end.

(** The pull that follows: a generator whose [await] has settled with an
    event resumes and yields that event first. *)
Definition catch_up (i : nat) (w : World) : list SpectralEvent * World :=
  match iterators w !! i with
  | Some it =>
      match settled it with
      | Some (Yielded a) => ([a], snd (iterator_resume i w))
      | _ => ([], w)
      end
  | None => ([], w)
  end.

(* ===================================================================== *)
(** * Vocabulary: EventHub, createBackpressureStream (eventHub.ts) *)
(* ===================================================================== *)

Inductive DropStrategy :=
| Oldest
| Newest
| OverflowError.

(** What an Observable hands its subscriber. *)
Inductive Notification (T : Type) :=
| Next (value : T)
| Error_ (message : string)
| Complete.
Arguments Next {T} _.
Arguments Error_ {T} _.
Arguments Complete {T}.

(** One subscription to the stream [createBackpressureStream] returns:
    the shared [buffer], the calls of [processBuffer] suspended at their
    [await] (each with its [isComplete] argument, in the order their
    [setImmediate] callbacks will run), what the subscriber was handed,
    and whether the subscriber has been closed by an error or a
    completion.  [isProcessing] is never assigned, so it is not part of
    the state. *)
Record Backpressure (T : Type) := mkBackpressure {
  bp_buffer : list T;
  bp_suspended : list bool;
  bp_delivered : list (Notification T);
  bp_closed : bool
}.
Arguments mkBackpressure {T} _ _ _ _.
Arguments bp_buffer {T} _.
Arguments bp_suspended {T} _.
Arguments bp_delivered {T} _.
Arguments bp_closed {T} _.

(** rxjs [Subscriber]: a closed subscriber ignores every call; [error] and
    [complete] close it. *)
Definition hand_over {T} (n : Notification T) (s : Backpressure T)
    : Backpressure T :=
  if bp_closed s then s
  else mkBackpressure (bp_buffer s) (bp_suspended s) (bp_delivered s ++ [n])
         (match n with Next _ => false | _ => true end).

(** [processBuffer] from its loop test to its next [await] or its end.
    [next] of an rxjs [Subscriber] does not throw into its caller, so the
    [catch] branch is not entered. *)
Definition processBuffer {T} (isComplete : bool) (s : Backpressure T)
    : Backpressure T :=
  match bp_buffer s with
  | item :: rest =>
      let s := mkBackpressure rest (bp_suspended s) (bp_delivered s)
                              (bp_closed s) in
      let s := hand_over (Next item) s in
      mkBackpressure (bp_buffer s) (bp_suspended s ++ [isComplete])
                     (bp_delivered s) (bp_closed s)
  | [] => if isComplete then hand_over Complete s else s
  end.

(** The [next] handler of the subscription to the source. *)
Definition source_next {T} (bufferSize : nat) (dropStrategy : DropStrategy)
    (value : T) (s : Backpressure T) : Backpressure T :=
  let push s :=
    processBuffer false
      (mkBackpressure (bp_buffer s ++ [value]) (bp_suspended s)
                      (bp_delivered s) (bp_closed s)) in
  if bufferSize <=? length (bp_buffer s)
  then
    match dropStrategy with
    | Oldest =>
        push (mkBackpressure (tail (bp_buffer s)) (bp_suspended s)
                             (bp_delivered s) (bp_closed s))
    | Newest => s
    | OverflowError =>
        hand_over
          (Error_ "Buffer overflow - backpressure limit exceeded") s
    end
  else push s.

(** What happens to a subscription: the source calls one of the three
    handlers, or the [setImmediate] callback of the longest-suspended
    [processBuffer] runs. *)
Inductive Happening (T : Type) :=
| FromSource (n : Notification T)
| Immediate.
Arguments FromSource {T} _.
Arguments Immediate {T}.

Definition backpressure_step {T} (bufferSize : nat)
    (dropStrategy : DropStrategy) (s : Backpressure T) (h : Happening T)
    : Backpressure T :=
  match h with
  | FromSource (Next value) => source_next bufferSize dropStrategy value s
  | FromSource (Error_ message) => hand_over (Error_ message) s
  | FromSource Complete => processBuffer true s
  | Immediate =>
      match bp_suspended s with
      | isComplete :: rest =>
          processBuffer isComplete
            (mkBackpressure (bp_buffer s) rest (bp_delivered s) (bp_closed s))
      | [] => s
      end
  end.

Definition createBackpressureStream {T} (bufferSize : nat)
    (dropStrategy : DropStrategy) (happenings : list (Happening T))
    : Backpressure T :=
  fold_left (backpressure_step bufferSize dropStrategy) happenings
            (mkBackpressure [] [] [] false).

(** The source's notifications as they are, up to its first error or
    completion. *)
Fixpoint passed_on {T} (happenings : list (Happening T))
    : list (Notification T) :=
  match happenings with
  | [] => []
  | Immediate :: rest => passed_on rest
  | FromSource (Next value) :: rest => Next value :: passed_on rest
  | FromSource n :: _ => [n]
  end.

(** What a closed subscriber still lets through: nothing. *)
Definition let_through {T} (closed : bool) (h : Happening T)
    : list (Notification T) :=
  if closed then []
  else match h with FromSource n => [n] | Immediate => [] end.

Definition is_value {T} (n : Notification T) : bool :=
  match n with Next _ => true | _ => false end.

Definition closes {T} (h : Happening T) : bool :=
  match h with
  | FromSource (Error_ _) | FromSource Complete => true
  | _ => false
  end.

(** Between two happenings the buffer is empty, and no suspended call of
    [processBuffer] is the one the source's completion started. *)
Definition drained {T} (s : Backpressure T) : Prop :=
  bp_buffer s = [] /\ Forall (fun isComplete => isComplete = false) (bp_suspended s).

(* ===================================================================== *)
(** * Vocabulary: EventHub, select (eventHub.ts) *)
(* ===================================================================== *)

(** The hub after [select(key).subscribe(observer)] has put [observer]
    last among the observers of the key's subject. *)
Definition subscribed (key : string) (value : Value)
    (observers : list (Value -> Reaction)) (w : World) : World :=
  with_hub (fun h =>
    set_spectralState (<[key := mkSubject value observers]> (spectralState h)) h) w.

(* ===================================================================== *)
(** * Vocabulary of runs that may use up the stack *)
(* ===================================================================== *)

(** What holds of nested calls whatever the callbacks do: a call that
    returns has left the hub's frame in place, and an [emit] has announced
    its event first. *)
Definition Lawful (rec : Rec) : Prop :=
  forall c w w', rec c w = Some w' ->
    Frame unguarded w w' /\
    forall e, c = CEmit e ->
      exists l, added w w' (TNext (fst (stamp e w)) :: l).

(** Nested calls that still find room on the stack. *)
Definition Obliging (rec : Rec) : Prop :=
  forall c w, exists w', rec c w = Some w'.
(* ===================================================================== *)
(** * Example worlds *)
(* ===================================================================== *)

Module Examples.

(** A printer standing in for [JSON.stringify]: it tells apart the values
    the examples use. *)
Fixpoint print (v : Value) : string :=
  match v with
  | VUndefined => "undefined"
  | VNull => "null"
  | VBool true => "true"
  | VBool false => "false"
  | VNum _ => "0"
  | VStr s => "'" +:+ s +:+ "'"
  | VArr items =>
      "[" +:+ (fix each (l : list Value) : string :=
                 match l with
                 | [] => "]"
                 | x :: rest => print x +:+ "," +:+ each rest
                 end) items
  | VObj fields =>
      "{" +:+ (fix each (l : list (string * Value)) : string :=
                 match l with
                 | [] => "}"
                 | (k, x) :: rest => k +:+ ":" +:+ print x +:+ "," +:+ each rest
                 end) fields
  end.

(** The UTF-16 code units of a text of ASCII characters. *)
Definition code_units (s : string) : list Z :=
  map (fun c => Z.of_nat (nat_of_ascii c)) (list_ascii_of_string s).

(** A host whose generator always draws 0.99 (so no event is haunted)
    and that has no modules and no manifest. *)
Definition plain_host : Host :=
  mkHost (fun v => code_units (print v)) (fun _ => (99 # 100)%Q) 1700000000000%Z (fun _ => "k3y")
         (fun message => "Error: " +:+ message)
         (fun path => ImportFails ("Cannot find module '" +:+ path +:+ "'"))
         (fun path => ReadFails ("ENOENT: no such file, open '" +:+ path +:+ "'")).

(** [new EventHub()] and [new PluginLoader()] on a host. *)
Definition fresh (h : Host) : World :=
  mkWorld h 0 (mkHub [] 0 ∅ ∅ ∅ ∅ 0 0%Q 0%Z) (mkLoader 0 ∅ ∅)
          [JsMap.empty] [] [].

Definition message (type src : string) : SpectralEvent :=
  mkEvent type 1%Z src (VStr "boo") None.

Definition bare_manifest : PluginManifest := mkManifest [] "1.0.0" VUndefined.

(** A plugin in the manner of [plugins/echo.ts]: it answers a
    [user_message] with one [spectral_echo] of its own, after making the
    calls [extra]; other events it lets pass. *)
Definition echo (id : string) (extra : list Call) : Plugin :=
  mkPlugin id bare_manifest silent
    (fun e =>
       if String.eqb (ev_type e) "user_message"
       then mkRun extra
              (ProcessReturns
                 (mkStream [mkEvent "spectral_echo" (timestamp e) id
                              (VObj [("echo", data e)]) None]
                           Completes))
       else mkRun [] (ProcessReturns (mkStream [] Completes)))
    Returns None None.

(** Rank for the examples: a [user_message] above everything else. *)
Definition message_rank (type : string) : nat :=
  if String.eqb type "user_message" then 1 else 0.

(** The map with reference 1 holds three plugins and is routed; the
    loader's registry (reference 0) holds the same three. *)
Definition coven (first : Plugin) : JsMap.t Plugin :=
  [Some (plugin_id first, first); Some ("banshee", echo "banshee" []);
   Some ("wraith", echo "wraith" [])].

Definition routed_world (first : Plugin) : World :=
  let w := fresh plain_host in
  let w := update_map 0 (fun _ => coven first) w in
  let '(m, w) := new_map (coven first) w in
  setupPluginEventRouting m w.

(** A plugin that unloads itself while it handles an event, through the
    loader. *)
Definition leaver : Plugin := echo "poltergeist" [CTeardown "poltergeist"].

(** A plugin that, while it handles an event, deletes another plugin
    from the routed map. *)
Definition exorcist : Plugin := echo "exorcist" [CMapDelete 1 "banshee"].

(** A plugin that, while it handles an event, deletes the last plugin
    from the routed map. *)
Definition usurper : Plugin := echo "usurper" [CMapDelete 1 "wraith"].

(** A hub with two observers that only listen, and one observer of the
    key [mood]. *)
Definition listener : Observer := Callback (fun _ => silent).

Definition seance : World :=
  let w := fresh plain_host in
  let w := snd (subscribe listener w) in
  let w := snd (subscribe listener w) in
  default w (select (run_call 0) "mood" (fun _ => silent) w).

(** A plugin whose teardown hook throws, loaded and active. *)
Definition clinging : Plugin :=
  mkPlugin "revenant" bare_manifest silent
           (fun _ => mkRun [] (ProcessReturns (mkStream [] Completes)))
           (Throws "will not leave") None None.

Definition haunted_house : World :=
  let w := fresh plain_host in
  let w := update_map 0 (JsMap.set "revenant" clinging) w in
  let w := setPluginState "revenant" ACTIVE w in
  with_loader (fun l => set_retryAttempts (<["revenant" := 2]> (retryAttempts l)) l) w.

(** An observer that throws when it is handed a [knock]. *)
Definition startled : Observer :=
  Callback (fun e =>
    if String.eqb (ev_type e) "knock"
    then mkReaction [] (Throws "who is there")
    else silent).

(** An observer that throws whatever it is handed. *)
Definition relentless : Observer :=
  Callback (fun _ => mkReaction [] (Throws "boom")).

Definition rapping : World :=
  snd (subscribe listener (snd (subscribe startled (fresh plain_host)))).

Definition tormented : World :=
  snd (subscribe listener (snd (subscribe relentless (fresh plain_host)))).

(** Two sources of a fused stream: the first errors at 50 ms, the second
    goes on. *)
Definition duet : list Timed :=
  [mkTimed 0 (SNext 0 (VStr "1")); mkTimed 1 (SNext 0 (VStr "2"));
   mkTimed 2 (SNext 1 (VStr "x")); mkTimed 50 (SError 0 "source lost");
   mkTimed 60 (SNext 1 (VStr "y")); mkTimed 61 (SNext 0 (VStr "3"))].

Definition after_the_error : list Timed :=
  [mkTimed 60 (SNext 1 (VStr "y")); mkTimed 61 (SNext 0 (VStr "3"))].

Definition two_sources : Fusion :=
  mkFusion [None; None] [false; false] None None true [].

(** A source that errors on every subscription, [when] after the
    subscription is made. *)
Definition failing (when : Timing) : nat -> SourceRun nat :=
  fun _ => mkSourceRun when [] (SourceErrors "connection lost").

Definition once : nat -> Transformed nat :=
  fun n => TransformReturns (mkStream [n] Completes).

Fixpoint crashes (l : list Trace) : nat :=
  match l with
  | [] => 0
  | TNext e :: rest =>
      if String.eqb (ev_type e) "ghostly_crash"
      then S (crashes rest) else crashes rest
  | _ :: rest => crashes rest
  end.

(** A consumer takes one event from a [spectralIterator] capped at one
    event: it asks, the event arrives, the generator resumes and yields
    it, and the next [next()] finds the iterator complete and runs the
    [finally] block. *)
Definition vigil_open : nat * World :=
  spectralIterator None (Some 1) (fresh plain_host).

Definition vigil_waiting : World := snd (iterator_next 0 (snd vigil_open)).

Definition vigil_closed : World :=
  match emit (run_call 0) (message "knock" "client") vigil_waiting with
  | Some w => snd (iterator_next 0 (snd (iterator_resume 0 w)))
  | None => vigil_waiting
  end.

(** An installation of three plugins: [banshee] is exported under its
    class name, [ghoul]'s constructor throws, and [wraith] is its module's
    default export and opts into haunting. *)
Definition tenant (id : string) (own : PluginManifest)
    (haunting : option Processed) : Construction :=
  Constructs
    (mkRaw (Some id) (Some own) (Some silent)
           (Some (fun _ => mkRun [] (ProcessReturns (mkStream [] Completes))))
           (Some Returns) haunting None).

Definition banshee_config : PluginConfig :=
  mkConfig "banshee" "./plugins/banshee" "Banshee" None.
Definition ghoul_config : PluginConfig :=
  mkConfig "ghoul" "./plugins/ghoul" "Ghoul" None.
Definition wraith_config : PluginConfig :=
  mkConfig "wraith" "./plugins/wraith" "Wraith" (Some (1 # 2)%Q).

Definition manor_host : Host :=
  mkHost (fun v => code_units (print v)) (fun _ => (1 # 4)%Q) 1700000000000 (fun _ => "k3y")
    (fun message => "Error: " +:+ message)
    (fun path =>
       if String.eqb path "./plugins/banshee"
       then Imports (mkModule [("Banshee", tenant "banshee" bare_manifest None)]
                              None)
       else if String.eqb path "./plugins/ghoul"
       then Imports (mkModule
                       [("Ghoul", ConstructorThrows "the grave is empty")]
                       None)
       else if String.eqb path "./plugins/wraith"
       then Imports (mkModule []
              (Some (tenant "wraith"
                       (mkManifest [wraith_config] "1.0.0" VUndefined)
                       (Some (ProcessReturns
                          (mkStream [message "cold_spot" "wraith"]
                                    StaysOpen))))))
       else ImportFails ("Cannot find module '" +:+ path +:+ "'"))
    (fun path =>
       if String.eqb path "coven.yaml"
       then Parsed (mkRawManifest
                      (Some [banshee_config; ghoul_config; wraith_config])
                      "1.0.0" (VStr "moderate"))
       else ReadFails ("ENOENT: no such file, open '" +:+ path +:+ "'")).

Definition manor : World := snd (subscribe listener (fresh manor_host)).

(** The loader's registry and the map [loadAllPlugins] creates in [manor]. *)
Definition manor_maps : Guard := mkGuard (fun m => m <= 1) (fun _ => False).

(** The installation of [manor_host] after [ghoul]'s module was repaired. *)
Definition restored_host : Host :=
  mkHost (JSON_stringify manor_host) (Math_random manor_host)
    (Date_now manor_host) (base36 manor_host) (error_stack manor_host)
    (fun path =>
       if String.eqb path "./plugins/ghoul"
       then Imports (mkModule [("Ghoul", tenant "ghoul" bare_manifest None)]
                              None)
       else import_ manor_host path)
    (readManifest manor_host).

(** A plugin that loads and whose [init] throws. *)
Definition stillborn : Construction :=
  Constructs
    (mkRaw (Some "lich") (Some bare_manifest)
           (Some (mkReaction [] (Throws "the phylactery is broken")))
           (Some (fun _ => mkRun [] (ProcessReturns (mkStream [] Completes))))
           (Some Returns) None None).

Definition lich_config : PluginConfig :=
  mkConfig "lich" "./plugins/lich" "Lich" None.

(** [manor_host] with the module of [lich] installed and listed last. *)
Definition crypt_host : Host :=
  mkHost (JSON_stringify manor_host) (Math_random manor_host)
    (Date_now manor_host) (base36 manor_host) (error_stack manor_host)
    (fun path =>
       if String.eqb path "./plugins/lich"
       then Imports (mkModule [("Lich", stillborn)] None)
       else import_ manor_host path)
    (fun path =>
       if String.eqb path "coven.yaml"
       then Parsed (mkRawManifest
                      (Some [banshee_config; ghoul_config; wraith_config;
                             lich_config])
                      "1.0.0" (VStr "moderate"))
       else readManifest manor_host path).

Definition crypt : World := snd (subscribe listener (fresh crypt_host)).

Definition knock_rank (type : string) : nat :=
  if String.eqb type "knock" then 1 else 0.

(** A plugin whose stream errors when it is handed a [user_message]. *)
Definition stutterer : Plugin :=
  mkPlugin "stutterer" bare_manifest silent
    (fun e =>
       if String.eqb (ev_type e) "user_message"
       then mkRun [] (ProcessReturns
                        (mkStream [] (ErrorsWith "lost its voice")))
       else mkRun [] (ProcessReturns (mkStream [] Completes)))
    Returns None None.

(** Two sources whose second value repeats the first combination. *)
Definition refrain : list Timed :=
  [mkTimed 0 (SNext 0 (VStr "a")); mkTimed 1 (SNext 1 (VStr "x"));
   mkTimed 30 (SNext 0 (VStr "a")); mkTimed 60 (SNext 1 (VStr "y"))].

(** A source of three numbers, and a transform that throws at 2. *)
Definition counting : nat -> SourceRun nat :=
  fun _ => mkSourceRun Synchronously [1; 2; 3] SourceCompletes.

Definition superstitious (n : nat) : Transformed nat :=
  if Nat.eqb n 2 then TransformThrows "an ill omen"
  else TransformReturns (mkStream [n * 10] Completes).

(** An iterator of at most two events whose consumer waits for the first:
    two knocks in a row reach it before the generator resumes. *)
Definition vigil_of_two : World :=
  let w := snd (spectralIterator None (Some 2) (fresh plain_host)) in
  let w := snd (iterator_next 0 w) in
  default w (emit (run_call 0) (message "knock" "client") w).

(** The seance after the mood has been told. *)
Definition told : World :=
  default seance (setState (run_call 1) "mood" (VStr "eerie") seance).

End Examples.

Import Examples.
(* ===================================================================== *)
(** * Lemmas: what every run leaves in place *)
(* ===================================================================== *)

(** Membership in a list that is written out. *)
Ltac in_list H :=
  repeat (apply elem_of_cons in H as [H | H]);
  [.. | by apply elem_of_nil in H].

Lemma Honest_nil : Honest [].
Proof. intros id e H. inversion H. Qed.

Lemma Honest_app l1 l2 : Honest l1 -> Honest l2 -> Honest (l1 ++ l2).
Proof.
  intros H1 H2 id e Hin. apply elem_of_app in Hin as [Hin | Hin]; eauto.
Qed.

Lemma Honest_single t :
  (forall id e, t = TProcess id e -> source e <> id) -> Honest [t].
Proof.
  intros H id e Hin. apply list_elem_of_singleton in Hin. eauto.
Qed.

Lemma shrinks_refl a : shrinks a a.
Proof. apply Forall2_same_length_lookup_2; [done |]. intros i x y ? ?. left. congruence. Qed.

Lemma shrinks_trans a b c : shrinks a b -> shrinks b c -> shrinks a c.
Proof.
  unfold shrinks. intros Hab. revert c.
  induction Hab as [| x y a b Hxy Hab IH]; intros c Hbc; inversion Hbc; subst.
  - constructor.
  - constructor; [| auto]. destruct Hxy, H1; subst; auto.
Qed.

Lemma maps_shrink_refl (ms : list (JsMap.t Plugin)) : Forall2 shrinks ms ms.
Proof. induction ms; constructor; auto using shrinks_refl. Qed.

Lemma maps_shrink_trans (a b c : list (JsMap.t Plugin)) :
  Forall2 shrinks a b -> Forall2 shrinks b c -> Forall2 shrinks a c.
Proof.
  intros Hab. revert c.
  induction Hab; intros c Hbc; inversion Hbc; subst; constructor;
    eauto using shrinks_trans.
Qed.

Lemma keeps_observers_refl s : keeps_observers s s.
Proof.
  intros key. destruct (s !! key) as [[v obs] |] eqn:E; [| by left].
  exists v. done.
Qed.

Lemma keeps_observers_trans s1 s2 s3 :
  keeps_observers s1 s2 -> keeps_observers s2 s3 -> keeps_observers s1 s3.
Proof.
  intros H12 H23 key. specialize (H12 key). specialize (H23 key).
  destruct (s1 !! key) as [b1 |].
  - destruct H12 as [v E]. rewrite E in H23. exact H23.
  - destruct H12 as [E | [v E]]; rewrite E in H23; [exact H23 |].
    right. exact H23.
Qed.

Section frame.
Context (G : Guard).

Lemma Frame_refl w : Frame G w w.
Proof.
  split; auto using maps_shrink_refl, keeps_observers_refl.
  exists []. split; [unfold added; by rewrite app_nil_r | apply Honest_nil].
Qed.

Lemma Frame_trans w1 w2 w3 : Frame G w1 w2 -> Frame G w2 w3 -> Frame G w1 w3.
Proof.
  intros [h1 o1 r1 d1 c1 m1 p1 k1 q1 (l1 & a1 & t1)]
         [h2 o2 r2 d2 c2 m2 p2 k2 q2 (l2 & a2 & t2)].
  split; try congruence; eauto using maps_shrink_trans, keeps_observers_trans.
  - intros Hreg. rewrite d2, d1; [done | done | by rewrite r1].
  - intros m Hm. rewrite p2, p1; auto.
  - intros key Hkey. rewrite q2, q1; auto.
  - exists (l1 ++ l2). split; [| by apply Honest_app].
    unfold added in *. rewrite a2, a1. by rewrite app_assoc.
Qed.

(** A step that touches only counters, levels, the stream statistics or
    the iterators. *)
Lemma Frame_quiet w w' :
  host w' = host w -> observers (hub w') = observers (hub w) ->
  loader w' = loader w ->
  cursedKeys (hub w') = cursedKeys (hub w) ->
  maps w' = maps w -> spectralState (hub w') = spectralState (hub w) ->
  trace w' = trace w -> Frame G w w'.
Proof.
  intros Hh Ho Hr Hc Hm Hs Ht. split; auto.
  - by rewrite Hr.
  - rewrite Hm. apply maps_shrink_refl.
  - intros m _. unfold map_at. by rewrite Hm.
  - rewrite Hs. apply keeps_observers_refl.
  - intros key _. unfold getState. by rewrite Hs.
  - exists []. split; [unfold added; by rewrite Ht, app_nil_r | apply Honest_nil].
Qed.

Lemma Frame_record t w :
  (forall id e, t = TProcess id e -> source e <> id) ->
  Frame G w (record t w).
Proof.
  intros H. split; auto using maps_shrink_refl, keeps_observers_refl.
  exists [t]. split; [done | by apply Honest_single].
Qed.

Lemma Frame_random w : Frame G w (snd (random w)).
Proof. by apply Frame_quiet. Qed.

Lemma Frame_increaseHauntLevel w : Frame G w (increaseHauntLevel w).
Proof. by apply Frame_quiet. Qed.

Lemma Frame_stamp e w : Frame G w (snd (stamp e w)).
Proof.
  unfold stamp. cbn. destruct (qlt _ _); by apply Frame_quiet.
Qed.

Lemma Frame_update_iterator i f w : Frame G w (update_iterator i f w).
Proof. by apply Frame_quiet. Qed.

Lemma Frame_updateStreamState key v n w : Frame G w (updateStreamState key v n w).
Proof. by apply Frame_quiet. Qed.

Lemma Frame_incrementSubscriberCount key w :
  Frame G w (incrementSubscriberCount key w).
Proof.
  apply Frame_quiet; try done; unfold incrementSubscriberCount; cbn;
    by destruct (streamStates (hub w) !! key).
Qed.
End frame.
Lemma delete_shrinks k (m : JsMap.t Plugin) : shrinks m (JsMap.delete k m).
Proof.
  unfold shrinks.
  induction m as [| [[k' v] |] m IH]; cbn.
  - constructor.
  - destruct (String.eqb k k'); constructor; auto.
  - constructor; auto.
Qed.

Lemma shrinks_entries a b x : shrinks a b -> x ∈ JsMap.entries b -> x ∈ JsMap.entries a.
Proof.
  induction 1 as [| s s' a b [-> | ->] _ IH]; cbn; [done | |].
  - destruct s as [kv |]; [| done].
    intros Hin. apply elem_of_cons in Hin as [-> | Hin]; [left | right; auto].
  - intros Hin. destruct s; [right |]; auto.
Qed.

Lemma entries_slot {V} (m : JsMap.t V) pos kv :
  JsMap.slot pos m = Some (Some kv) -> kv ∈ JsMap.entries m.
Proof.
  unfold JsMap.slot. revert pos.
  induction m as [| [x |] m IH]; intros [| pos]; cbn; try done.
  - intros [= ->]. left.
  - intros H. right. eauto.
  - eauto.
Qed.

Lemma slot_entries {V} (m : JsMap.t V) kv :
  kv ∈ JsMap.entries m -> exists pos, JsMap.slot pos m = Some (Some kv).
Proof.
  induction m as [| [x |] m IH]; cbn; [by intros ?%elem_of_nil | |].
  - intros [-> | Hin]%elem_of_cons; [by exists 0 |].
    destruct (IH Hin) as [pos Hpos]. by exists (S pos).
  - intros Hin. destruct (IH Hin) as [pos Hpos]. by exists (S pos).
Qed.

Lemma slot_length {V} (m : JsMap.t V) pos s :
  JsMap.slot pos m = Some s -> pos < length m.
Proof. unfold JsMap.slot. intros H. apply nth_error_Some. congruence. Qed.

Lemma maps_shrink_map_at w w' m :
  Forall2 shrinks (maps w) (maps w') -> shrinks (map_at m w) (map_at m w').
Proof.
  intros H. unfold map_at.
  destruct (maps w !! m) as [a |] eqn:Ea.
  - destruct (Forall2_lookup_l _ _ _ _ _ H Ea) as (b & -> & Hab). exact Hab.
  - assert (maps w' !! m = None) as ->; [| constructor].
    apply lookup_ge_None. apply lookup_ge_None in Ea.
    by rewrite <- (Forall2_length _ _ _ H).
Qed.

Section frame.
Context (G : Guard).

Lemma Frame_map_at w w' m : Frame G w w' -> shrinks (map_at m w) (map_at m w').
Proof. intros F. apply maps_shrink_map_at, (frame_maps _ _ _ F). Qed.

Lemma Frame_delete m k w :
  ~ kept_map G m -> Frame G w (update_map m (JsMap.delete k) w).
Proof.
  intros Hm. split; cbn; auto using keeps_observers_refl.
  - destruct (maps w !! m) as [a |] eqn:Ea.
    + apply Forall2_same_length_lookup_2; [by rewrite length_insert |].
      intros i x y Hx Hy. destruct (decide (i = m)) as [-> | Hne].
      * rewrite list_lookup_insert_eq in Hy by (by eapply lookup_lt_Some).
        injection Hy as <-. unfold map_at. rewrite Hx. cbn. apply delete_shrinks.
      * rewrite list_lookup_insert_ne in Hy by done.
        assert (x = y) as -> by congruence. apply shrinks_refl.
    + rewrite list_insert_ge by (by apply lookup_ge_None). apply maps_shrink_refl.
  - intros m' Hm'. unfold map_at at 1. cbn.
    rewrite list_lookup_insert_ne; [done |]. intros ->. contradiction.
  - exists []. split; [unfold added; cbn; by rewrite app_nil_r | apply Honest_nil].
Qed.

Lemma Frame_setPluginState id s w :
  ~ kept_map G (loadedPlugins (loader w)) -> Frame G w (setPluginState id s w).
Proof.
  intros Hreg. split; cbn; auto using maps_shrink_refl, keeps_observers_refl.
  - done.
  - exists []. split; [unfold added; cbn; by rewrite app_nil_r | apply Honest_nil].
Qed.

Lemma Frame_teardownPlugin id w :
  ~ kept_map G (loadedPlugins (loader w)) -> Frame G w (snd (teardownPlugin id w)).
Proof.
  intros Hreg. unfold teardownPlugin.
  destruct (JsMap.get id (registry w)); [| apply Frame_refl].
  destruct (teardown p); cbn [snd]; [| by apply Frame_setPluginState].
  eapply Frame_trans; [by apply Frame_setPluginState |].
  eapply Frame_trans; [apply Frame_delete; exact Hreg |].
  split; cbn; auto using maps_shrink_refl, keeps_observers_refl.
  - done.
  - exists []. split; [unfold added; cbn; by rewrite app_nil_r | apply Honest_nil].
Qed.

(** The two writes of [setState] to the keyed store. *)
Lemma Frame_new_key key v w :
  spectralState (hub w) !! key = None -> ~ kept_key G key ->
  Frame G w (with_hub (fun h =>
    set_spectralState (<[key := mkSubject v []]> (spectralState h)) h) w).
Proof.
  intros Hk HG. split; cbn; auto using maps_shrink_refl.
  - intros key'. destruct (decide (key = key')) as [<- | Hne].
    + rewrite Hk, lookup_insert_eq. right. by exists v.
    + rewrite lookup_insert_ne by done.
      destruct (spectralState (hub w) !! key') as [[v' o] |]; [by exists v' | by left].
  - intros key' Hkey'. unfold getState. cbn.
    rewrite lookup_insert_ne; [done |]. by intros ->.
  - exists []. split; [unfold added; cbn; by rewrite app_nil_r | apply Honest_nil].
Qed.

Lemma Frame_update_key key v subject w :
  spectralState (hub w) !! key = Some subject -> ~ kept_key G key ->
  Frame G w (with_hub (fun h =>
    set_spectralState
      (<[key := mkSubject v (bs_observers subject)]> (spectralState h)) h) w).
Proof.
  intros Hk HG. split; cbn; auto using maps_shrink_refl.
  - intros key'. destruct (decide (key = key')) as [<- | Hne].
    + rewrite Hk, lookup_insert_eq. by exists v.
    + rewrite lookup_insert_ne by done.
      destruct (spectralState (hub w) !! key') as [[v' o] |]; [by exists v' | by left].
  - intros key' Hkey'. unfold getState. cbn.
    rewrite lookup_insert_ne; [done |]. by intros ->.
  - exists []. split; [unfold added; cbn; by rewrite app_nil_r | apply Honest_nil].
Qed.

Lemma Frame_disturbance streamId t w :
  Frame G w (with_hub (fun h =>
    set_hauntedStreams ({[streamId]} ∪ hauntedStreams h)
      (set_lastDisturbance t h)) w).
Proof. by apply Frame_quiet. Qed.

Lemma Frame_crash q t w :
  Frame G w (with_hub (fun h => set_hauntLevel q (set_lastDisturbance t h)) w).
Proof. by apply Frame_quiet. Qed.

Context (rk : string -> nat).

Lemma Ranked_Frame w w' : Ranked rk G w -> Frame G w w' -> Ranked rk G w'.
Proof.
  intros [Hc Hp Hk] F. pose proof F as [Hh Ho Hr Hl Hcu Hm Hpr Hks Hkk Ht].
  split.
  - intros i react e. rewrite Ho, Hr. apply Hc.
  - intros i m id plugin e. rewrite Ho, Hr. intros Hin Hent.
    apply (Hp i m id plugin e Hin).
    eapply shrinks_entries; [| exact Hent]. by apply maps_shrink_map_at.
  - intros key subject observer v Hlook Hin. rewrite Hr.
    specialize (Hks key). destruct (spectralState (hub w) !! key) as [s0 |] eqn:E.
    + destruct Hks as [v' Hv']. rewrite Hv' in Hlook. injection Hlook as <-.
      by apply (Hk key s0 observer v).
    + destruct Hks as [Hn | [v' Hv']]; rewrite Hlook in *; [done |].
      injection Hv' as ->. by apply elem_of_nil in Hin.
Qed.

Lemma Answers_mono bound bound' rec :
  bound' <= bound -> Answers rk G bound rec -> Answers rk G bound' rec.
Proof. intros Hle H c w Hw Hc. apply H; [done | lia]. Qed.

End frame.
Lemma stamp_type e w : ev_type (fst (stamp e w)) = ev_type e.
Proof. unfold stamp. cbn. by destruct (qlt _ _). Qed.

Lemma stamp_trace e w : trace (snd (stamp e w)) = trace w.
Proof. unfold stamp. cbn. by destruct (qlt _ _). Qed.

Lemma stamp_same_message e w : same_message e (fst (stamp e w)).
Proof. unfold stamp, same_message. cbn. by destruct (qlt _ _). Qed.

Lemma stamp_routing e w m :
  metadata e = Some m ->
  exists m', metadata (fst (stamp e w)) = Some m' /\
    processed_by m' = processed_by m /\ original_source m' = original_source m.
Proof.
  intros Hm. unfold stamp. cbn. rewrite Hm. cbn.
  destruct (qlt _ _); cbn; eexists; (split; [reflexivity |]); by cbn.
Qed.

Section answers.
Context (rk : string -> nat) (G : Guard).

Lemma added_within w w' t l : added w w' (t :: l) -> within w w' t.
Proof. intros H. exists (t :: l). split; [done | left]. Qed.

Lemma within_Frame_l w w1 w' t :
  Frame G w w1 -> within w1 w' t -> within w w' t.
Proof.
  intros F (l & a & Hin). destruct (frame_trace _ _ _ F) as (l1 & a1 & _).
  exists (l1 ++ l). split; [| apply elem_of_app; by right].
  unfold added in *. by rewrite a, a1, app_assoc.
Qed.

Lemma within_Frame_r w w1 w' t :
  within w w1 t -> Frame G w1 w' -> within w w' t.
Proof.
  intros (l & a & Hin) F. destruct (frame_trace _ _ _ F) as (l1 & a1 & _).
  exists (l ++ l1). split; [| apply elem_of_app; by left].
  unfold added in *. by rewrite a1, a, app_assoc.
Qed.

Lemma added_Frame_r w w1 w' t l :
  added w w1 (t :: l) -> Frame G w1 w' -> exists l', added w w' (t :: l').
Proof.
  intros a F. destruct (frame_trace _ _ _ F) as (l1 & a1 & _). exists (l ++ l1).
  unfold added in *. by rewrite a1, a, <- app_assoc.
Qed.

Lemma added_record_Frame t w w' :
  Frame G (record t w) w' -> exists l, added w w' (t :: l).
Proof.
  intros F. destruct (frame_trace _ _ _ F) as (l1 & a1 & _). exists l1.
  unfold added in *. rewrite a1. cbn. by rewrite <- app_assoc.
Qed.

(** Loops whose body returns and keeps the frame. *)
Lemma for_each_spec {A} (body : A -> World -> option World)
    (Q : A -> World -> World -> Prop) (l : list A) (w0 w : World) :
  (forall a w, a ∈ l -> Ranked rk G w -> Frame G w0 w ->
     exists w', body a w = Some w' /\ Frame G w w' /\ Q a w w') ->
  Ranked rk G w -> Frame G w0 w ->
  exists w', for_each body l w = Some w' /\ Frame G w w' /\
    forall a, a ∈ l ->
      exists w1 w2, Frame G w w1 /\ Q a w1 w2 /\ Frame G w2 w'.
Proof.
  revert w. induction l as [| a l IH]; intros w Hbody Hw H0; cbn.
  - exists w. split; [done |]. split; [apply Frame_refl |].
    intros a Ha. by apply elem_of_nil in Ha.
  - destruct (Hbody a w) as (w1 & -> & F1 & Q1); [left | done | done |].
    destruct (IH w1) as (w' & -> & F' & Hall).
    + intros a' w2 Ha'. apply Hbody. by right.
    + by eapply Ranked_Frame.
    + by eapply Frame_trans.
    + exists w'. split; [done |]. split; [by eapply Frame_trans |].
      intros a' [-> | Ha']%elem_of_cons.
      * exists w, w1. split; [apply Frame_refl | done].
      * destruct (Hall a' Ha') as (w2 & w3 & F2 & Q2 & F3).
        exists w2, w3. split; [by eapply Frame_trans | done].
Qed.

Lemma tame_registry bound cs w w' :
  Frame G w w' ->
  tame rk G (loadedPlugins (loader w)) bound cs ->
  tame rk G (loadedPlugins (loader w')) bound cs.
Proof. intros F. by rewrite (frame_registry _ _ _ F). Qed.

Lemma run_calls_spec rec bound cs w :
  Answers rk G bound rec -> Ranked rk G w ->
  tame rk G (loadedPlugins (loader w)) bound cs ->
  exists w', run_calls rec cs w = (w', Returns) /\ Frame G w w'.
Proof.
  intros Hrec. revert w.
  induction cs as [| c cs IH]; intros w Hw Hcs; cbn [run_calls].
  { exists w. split; [done | apply Frame_refl]. }
  apply Forall_cons in Hcs as [[Hrank Hsp] Hcs].
  destruct (Hrec c w Hw Hrank Hsp) as (w1 & -> & F1 & _).
  destruct (IH w1) as (w' & -> & F').
  - by eapply Ranked_Frame.
  - by eapply tame_registry.
  - exists w'. split; [done | by eapply Frame_trans].
Qed.

(** The events a callback emits go out, each as stamped by the hub. *)
Lemma run_calls_emits rec bound cs w :
  Answers rk G bound rec -> Ranked rk G w ->
  tame rk G (loadedPlugins (loader w)) bound cs ->
  exists w', run_calls rec cs w = (w', Returns) /\ Frame G w w' /\
    forall e, CEmit e ∈ cs ->
      exists e', within w w' (TNext e') /\ same_message e e'.
Proof.
  intros Hrec. revert w.
  induction cs as [| c cs IH]; intros w Hw Hcs; cbn [run_calls].
  { exists w. split; [done |]. split; [apply Frame_refl |].
    intros e He. by apply elem_of_nil in He. }
  apply Forall_cons in Hcs as [[Hrank Hsp] Hcs].
  destruct (Hrec c w Hw Hrank Hsp) as (w1 & -> & F1 & Hann).
  destruct (IH w1) as (w' & -> & F' & Hall).
  - by eapply Ranked_Frame.
  - by eapply tame_registry.
  - exists w'. split; [done |]. split; [by eapply Frame_trans |].
    intros e [<- | He]%elem_of_cons.
    + destruct (Hann e eq_refl) as [l Hl].
      exists (fst (stamp e w)). split; [| apply stamp_same_message].
      eapply within_Frame_r; [by eapply added_within | done].
    + destruct (Hall e He) as (e' & He' & Hs). exists e'.
      split; [by eapply within_Frame_l | done].
Qed.

Lemma run_reaction_spec rec bound r w :
  Answers rk G bound rec -> Ranked rk G w ->
  tame rk G (loadedPlugins (loader w)) bound (calls r) ->
  exists w', run_reaction rec r w = (w', outcome r) /\ Frame G w w'.
Proof.
  intros Hrec Hw Hcs. unfold run_reaction.
  destruct (run_calls_spec rec bound (calls r) w Hrec Hw Hcs) as (w' & -> & F).
  by exists w'.
Qed.

Lemma handleSubscriberError_spec rec bound message event w :
  Answers rk G bound rec -> Ranked rk G w ->
  rk "subscriber_error" < bound ->
  exists w', handleSubscriberError rec message event w = Some w' /\
             Frame G w w'.
Proof.
  intros Hrec Hw Hb. unfold handleSubscriberError.
  destruct (Hrec (CEmit (diagnostic w "subscriber_error" "EventHub"
              (VObj [("originalEvent", event_value event);
                     ("error", VStr message)]) (flagged (1 # 2)%Q))) w)
    as (w' & E & F & _); [done | done | done |].
  by exists w'.
Qed.

Lemma route_to_spec rec id plugin event w :
  Answers rk G (rk (ev_type event)) rec -> Ranked rk G w ->
  (source event <> id ->
   tame_process rk G (loadedPlugins (loader w)) (rk (ev_type event))
                (process plugin event)) ->
  exists w', route_to rec id plugin event w = Some w' /\ Frame G w w' /\
    (source event <> id -> RoutedTo id plugin event w w').
Proof.
  intros Hrec Hw Htame. unfold route_to.
  destruct (String.eqb_spec (source event) id) as [Heq | Hne].
  { exists w. split; [done |]. split; [apply Frame_refl | done]. }
  destruct (Htame Hne) as [Hbefore Hres].
  set (w1 := record (TProcess id event) w).
  assert (F1 : Frame G w w1).
  { apply Frame_record. intros id' e' [= <- <-]. exact Hne. }
  destruct (run_calls_spec rec _ (before (process plugin event)) w1 Hrec)
    as (w2 & -> & F2); [by eapply Ranked_Frame | done |].
  assert (Hw2 : Ranked rk G w2) by (eapply Ranked_Frame; [| exact F2]; by eapply Ranked_Frame).
  assert (Hadd : exists l, added w w2 (TProcess id event :: l))
    by (by apply added_record_Frame).
  destruct (result (process plugin event)) as [msg | s] eqn:Eres.
  { exists w2. split; [done |]. split; [by eapply Frame_trans |].
    intros _. split; [done |]. intros s out H. congruence. }
  destruct Hres as [Houts Hend].
  destruct (for_each_spec
              (fun out w => Some (attempt rec (CEmit (routed id event out)) w))
              (fun out wa wb =>
                 exists l, added wa wb (TNext (fst (stamp (routed id event out) wa)) :: l))
              (emitted s) w2 w2) as (w3 & -> & F3 & Hall);
    [| done | apply Frame_refl |].
  { intros out wa Hout Hwa Fa. rewrite Forall_forall in Houts.
    destruct (Hrec (CEmit (routed id event out)) wa Hwa) as (wb & E & Fb & Hann);
      [cbn; by apply Houts | done |].
    exists wb. unfold attempt. rewrite E.
    split; [done |]. split; [done |]. by apply Hann. }
  cbn.
  assert (Hw3 : Ranked rk G w3) by (by eapply Ranked_Frame).
  assert (F03 : Frame G w w3) by (eapply Frame_trans; [| exact F3]; by eapply Frame_trans).
  assert (Hfinal : exists w',
    match ending s with
    | ErrorsWith message =>
        Some (attempt rec
                (CEmit (plugin_processing_error w3 id event message)) w3)
    | _ => Some w3
    end = Some w' /\ Frame G w3 w').
  { destruct (ending s) as [| message |] eqn:Eend;
      try (exists w3; split; [done | apply Frame_refl]).
    destruct (Hrec (CEmit (plugin_processing_error w3 id event message)) w3 Hw3)
      as (w4 & E & F4 & _); [cbn; by eapply Hend | done |].
    exists w4. unfold attempt. by rewrite E. }
  destruct Hfinal as (w4 & E4 & F4). exists w4.
  split; [exact E4 |]. split; [by eapply Frame_trans |].
  intros _. split.
  - destruct Hadd as [l Hl]. eapply added_Frame_r; [exact Hl |].
    by eapply Frame_trans.
  - intros s' out Hs' Hout. assert (s' = s) as -> by congruence.
    destruct (Hall out Hout) as (wa & wb & Fa & [l Hl] & Fb).
    exists wa. eapply within_Frame_l.
    { eapply Frame_trans; [| exact Fa]. eapply Frame_trans; [exact F1 | exact F2]. }
    eapply within_Frame_r; [eapply added_within; exact Hl |].
    eapply Frame_trans; [exact Fb | exact F4].
Qed.


Lemma slot_past_end {V} (m : JsMap.t V) pos k :
  JsMap.slot pos m = None -> pos <= k -> JsMap.slot k m = None.
Proof.
  unfold JsMap.slot. rewrite !nth_error_None. lia.
Qed.

Lemma route_from_spec rec i m event slots pos w :
  Answers rk G (rk (ev_type event)) rec -> Ranked rk G w ->
  (i, PluginRouter m) ∈ observers (hub w) ->
  exists w', route_from rec m event slots pos w = Some w' /\ Frame G w w' /\
    (kept_map G m -> forall k id plugin, pos <= k < pos + slots ->
       JsMap.slot k (map_at m w) = Some (Some (id, plugin)) ->
       source event <> id ->
       exists w1 w2, Frame G w w1 /\ RoutedTo id plugin event w1 w2 /\
                     Frame G w2 w').
Proof.
  intros Hrec. revert pos w.
  induction slots as [| slots IH]; intros pos w Hw Hin; cbn.
  { exists w. split; [done |]. split; [apply Frame_refl |]. intros; lia. }
  destruct (JsMap.slot pos (map_at m w)) as [[[id plugin] |] |] eqn:Eslot.
  - destruct (route_to_spec rec id plugin event w Hrec Hw) as (w1 & -> & F1 & R1).
    { intros Hne. eapply (ranked_plugins _ _ _ Hw); [exact Hin | | exact Hne].
      by eapply entries_slot. }
    cbn. destruct (IH (S pos) w1) as (w' & -> & F' & Hrest).
    { by eapply Ranked_Frame. }
    { by rewrite (frame_observers _ _ _ F1). }
    exists w'. split; [done |]. split; [by eapply Frame_trans |].
    intros Hm k id' plugin' Hk Hslot Hne.
    destruct (decide (k = pos)) as [-> | Hkne].
    + rewrite Eslot in Hslot. injection Hslot as <- <-.
      exists w, w1. split; [apply Frame_refl |]. split; [by apply R1 | done].
    + destruct (Hrest Hm k id' plugin') as (wa & wb & Fa & Ra & Fb);
        [lia | by rewrite (frame_kept_map _ _ _ F1) | done |].
      exists wa, wb. split; [by eapply Frame_trans | done].
  - destruct (IH (S pos) w Hw Hin) as (w' & -> & F' & Hrest).
    exists w'. split; [done |]. split; [done |].
    intros Hm k id' plugin' Hk Hslot Hne.
    destruct (decide (k = pos)) as [-> | Hkne]; [congruence |].
    apply (Hrest Hm k id' plugin'); [lia | done | done].
  - exists w. split; [done |]. split; [apply Frame_refl |].
    intros Hm k id' plugin' Hk Hslot Hne.
    rewrite (slot_past_end _ pos k) in Hslot; [done | done | lia].
Qed.

Lemma route_spec rec i m event w :
  Answers rk G (rk (ev_type event)) rec -> Ranked rk G w ->
  (i, PluginRouter m) ∈ observers (hub w) ->
  exists w', route rec m event w = Some w' /\ Frame G w w' /\
    (kept_map G m -> forall id plugin,
       (id, plugin) ∈ JsMap.entries (map_at m w) ->
       source event <> id ->
       exists w1 w2, Frame G w w1 /\ RoutedTo id plugin event w1 w2 /\
                     Frame G w2 w').
Proof.
  intros Hrec Hw Hin. unfold route.
  destruct (route_from_spec rec i m event (length (map_at m w)) 0 w Hrec Hw Hin)
    as (w' & E & F & Hall).
  exists w'. split; [done |]. split; [done |].
  intros Hm id plugin Hent Hne.
  destruct (slot_entries _ _ Hent) as [pos Hpos].
  apply (Hall Hm pos id plugin); [| done | done].
  apply slot_length in Hpos. lia.
Qed.

Lemma deliver_spec rec event sub w :
  Answers rk G (rk (ev_type event)) rec -> Ranked rk G w ->
  sub ∈ observers (hub w) ->
  exists w', deliver rec event sub w = Some w' /\ Frame G w w' /\
    exists l, added w w' (TObserved (fst sub) event :: l).
Proof.
  intros Hrec Hw Hin. unfold deliver.
  set (w1 := record (TObserved (fst sub) event) w).
  assert (F1 : Frame G w w1) by (by apply Frame_record).
  assert (Hw1 : Ranked rk G w1) by (by eapply Ranked_Frame).
  assert (Hmain : exists w',
    match snd sub with
    | Callback react =>
        let '(w0, thrown) := run_reaction rec (react event) w1 in
        match thrown with
        | Returns => Some w0
        | Throws message =>
            Some (default w0 (handleSubscriberError rec message event w0))
        end
    | PluginRouter m => route rec m event w1
    | IteratorSink i0 => Some (update_iterator i0 (iterator_observer event) w1)
    end = Some w' /\ Frame G w1 w').
  { destruct sub as [i [react | m | it]]; cbn [snd].
    - destruct (ranked_callbacks _ _ _ Hw i react event Hin) as [Hcalls Hthrow].
      destruct (run_reaction_spec rec _ (react event) w1 Hrec Hw1)
        as (w2 & -> & F2); [done |].
      destruct (outcome (react event)) as [| message] eqn:Eout.
      + by exists w2.
      + destruct (handleSubscriberError_spec rec _ message event w2 Hrec)
          as (w3 & -> & F3); [by eapply Ranked_Frame | by eapply Hthrow |].
        exists w3. split; [done | by eapply Frame_trans].
    - destruct (route_spec rec i m event w1 Hrec Hw1) as (w2 & -> & F2 & _);
        [done | by exists w2].
    - eexists. split; [done | apply Frame_update_iterator]. }
  destruct Hmain as (w' & E & F'). exists w'.
  split; [exact E |]. split; [by eapply Frame_trans |].
  by apply added_record_Frame.
Qed.

Lemma emit_spec rec event w :
  Answers rk G (rk (ev_type event)) rec -> Ranked rk G w ->
  exists w', emit rec event w = Some w' /\ Frame G w w' /\
    (exists l, added w w' (TNext (fst (stamp event w)) :: l)) /\
    forall sub, sub ∈ observers (hub w) ->
      within w w' (TObserved (fst sub) (fst (stamp event w))).
Proof.
  intros Hrec Hw. unfold emit.
  pose proof (Frame_stamp G event w) as Fs.
  pose proof (stamp_type event w) as Ety.
  pose proof (stamp_trace event w) as Etr.
  destruct (stamp event w) as [e' ws]. cbn [fst snd] in *.
  unfold Subject_next.
  set (w1 := record (TNext e') ws).
  assert (F1 : Frame G ws w1) by (by apply Frame_record).
  assert (Hw1 : Ranked rk G w1).
  { eapply Ranked_Frame; [| exact F1]. by eapply Ranked_Frame. }
  assert (Hobs : observers (hub ws) = observers (hub w))
    by apply (frame_observers _ _ _ Fs).
  destruct (for_each_spec (deliver rec e')
              (fun sub wa wb => exists l, added wa wb (TObserved (fst sub) e' :: l))
              (observers (hub ws)) w1 w1) as (w' & -> & F' & Hall);
    [| done | apply Frame_refl |].
  { intros sub wa Hsub Hwa Fa. apply deliver_spec; [by rewrite Ety | done |].
    rewrite (frame_observers _ _ _ Fa). exact Hsub. }
  exists w'. split; [done |].
  assert (F01 : Frame G w w1) by (by eapply Frame_trans).
  split; [by eapply Frame_trans |]. split.
  - destruct (added_record_Frame (TNext e') ws w' F') as [l Hl].
    exists l. unfold added in *. by rewrite <- Etr.
  - intros sub Hsub. rewrite <- Hobs in Hsub.
    destruct (Hall sub Hsub) as (wa & wb & Fa & [l Hl] & Fb).
    eapply within_Frame_l; [eapply Frame_trans; [exact F01 | exact Fa] |].
    eapply within_Frame_r; [by eapply added_within | done].
Qed.


Lemma select_next_spec rec key value observer subject w :
  Answers rk G (S (rk "state_changed")) rec -> Ranked rk G w ->
  spectralState (hub w) !! key = Some subject ->
  snd observer ∈ bs_observers subject ->
  exists w', select_next rec key value observer w = Some w' /\ Frame G w w' /\
    (is_undefined value = false -> key ∉ cursedKeys (hub w) ->
     exists l, added w w' (TKeyObserved key (fst observer) value :: l)).
Proof.
  intros Hrec Hw Hkey Hin. unfold select_next.
  destruct (is_undefined value).
  { exists w. split; [done |]. split; [apply Frame_refl | done]. }
  set (w1 := incrementSubscriberCount key w).
  assert (F1 : Frame G w w1) by apply Frame_incrementSubscriberCount.
  assert (Hc1 : cursedKeys (hub w1) = cursedKeys (hub w))
    by apply (frame_cursed _ _ _ F1).
  rewrite Hc1. case_bool_decide as Hcursed.
  { eexists. split; [done |]. split; [| done].
    eapply Frame_trans; [exact F1 |].
    eapply Frame_trans; [apply Frame_random | by apply Frame_record]. }
  set (w2 := record (TKeyObserved key (fst observer) value) w1).
  assert (F2 : Frame G w1 w2) by (by apply Frame_record).
  assert (F02 : Frame G w w2) by (by eapply Frame_trans).
  destruct (run_reaction_spec rec _ (snd observer value) w2 Hrec)
    as (w3 & -> & F3).
  { by eapply Ranked_Frame. }
  { rewrite (frame_registry _ _ _ F02).
    by eapply (ranked_keys _ _ _ Hw key subject (snd observer) value). }
  exists w3. split; [done |]. split; [by eapply Frame_trans |].
  intros _ _.
  destruct (added_record_Frame (TKeyObserved key (fst observer) value) w1 w3 F3)
    as [l Hl].
  exists l. unfold added in *. rewrite Hl. unfold w1, incrementSubscriberCount.
  cbn. done.
Qed.

Lemma getState_written key value w : getState key (written key value w) = value.
Proof. unfold getState, written. cbn. by rewrite lookup_insert_eq. Qed.

Lemma Frame_written key value w :
  ~ kept_key G key -> Frame G w (written key value w).
Proof.
  intros HG. unfold written.
  destruct (spectralState (hub w) !! key) as [subject |] eqn:E.
  - pose proof (Frame_update_key G key value subject w E HG) as F.
    unfold with_hub in *. cbn in *. by rewrite E.
  - pose proof (Frame_new_key G key value w E HG) as F.
    unfold with_hub in *. cbn in *. by rewrite E.
Qed.

Lemma Ranked_written key value w :
  Ranked rk G w -> Ranked rk G (written key value w).
Proof.
  intros [Hc Hp Hk]. split; [exact Hc | exact Hp |].
  intros key' subject observer v. cbn.
  destruct (decide (key = key')) as [<- | Hne].
  - rewrite lookup_insert_eq. intros [= <-]. cbn.
    destruct (spectralState (hub w) !! key) as [s0 |] eqn:E;
      [| by intros ?%elem_of_nil].
    intros Hin. by apply (Hk key s0 observer v).
  - rewrite lookup_insert_ne by done. apply Hk.
Qed.

Lemma within_after w w1 w' t :
  trace w1 = trace w -> within w1 w' t -> within w w' t.
Proof. intros E (l & a & Hin). exists l. unfold added in *. by rewrite <- E. Qed.

Lemma setState_spec rec key value w :
  Answers rk G (S (rk "state_changed")) rec -> Ranked rk G w ->
  exists w', setState rec key value w = Some w' /\
    Frame G (written key value w) w' /\
    (exists e, same_message (state_changed w key value) e /\
       forall sub, sub ∈ observers (hub w) -> within w w' (TObserved (fst sub) e)) /\
    (is_undefined value = false -> key ∉ cursedKeys (hub w) ->
     forall subject i, spectralState (hub w) !! key = Some subject ->
       i < length (bs_observers subject) ->
       within w w' (TKeyObserved key i value)).
Proof.
  intros Hrec Hw. unfold setState.
  set (w1 := written key value w).
  assert (Hw1 : Ranked rk G w1) by (by apply Ranked_written).
  assert (Hloop : exists w2,
    match spectralState (hub w) !! key with
    | Some subject =>
        for_each (select_next rec key value) (imap pair (bs_observers subject))
          (with_hub (fun h =>
             set_spectralState
               (<[key := mkSubject value (bs_observers subject)]>
                  (spectralState h)) h) w)
    | None =>
        Some (with_hub (fun h =>
                set_spectralState
                  (<[key := mkSubject value []]> (spectralState h)) h) w)
    end = Some w2 /\ Frame G w1 w2 /\
    (is_undefined value = false -> key ∉ cursedKeys (hub w) ->
     forall subject i, spectralState (hub w) !! key = Some subject ->
       i < length (bs_observers subject) ->
       within w1 w2 (TKeyObserved key i value))).
  { destruct (spectralState (hub w) !! key) as [subject |] eqn:E.
    - assert (Ew : with_hub (fun h =>
             set_spectralState
               (<[key := mkSubject value (bs_observers subject)]>
                  (spectralState h)) h) w = w1).
      { unfold w1, written, with_hub. cbn. by rewrite E. }
      rewrite Ew.
      destruct (for_each_spec (select_next rec key value)
        (fun o wa wb => is_undefined value = false ->
           key ∉ cursedKeys (hub w) ->
           exists l, added wa wb (TKeyObserved key (fst o) value :: l))
        (imap pair (bs_observers subject)) w1 w1) as (w2 & -> & F2 & Hall);
        [| done | apply Frame_refl |].
      { intros [i observer] wa Hobs Hwa Fa.
        apply elem_of_lookup_imap in Hobs as (i' & o' & [= -> ->] & Hlook).
        pose proof (frame_keys _ _ _ Fa key) as Hk.
        assert (E1 : spectralState (hub w1) !! key
                     = Some (mkSubject value (bs_observers subject))).
        { unfold w1, written. cbn. by rewrite lookup_insert_eq, E. }
        rewrite E1 in Hk. destruct Hk as [v Hv]. cbn in Hv.
        destruct (select_next_spec rec key value (i', o') _ wa Hrec Hwa Hv)
          as (wb & Eb & Fb & Hb); [by eapply list_elem_of_lookup_2 |].
        exists wb. split; [done |]. split; [done |].
        intros Hu Hc. apply Hb; [done |].
        rewrite (frame_cursed _ _ _ Fa). unfold w1, written. by cbn. }
      exists w2. split; [done |]. split; [done |].
      intros Hu Hc subject' i [= <-] Hi.
      destruct (lookup_lt_is_Some_2 _ _ Hi) as [o Ho].
      destruct (Hall (i, o)) as (wa & wb & Fa & Ha & Fb).
      { apply elem_of_lookup_imap. by exists i, o. }
      destruct (Ha Hu Hc) as [l Hl].
      eapply within_Frame_l; [exact Fa |].
      eapply within_Frame_r; [by eapply added_within | done].
    - exists w1. split; [| split; [apply Frame_refl | by intros]].
      f_equal. unfold w1, written, with_hub. cbn. by rewrite E. }
  destruct Hloop as (w2 & -> & F2 & Hkeys). cbn.
  set (w3 := updateStreamState key value (getSubscriberCount key w2) w2).
  assert (F3 : Frame G w2 w3) by apply Frame_updateStreamState.
  assert (F13 : Frame G w1 w3) by (by eapply Frame_trans).
  assert (Hw3 : Ranked rk G w3) by (by eapply Ranked_Frame).
  destruct (emit_spec rec (state_changed w3 key value) w3)
    as (w' & -> & F' & _ & Hobs); [| done |].
  { eapply Answers_mono; [| exact Hrec]. cbn. lia. }
  exists w'. split; [done |]. split; [by eapply Frame_trans |]. split.
  - exists (fst (stamp (state_changed w3 key value) w3)). split.
    + pose proof (stamp_same_message (state_changed w3 key value) w3)
        as (H1 & H2 & H3 & H4).
      unfold same_message. rewrite <- H1, <- H2, <- H3, <- H4. cbn.
      by rewrite (frame_host _ _ _ F2).
    + intros sub Hsub. apply (within_after w w1); [done |].
      eapply within_Frame_l; [exact F13 |]. apply Hobs.
      rewrite (frame_observers _ _ _ F13). by unfold w1, written.
  - intros Hu Hc subject i Hsub Hi. apply (within_after w w1); [done |].
    eapply within_Frame_r; [by eapply Hkeys |]. by eapply Frame_trans.
Qed.

(** Every call is answered within a depth above its rank. *)
Lemma run_call_spec depth : Answers rk G depth (run_call depth).
Proof.
  induction depth as [| depth IH]; intros c w Hw Hrank Hsp; [lia |].
  destruct c as [e | key value | m key | id]; cbn in *.
  - destruct (emit_spec (run_call depth) e w) as (w' & E & F & Hann & _);
      [eapply Answers_mono; [| exact IH]; lia | done |].
    exists w'. split; [done |]. split; [done |]. by intros e' [= <-].
  - destruct (setState_spec (run_call depth) key value w)
      as (w' & E & F & _); [eapply Answers_mono; [| exact IH]; lia | done |].
    exists w'. split; [done |]. split; [| done].
    eapply Frame_trans; [by apply Frame_written | done].
  - eexists. split; [done |]. split; [by apply Frame_delete | done].
  - eexists. split; [done |]. split; [by apply Frame_teardownPlugin | done].
Qed.

End answers.

(* ===================================================================== *)
(** * Routing (C3, C7) *)
(* ===================================================================== *)

Lemma added_unique w w' l l' : added w w' l -> added w w' l' -> l = l'.
Proof. unfold added. intros -> H. by apply app_inv_head in H. Qed.

Lemma within_added w w' l t : added w w' l -> within w w' t -> t ∈ l.
Proof. intros Hl (l' & Hl' & Hin). by rewrite (added_unique _ _ _ _ Hl Hl'). Qed.

Lemma routed_metadata id event out w0 :
  let e := fst (stamp (routed id event out) w0) in
  same_message out e /\
  exists md, metadata e = Some md /\ processed_by md = Some id /\
             original_source md = Some (source event).
Proof.
  cbn zeta. split.
  - destruct (stamp_same_message (routed id event out) w0) as (H1 & H2 & H3 & H4).
    unfold same_message. by rewrite <- H1, <- H2, <- H3, <- H4.
  - destruct (stamp_routing (routed id event out) w0 _ eq_refl)
      as (md & Hmd & Hp & Ho).
    exists md. by rewrite Hp, Ho.
Qed.

(** C3, amended.  Routing self-exclusion ([setupPluginEventRouting],
    P6), for a routing pass during which no callback deletes from the
    routed map [m] ([kept_map G m]) and whose reactions rank below their
    cause, so that the stack is deep enough for them ([Ranked]).  For an
    event delivered to the routing subscription over the map [m] of
    loaded plugins (each stored under its id) the pass returns, the
    [process] hook of a plugin of the map is called with the event if and
    only if the event's source is not that plugin's id, and every event
    such a hook's stream delivers goes to [emit] carrying [processed_by]
    = the plugin's id and [original_source] = the incoming event's
    source. *)
Theorem routing_self_exclusion rk G depth i m event w :
  Ranked rk G w -> kept_map G m ->
  (i, PluginRouter m) ∈ observers (hub w) ->
  (forall id plugin,
     (id, plugin) ∈ JsMap.entries (map_at m w) -> plugin_id plugin = id) ->
  rk (ev_type event) <= depth ->
  exists w' l,
    route (run_call depth) m event w = Some w' /\ added w w' l /\
    (forall key plugin, (key, plugin) ∈ JsMap.entries (map_at m w) ->
       (TProcess (plugin_id plugin) event ∈ l <->
        source event <> plugin_id plugin)) /\
    (forall key plugin s out,
       (key, plugin) ∈ JsMap.entries (map_at m w) ->
       source event <> plugin_id plugin ->
       result (process plugin event) = ProcessReturns s -> out ∈ emitted s ->
       exists e md, TNext e ∈ l /\ same_message out e /\
         metadata e = Some md /\
         processed_by md = Some (plugin_id plugin) /\
         original_source md = Some (source event)).
Proof.
  intros Hw Hm Hin Hids Hdepth.
  destruct (route_spec rk G (run_call depth) i m event w) as (w' & E & F & Hall);
    [eapply Answers_mono; [exact Hdepth | apply run_call_spec] | done | done |].
  destruct (frame_trace _ _ _ F) as (l & Hl & Hhonest).
  exists w', l. split; [done |]. split; [done |]. split.
  - intros key plugin Hent. rewrite (Hids key plugin Hent). split.
    + apply Hhonest.
    + intros Hne.
      destruct (Hall Hm key plugin Hent Hne) as (w1 & w2 & F1 & [Hp _] & F2).
      destruct Hp as [l1 Hl1]. apply (within_added w w'); [done |].
      eapply within_Frame_l; [exact F1 |].
      eapply within_Frame_r; [by eapply added_within | exact F2].
  - intros key plugin s out Hent Hne Hres Hout.
    rewrite (Hids key plugin Hent) in *.
    destruct (Hall Hm key plugin Hent Hne) as (w1 & w2 & F1 & [_ Houts] & F2).
    destruct (Houts s out Hres Hout) as [w0 Hw0].
    destruct (routed_metadata key event out w0) as (Hsame & md & Hmd & Hp & Ho).
    exists (fst (stamp (routed key event out) w0)), md.
    split; [| done]. apply (within_added w w'); [done |].
    eapply within_Frame_l; [exact F1 |].
    eapply within_Frame_r; [exact Hw0 | exact F2].
Qed.

(** The example plugins rank below a [user_message]. *)
Lemma echo_tame G reg id extra e :
  Forall (fun c => call_rank message_rank c < 1 /\ spares G reg c) extra ->
  tame_process message_rank G reg (message_rank (ev_type e)) (process (echo id extra) e).
Proof.
  intros Hextra. unfold tame_process, tame.
  replace (message_rank (ev_type e))
    with (if String.eqb (ev_type e) "user_message" then 1 else 0) by done.
  cbn [process echo].
  destruct (String.eqb (ev_type e) "user_message"); cbn [before result emitted ending].
  - split; [exact Hextra |]. split; [| done].
    constructor; [cbn; lia | constructor].
  - split; [constructor |]. split; [constructor | done].
Qed.

Lemma routed_world_ranked G first :
  (forall e,
     tame_process message_rank G 0 (message_rank (ev_type e)) (process first e)) ->
  Ranked message_rank G (routed_world first).
Proof.
  intros Hfirst. split.
  - intros i react e Hin. cbn in Hin.
    apply list_elem_of_singleton in Hin. discriminate.
  - intros i m id plugin e Hin Hent Hne. cbn in Hin.
    apply list_elem_of_singleton in Hin. injection Hin as -> ->.
    cbn in Hent.
    repeat (apply elem_of_cons in Hent as [Hent | Hent]);
      try (injection Hent as -> ->).
    + apply Hfirst.
    + apply echo_tame. constructor.
    + apply echo_tame. constructor.
    + by apply elem_of_nil in Hent.
  - intros key subject observer v Hk. cbn in Hk. by rewrite lookup_empty in Hk.
Qed.


Lemma routing_self_exclusion_witness :
  Ranked message_rank (guard_map 1) (routed_world (echo "poltergeist" [])) /\
  exists w' l,
    route (run_call 1) 1 (message "user_message" "banshee")
          (routed_world (echo "poltergeist" [])) = Some w' /\
    added (routed_world (echo "poltergeist" [])) w' l /\
    (forall key plugin,
       (key, plugin) ∈ JsMap.entries
          (map_at 1 (routed_world (echo "poltergeist" []))) ->
       (TProcess (plugin_id plugin) (message "user_message" "banshee") ∈ l <->
        source (message "user_message" "banshee") <> plugin_id plugin)) /\
    (forall key plugin s out,
       (key, plugin) ∈ JsMap.entries
          (map_at 1 (routed_world (echo "poltergeist" []))) ->
       source (message "user_message" "banshee") <> plugin_id plugin ->
       result (process plugin (message "user_message" "banshee"))
         = ProcessReturns s ->
       out ∈ emitted s ->
       exists e md, TNext e ∈ l /\ same_message out e /\
         metadata e = Some md /\
         processed_by md = Some (plugin_id plugin) /\
         original_source md = Some (source (message "user_message" "banshee"))).
Proof.
  assert (H : Ranked message_rank (guard_map 1)
                (routed_world (echo "poltergeist" []))).
  { apply routed_world_ranked. intros e. apply echo_tame. constructor. }
  split; [exact H |].
  apply (routing_self_exclusion message_rank (guard_map 1) 1 0 1
           (message "user_message" "banshee")
           (routed_world (echo "poltergeist" [])) H).
  - reflexivity.
  - cbn. apply list_elem_of_singleton. reflexivity.
  - intros id plugin Hent. cbn in Hent.
    repeat (apply elem_of_cons in Hent as [Hent | Hent]);
      try (injection Hent as -> ->; reflexivity).
    by apply elem_of_nil in Hent.
  - cbn. lia.
Defined.

(** C3, as stated, fails.  [wraith] is loaded and in the routed map when
    the event of [client] reaches the routing subscription, and the
    event's source is not [wraith]; but the hook of the first plugin
    deletes [wraith] from the map before the loop gets to it, and the
    hook of [wraith] is not invoked on the event. *)
Lemma deleted_plugin_is_not_routed_to :
  ("wraith", echo "wraith" [])
    ∈ JsMap.entries (map_at 1 (routed_world usurper)) /\
  source (message "user_message" "client") <> "wraith" /\
  exists w' l,
    route (run_call 1) 1 (message "user_message" "client")
          (routed_world usurper) = Some w' /\
    added (routed_world usurper) w' l /\
    TProcess "usurper" (message "user_message" "client") ∈ l /\
    TProcess "banshee" (message "user_message" "client") ∈ l /\
    TProcess "wraith" (message "user_message" "client") ∉ l.
Proof.
  split; [cbn; right; right; left |]. split; [discriminate |].
  eexists _, _. split; [vm_compute; reflexivity |].
  split; [unfold added; cbn [trace routed_world]; reflexivity |].
  split; [| split].
  - apply list_elem_of_In. vm_compute. tauto.
  - apply list_elem_of_In. vm_compute. tauto.
  - intros Hin. apply list_elem_of_In in Hin. vm_compute in Hin.
    repeat (destruct Hin as [Hin | Hin]; [discriminate |]). exact Hin.
Qed.

(** C7, as stated, fails: the routing loop walks the live map.  Here the
    first plugin's hook deletes [banshee] from the routed map while the
    pass is under way; [banshee] was in the map when the pass started and
    the event is not its own, yet its hook is never called. *)
Lemma live_iteration_skips_deleted :
  ("banshee", echo "banshee" [])
    ∈ JsMap.entries (map_at 1 (routed_world exorcist)) /\
  source (message "user_message" "client") <> "banshee" /\
  exists w',
    route (run_call 1) 1 (message "user_message" "client")
          (routed_world exorcist) = Some w' /\
    hooks_called (trace w') = ["exorcist"; "wraith"; "wraith"; "exorcist"] /\
    "banshee" ∉ hooks_called (trace w').
Proof.
  split; [cbn; right; left |]. split; [discriminate |].
  eexists. split; [vm_compute; reflexivity |].
  split; [vm_compute; reflexivity |].
  vm_compute hooks_called. intros Hin.
  repeat (apply elem_of_cons in Hin as [Hin | Hin]; [discriminate |]).
  by apply elem_of_nil in Hin.
Qed.

(** C7, amended.  A routing pass walks the map it was given at setup, and
    takes no snapshot of it.  When no callback deletes from that map while
    the pass runs (the guard [guard_map m]), the pass leaves the map as it
    was and calls the hook of every plugin that was in it when the pass
    started and whose id is not the event's source.  Unloading through
    [teardownPlugin] is such a case whenever the routed map is not the
    loader's own registry, as for the map [loadAllPlugins] returns. *)
Theorem pass_ignores_teardown rk depth i m event w :
  Ranked rk (guard_map m) w ->
  (i, PluginRouter m) ∈ observers (hub w) ->
  rk (ev_type event) <= depth ->
  exists w' l,
    route (run_call depth) m event w = Some w' /\ added w w' l /\
    map_at m w' = map_at m w /\
    forall id plugin,
      (id, plugin) ∈ JsMap.entries (map_at m w) ->
      source event <> id -> TProcess id event ∈ l.
Proof.
  intros Hw Hin Hdepth.
  destruct (route_spec rk (guard_map m) (run_call depth) i m event w)
    as (w' & E & F & Hall);
    [eapply Answers_mono; [exact Hdepth | apply run_call_spec] | done | done |].
  destruct (frame_trace _ _ _ F) as (l & Hl & _).
  exists w', l. split; [done |]. split; [done |].
  split; [by apply (frame_kept_map _ _ _ F) |].
  intros id plugin Hent Hne.
  destruct (Hall eq_refl id plugin Hent Hne) as (w1 & w2 & F1 & [[l1 Hl1] _] & F2).
  apply (within_added w w'); [done |].
  eapply within_Frame_l; [exact F1 |].
  eapply within_Frame_r; [by eapply added_within | exact F2].
Qed.

Lemma pass_ignores_teardown_witness :
  registry (routed_world leaver) = coven leaver /\
  exists w' l,
    route (run_call 1) 1 (message "user_message" "client")
          (routed_world leaver) = Some w' /\
    added (routed_world leaver) w' l /\
    map_at 1 w' = map_at 1 (routed_world leaver) /\
    forall id plugin,
      (id, plugin) ∈ JsMap.entries (map_at 1 (routed_world leaver)) ->
      source (message "user_message" "client") <> id ->
      TProcess id (message "user_message" "client") ∈ l.
Proof.
  split; [reflexivity |].
  apply (pass_ignores_teardown message_rank 1 0 1
           (message "user_message" "client") (routed_world leaver)).
  - apply routed_world_ranked. intros e. apply echo_tame.
    constructor; [| constructor]. split; [cbn; lia |]. cbn. discriminate.
  - cbn. apply list_elem_of_singleton. reflexivity.
  - cbn. lia.
Defined.

(* ===================================================================== *)
(** * State writes (C9) and teardown (C10) *)
(* ===================================================================== *)

(** C9.  Every [setState(key, value)] emits a [state_changed] event on
    the hub itself: type [state_changed], source [EventHub], data holding
    the key and the value, handed to every hub subscriber (the routing
    subscription is one of them).  It also notifies each observer of the
    key (for a defined value and a key that is not cursed), and the store
    holds the value afterwards unless a callback wrote the key again (none
    does when the key is guarded).  The call returns whenever reactions
    rank below their cause. *)
Theorem setState_emits_state_changed rk G depth key value w :
  Ranked rk G w -> rk "state_changed" < depth ->
  exists w' e,
    setState (run_call depth) key value w = Some w' /\
    ev_type e = "state_changed" /\ source e = "EventHub" /\
    data e = VObj [("key", VStr key); ("value", value)] /\
    (forall sub, sub ∈ observers (hub w) ->
       within w w' (TObserved (fst sub) e)) /\
    (kept_key G key -> getState key w' = value) /\
    (is_undefined value = false -> key ∉ cursedKeys (hub w) ->
     forall subject i, spectralState (hub w) !! key = Some subject ->
       i < length (bs_observers subject) ->
       within w w' (TKeyObserved key i value)).
Proof.
  intros Hw Hdepth.
  destruct (setState_spec rk G (run_call depth) key value w)
    as (w' & E & F & (e & (H1 & H2 & H3 & H4) & Hobs) & Hkeys);
    [eapply Answers_mono; [| apply run_call_spec]; lia | done |].
  exists w', e. split; [done |]. cbn in H1, H3, H4.
  split; [done |]. split; [done |]. split; [done |]. split; [done |].
  split; [| done].
  intros Hkey. rewrite (frame_kept_key _ _ _ F key Hkey).
  apply getState_written.
Qed.

Lemma seance_ranked : Ranked message_rank (guard_key "mood") seance.
Proof.
  split.
  - intros i react e Hin.
    change (observers (hub seance)) with [(0, listener); (1, listener)] in Hin.
    in_list Hin; injection Hin as _ ->; (split; [constructor | discriminate]).
  - intros i m id plugin e Hin.
    change (observers (hub seance)) with [(0, listener); (1, listener)] in Hin.
    in_list Hin; discriminate.
  - intros key subject observer v Hk Hin.
    change (spectralState (hub seance))
      with (<["mood" := mkSubject VUndefined [fun _ : Value => silent]]>
              (∅ : gmap string BehaviorSubject)) in Hk.
    apply lookup_insert_Some in Hk as [[<- <-] | [_ Hk]];
      [| by rewrite lookup_empty in Hk].
    cbn in Hin. in_list Hin. subst observer. constructor.
Qed.

Lemma setState_emits_state_changed_witness :
  exists w' e,
    setState (run_call 1) "mood" (VStr "eerie") seance = Some w' /\
    ev_type e = "state_changed" /\ source e = "EventHub" /\
    data e = VObj [("key", VStr "mood"); ("value", VStr "eerie")] /\
    (forall sub, sub ∈ observers (hub seance) ->
       within seance w' (TObserved (fst sub) e)) /\
    (kept_key (guard_key "mood") "mood" -> getState "mood" w' = VStr "eerie") /\
    (is_undefined (VStr "eerie") = false -> "mood" ∉ cursedKeys (hub seance) ->
     forall subject i, spectralState (hub seance) !! "mood" = Some subject ->
       i < length (bs_observers subject) ->
       within seance w' (TKeyObserved "mood" i (VStr "eerie"))).
Proof.
  apply (setState_emits_state_changed message_rank (guard_key "mood") 1
           "mood" (VStr "eerie") seance seance_ranked).
  cbn. lia.
Defined.

Lemma get_delete {V} key (m : JsMap.t V) :
  JsMap.get key (JsMap.delete key m) = None.
Proof.
  induction m as [| [[k v] |] m IH]; cbn; [done | | done].
  destruct (String.eqb key k) eqn:E; cbn; [done | by rewrite E].
Qed.

(** C10.  When the teardown hook throws, [teardownPlugin] rejects with a
    [BanishmentRequired] error, the plugin's state is already [banished],
    and the plugin, its state entry and its retry counter are all still in
    the loader's records.  The records are removed only on the other
    path, when the hook returns. *)
Theorem teardown_failure_keeps_records pluginId plugin w :
  JsMap.get pluginId (registry w) = Some plugin ->
  (forall message, teardown plugin = Throws message ->
     exists error w',
       teardownPlugin pluginId w = (Rejected (Spectral error), w') /\
       se_type error = BANISHMENT_REQUIRED /\
       getPluginState pluginId w' = Some BANISHED /\
       registry w' = registry w /\
       JsMap.get pluginId (registry w') = Some plugin /\
       retryAttempts (loader w') = retryAttempts (loader w)) /\
  (teardown plugin = Returns ->
     exists w',
       teardownPlugin pluginId w = (Resolved tt, w') /\
       JsMap.get pluginId (registry w') = None /\
       getPluginState pluginId w' = None /\
       retryAttempts (loader w') !! pluginId = None).
Proof.
  intros Hget. unfold teardownPlugin. rewrite Hget. split.
  - intros message ->. eexists _, _. split; [reflexivity |].
    split; [reflexivity |]. split.
    + unfold getPluginState. cbn. apply lookup_insert_eq.
    + split; [reflexivity |]. split; [exact Hget | reflexivity].
  - intros ->. eexists. split; [reflexivity |]. split; [| split].
    + unfold registry, map_at. cbn.
      destruct (maps w !! loadedPlugins (loader w)) as [m |] eqn:E.
      * rewrite list_lookup_insert_eq by (by eapply lookup_lt_Some). cbn.
        apply get_delete.
      * unfold registry, map_at in Hget. rewrite E in Hget. discriminate.
    + unfold getPluginState. cbn. apply lookup_delete_eq.
    + cbn. apply lookup_delete_eq.
Qed.

Lemma teardown_failure_keeps_records_witness :
  JsMap.get "revenant" (registry haunted_house) = Some clinging /\
  teardown clinging = Throws "will not leave" /\
  exists error w',
    teardownPlugin "revenant" haunted_house = (Rejected (Spectral error), w') /\
    se_type error = BANISHMENT_REQUIRED /\
    getPluginState "revenant" w' = Some BANISHED /\
    registry w' = registry haunted_house /\
    JsMap.get "revenant" (registry w') = Some clinging /\
    retryAttempts (loader w') = retryAttempts (loader haunted_house).
Proof.
  split; [reflexivity |]. split; [reflexivity |].
  apply (proj1 (teardown_failure_keeps_records "revenant" clinging
                  haunted_house eq_refl) "will not leave").
  reflexivity.
Defined.

(* ===================================================================== *)
(** * Delivery order and subscriber isolation (C1, C2) *)
(* ===================================================================== *)

Lemma deliveries_app l1 l2 : deliveries (l1 ++ l2) = deliveries l1 ++ deliveries l2.
Proof.
  induction l1 as [| [e | j e | id e | id | k i v | ms] l1 IH]; cbn; try done.
  destruct (is_diagnostic e); cbn; by rewrite IH.
Qed.

Lemma stamp_observers e w : observers (hub (snd (stamp e w))) = observers (hub w).
Proof. unfold stamp. cbn. by destruct (qlt _ _). Qed.

Lemma stamp_diagnostic e w : is_diagnostic (fst (stamp e w)) = is_diagnostic e.
Proof. unfold is_diagnostic. by rewrite stamp_type. Qed.

Lemma delivers_trans w1 w2 w3 ds1 ds2 :
  delivers w1 w2 ds1 -> delivers w2 w3 ds2 -> delivers w1 w3 (ds1 ++ ds2).
Proof.
  intros [o1 (l1 & a1 & d1)] [o2 (l2 & a2 & d2)]. split; [congruence |].
  exists (l1 ++ l2). split; [| by rewrite deliveries_app, d1, d2].
  unfold added in *. by rewrite a2, a1, app_assoc.
Qed.

Lemma delivers_record t w ds : deliveries [t] = ds -> delivers w (record t w) ds.
Proof. intros H. split; [done |]. by exists [t]. Qed.

Lemma delivers_stamp e w : delivers w (snd (stamp e w)) [].
Proof.
  split; [apply stamp_observers |]. exists [].
  split; [| done]. unfold added. by rewrite stamp_trace, app_nil_r.
Qed.

(** A diagnostic among polite observers: everyone takes it and returns. *)
Lemma next_diagnostic_polite rec e subs w :
  Forall (fun sub => polite (snd sub)) subs -> is_diagnostic e = true ->
  exists w', for_each (deliver rec e) subs w = Some w' /\ delivers w w' [].
Proof.
  intros Hsubs He. revert w. induction Hsubs as [| sub subs Hsub _ IH]; intros w; cbn.
  { exists w. split; [done |]. split; [done |]. exists []. split; [| done].
    unfold added. by rewrite app_nil_r. }
  destruct Hsub as (react & Hreact & Hcalls & Hdiag).
  unfold deliver at 1. rewrite Hreact. cbn [snd]. unfold run_reaction.
  rewrite Hcalls, (Hdiag e He). cbn.
  destruct (IH (record (TObserved (fst sub) e) w)) as (w' & -> & Hd).
  exists w'. split; [done |].
  apply (delivers_trans _ (record (TObserved (fst sub) e) w) _ [] []); [| done].
  apply delivers_record. cbn. by rewrite He.
Qed.

Lemma emit_diagnostic_polite rec e w :
  all_polite w -> is_diagnostic e = true ->
  exists w', emit rec e w = Some w' /\ delivers w w' [].
Proof.
  intros Hw He. unfold emit.
  pose proof (delivers_stamp e w) as Hs.
  pose proof (stamp_diagnostic e w) as Hd. rewrite He in Hd.
  destruct (stamp e w) as [e' ws]. cbn [fst snd] in *. unfold Subject_next.
  destruct (next_diagnostic_polite rec e' (observers (hub ws))
              (record (TNext e') ws)) as (w' & -> & Hn).
  { destruct Hs as [-> _]. exact Hw. }
  { exact Hd. }
  exists w'. split; [done |].
  apply (delivers_trans _ ws _ [] []); [done |].
  apply (delivers_trans _ (record (TNext e') ws) _ [] []); [| done].
  by apply delivers_record.
Qed.

(** An event of the caller among polite observers: each takes it in
    turn; a throw adds only the hub's diagnostic. *)
Lemma next_polite depth e subs w :
  all_polite w -> Forall (fun sub => polite (snd sub)) subs ->
  is_diagnostic e = false ->
  exists w', for_each (deliver (run_call (S depth)) e) subs w = Some w' /\
    delivers w w' (map (fun sub => (fst sub, e)) subs).
Proof.
  intros Hw Hsubs He. revert w Hw.
  induction Hsubs as [| sub subs Hsub _ IH]; intros w Hw; cbn [for_each map].
  { exists w. split; [done |]. split; [done |]. exists []. split; [| done].
    unfold added. by rewrite app_nil_r. }
  destruct Hsub as (react & Hreact & Hcalls & Hdiag).
  unfold deliver at 1. rewrite Hreact. cbn [snd]. unfold run_reaction.
  rewrite Hcalls. cbn [run_calls].
  set (w1 := record (TObserved (fst sub) e) w).
  assert (H1 : delivers w w1 [(fst sub, e)]).
  { apply delivers_record. cbn. by rewrite He. }
  assert (Hturn : exists w2,
    match outcome (react e) with
    | Returns => Some w1
    | Throws message =>
        Some (default w1
                (handleSubscriberError (run_call (S depth)) message e w1))
    end = Some w2 /\ delivers w1 w2 []).
  { destruct (outcome (react e)) as [| message].
    - exists w1. split; [done |]. split; [done |]. exists [].
      split; [| done]. unfold added. by rewrite app_nil_r.
    - unfold handleSubscriberError. cbn [run_call].
      destruct (emit_diagnostic_polite (run_call depth)
                  (diagnostic w1 "subscriber_error" "EventHub"
                     (VObj [("originalEvent", event_value e);
                            ("error", VStr message)]) (flagged (1 # 2)%Q)) w1)
        as (w2 & -> & H2); [| done | by exists w2].
      unfold all_polite. by destruct H1 as [-> _]. }
  destruct Hturn as (w2 & -> & H2).
  destruct (IH w2) as (w' & -> & H').
  { unfold all_polite. destruct H2 as [-> _]. by destruct H1 as [-> _]. }
  exists w'. split; [done |].
  change ((fst sub, e) :: map (fun sub => (fst sub, e)) subs)
    with (([(fst sub, e)] ++ []) ++ map (fun sub => (fst sub, e)) subs).
  eapply delivers_trans; [eapply delivers_trans; [exact H1 | exact H2] | exact H'].
Qed.

Lemma emit_polite depth e w :
  all_polite w -> is_diagnostic e = false ->
  exists w', emit (run_call (S depth)) e w = Some w' /\
    delivers w w'
      (map (fun sub => (fst sub, fst (stamp e w))) (observers (hub w))).
Proof.
  intros Hw He. unfold emit.
  pose proof (delivers_stamp e w) as Hs.
  pose proof (stamp_diagnostic e w) as Hd. rewrite He in Hd.
  destruct (stamp e w) as [e' ws]. cbn [fst snd] in *. unfold Subject_next.
  assert (Hobs : observers (hub ws) = observers (hub w)) by (by destruct Hs).
  destruct (next_polite depth e' (observers (hub ws)) (record (TNext e') ws))
    as (w' & -> & Hn).
  { unfold all_polite. cbn. by rewrite Hobs. }
  { by rewrite Hobs. }
  { exact Hd. }
  exists w'. split; [done |]. rewrite <- Hobs.
  change (map (fun sub => (fst sub, e')) (observers (hub ws)))
    with (([] ++ []) ++ map (fun sub => (fst sub, e')) (observers (hub ws))).
  eapply delivers_trans; [eapply delivers_trans; [exact Hs |] | exact Hn].
  by apply delivers_record.
Qed.

(** Picking one subscriber's share out of the deliveries. *)
Lemma own_share (subs : list (nat * Observer)) i (e : SpectralEvent) :
  NoDup (map fst subs) -> i ∈ map fst subs ->
  map snd (List.filter (fun d => Nat.eqb (fst d) i)
                       (map (fun sub => (fst sub, e)) subs)) = [e].
Proof.
  induction subs as [| [j o] subs IH]; cbn; intros Hnd Hin.
  { by apply elem_of_nil in Hin. }
  apply NoDup_cons in Hnd as [Hj Hnd].
  destruct (Nat.eqb_spec j i) as [-> | Hne]; cbn.
  - f_equal. clear IH Hin Hnd. induction subs as [| [k o'] subs IH]; cbn; [done |].
    apply not_elem_of_cons in Hj as [Hk Hj]. cbn in Hk.
    destruct (Nat.eqb_spec k i); [congruence | auto].
  - apply IH; [done |]. apply elem_of_cons in Hin as [-> | Hin]; [done | done].
Qed.

Lemma own_shares (subs : list (nat * Observer)) i (stamped : list SpectralEvent) :
  NoDup (map fst subs) -> i ∈ map fst subs ->
  map snd (List.filter (fun d => Nat.eqb (fst d) i)
             (flat_map (fun e => map (fun sub => (fst sub, e)) subs) stamped))
  = stamped.
Proof.
  intros Hnd Hin. induction stamped as [| e stamped IH]; cbn; [done |].
  rewrite List.filter_app, map_app, IH, own_share; done.
Qed.

Lemma emit_all_polite depth events w :
  all_polite w -> Forall (fun e => is_diagnostic e = false) events ->
  exists w' stamped,
    emit_all (run_call (S depth)) events w = Some w' /\
    Forall2 same_message events stamped /\
    delivers w w'
      (flat_map (fun e => map (fun sub => (fst sub, e)) (observers (hub w)))
                stamped).
Proof.
  intros Hw Hevents. revert w Hw. unfold emit_all.
  induction Hevents as [| e events He _ IH]; intros w Hw; cbn [for_each].
  { exists w, []. split; [done |]. split; [constructor |]. split; [done |].
    exists []. split; [| done]. unfold added. by rewrite app_nil_r. }
  destruct (emit_polite depth e w Hw He) as (w1 & -> & H1).
  destruct (IH w1) as (w' & stamped & -> & Hsame & H').
  { unfold all_polite. by destruct H1 as [-> _]. }
  exists w', (fst (stamp e w) :: stamped). split; [done |].
  split; [constructor; [apply stamp_same_message | done] |].
  cbn [flat_map]. destruct H1 as [Ho H1]. rewrite Ho in H'.
  eapply delivers_trans; [split; [exact Ho | exact H1] | exact H'].
Qed.

(** C1, amended.  Among observers that call nothing back and accept the
    hub's [subscriber_error] events, and with room for one nested call:
    for every sequence of emit calls e1 ... en (none of them a
    [subscriber_error] itself) every call returns, and the deliveries, the
    hub's own diagnostics about throwing observers left out, are e1 to
    every subscriber in subscription order, then e2 to every subscriber,
    and so on; so every subscriber is handed e1 ... en in that order, each
    as stamped by the hub.  The diagnostics of throws are interleaved with
    them. *)
Theorem delivery_order depth events w :
  all_polite w -> NoDup (map fst (observers (hub w))) ->
  Forall (fun e => is_diagnostic e = false) events ->
  exists w' l stamped,
    emit_all (run_call (S depth)) events w = Some w' /\ added w w' l /\
    Forall2 same_message events stamped /\
    deliveries l =
      flat_map (fun e => map (fun sub => (fst sub, e)) (observers (hub w)))
               stamped /\
    forall sub, sub ∈ observers (hub w) -> received_by (fst sub) l = stamped.
Proof.
  intros Hw Hnd Hevents.
  destruct (emit_all_polite depth events w Hw Hevents)
    as (w' & stamped & E & Hsame & _ & l & Hl & Hd).
  exists w', l, stamped. split; [done |]. split; [done |]. split; [done |].
  split; [done |].
  intros sub Hsub. unfold received_by. rewrite Hd.
  apply own_shares; [done |]. apply list_elem_of_fmap. by exists sub.
Qed.

Lemma rapping_polite : all_polite rapping.
Proof.
  unfold all_polite.
  change (observers (hub rapping)) with [(0, startled); (1, listener)].
  repeat constructor.
  - exists (fun e => if String.eqb (ev_type e) "knock"
                     then mkReaction [] (Throws "who is there")
                     else silent).
    split; [reflexivity |]. split.
    + intros e. by destruct (String.eqb (ev_type e) "knock").
    + intros e He. cbn. unfold is_diagnostic in He.
      apply String.eqb_eq in He. by rewrite He.
  - exists (fun _ => silent). by split.
Qed.

Lemma delivery_order_witness :
  exists w' l stamped,
    emit_all (run_call 1)
      [message "knock" "client"; message "user_message" "client"] rapping
      = Some w' /\
    added rapping w' l /\
    Forall2 same_message
      [message "knock" "client"; message "user_message" "client"] stamped /\
    deliveries l =
      flat_map (fun e => map (fun sub => (fst sub, e)) (observers (hub rapping)))
               stamped /\
    forall sub, sub ∈ observers (hub rapping) ->
      received_by (fst sub) l = stamped.
Proof.
  apply (delivery_order 0 _ rapping rapping_polite).
  - change (map fst (observers (hub rapping))) with [0; 1].
    apply NoDup_cons. split; [| apply NoDup_singleton].
    intros H. in_list H. discriminate.
  - repeat constructor.
Defined.

(** C1, as stated, fails.  The first subscriber throws on a [knock]; the
    hub emits its [subscriber_error] from inside that delivery, so the
    second subscriber is handed two events for the one emit call, and the
    diagnostic, emitted later, reaches it first. *)
Lemma diagnostic_overtakes_event :
  exists w' l,
    emit_all (run_call 1) [message "knock" "client"] rapping = Some w' /\
    added rapping w' l /\
    map ev_type (seen_by 1 l) = ["subscriber_error"; "knock"] /\
    ~ Forall2 same_message [message "knock" "client"] (seen_by 1 l).
Proof.
  eexists _, _. split; [vm_compute; reflexivity |].
  split; [unfold added; cbn [trace rapping]; reflexivity |].
  split; [reflexivity |].
  intros H. apply Forall2_length in H. discriminate.
Qed.


(* ===================================================================== *)
(** * Stream utilities (C4, C8) *)
(* ===================================================================== *)

Section streams.
Context (rk : string -> nat) (G : Guard).

Lemma manifestGhostlyCrash_spec rec message context w :
  Answers rk G (rk "ghostly_crash") rec -> Ranked rk G w ->
  exists w', manifestGhostlyCrash rec message context w = Some w' /\
    Frame G w w' /\
    exists e, within w w' (TNext e) /\ ev_type e = "ghostly_crash" /\
              source e = "EventHub".
Proof.
  intros Hrec Hw. unfold manifestGhostlyCrash.
  set (w1 := with_hub _ w).
  assert (F1 : Frame G w w1) by apply Frame_crash.
  match goal with |- context [emit rec ?ev w1] => set (e := ev) end.
  destruct (emit_spec rk G rec e w1) as (w' & -> & F' & [l Hl] & _);
    [done | by eapply Ranked_Frame |].
  exists w'. split; [done |]. split; [by eapply Frame_trans |].
  exists (fst (stamp e w1)). split.
  - eapply within_Frame_l; [exact F1 |]. by eapply added_within.
  - destruct (stamp_same_message e w1) as (H1 & _ & H3 & _).
    by rewrite <- H1, <- H3.
Qed.

Lemma fuse_steps_ended rec fusionId rest f w :
  alive f = false -> fuse_steps rec fusionId rest (f, w) = Some (f, w).
Proof.
  intros Hf. induction rest as [| s rest IH]; cbn [fuse_steps]; [done |].
  unfold fuse_step. rewrite Hf. cbn. exact IH.
Qed.

(** C8, amended.  When a source of a fused stream errors, the hub emits a
    [ghostly_crash] event, the subscribers of the fused stream receive an
    empty tuple in place of the error, and then the fused stream
    completes: whatever the sources do afterwards, nothing more is
    received. *)
Theorem fused_error_ends_stream depth fusionId s i message rest f w :
  Ranked rk G w -> rk "ghostly_crash" <= depth ->
  alive f = true -> signal s = SError i message ->
  exists f' w',
    fuse_steps (run_call depth) fusionId (s :: rest) (f, w) = Some (f', w') /\
    received f' = received (flush w (at_ms s) f) ++ [Tuple []; End] /\
    alive f' = false /\
    exists e, within w w' (TNext e) /\ ev_type e = "ghostly_crash".
Proof.
  intros Hw Hdepth Hf Hs. cbn [fuse_steps]. unfold fuse_step.
  rewrite Hf, Hs. cbn [negb].
  destruct (manifestGhostlyCrash_spec (run_call depth) message fusionId w)
    as (w' & -> & F & e & He & Hty & _);
    [eapply Answers_mono; [exact Hdepth | apply run_call_spec] | done |].
  cbn [mbind option_bind].
  eexists _, w'. split; [by apply fuse_steps_ended |].
  split; [reflexivity |]. split; [reflexivity |]. by exists e.
Qed.

End streams.

Lemma fused_error_ends_stream_witness :
  exists f' w',
    fuse_steps (run_call 0) "fusion_1"
      (mkTimed 50 (SError 0 "source lost") :: after_the_error)
      (two_sources, seance) = Some (f', w') /\
    received f'
      = received (flush seance 50 two_sources) ++ [Tuple []; End] /\
    alive f' = false /\
    exists e, within seance w' (TNext e) /\ ev_type e = "ghostly_crash".
Proof.
  apply (fused_error_ends_stream message_rank (guard_key "mood") 0 "fusion_1"
           (mkTimed 50 (SError 0 "source lost")) 0 "source lost"
           after_the_error two_sources seance seance_ranked).
  - cbn. lia.
  - reflexivity.
  - reflexivity.
Defined.

(** C8, as stated, fails.  Two sources are fused; the first errors at
    50 ms and the second emits again at 60 ms.  The subscribers receive
    the one tuple combined before the error, the empty tuple, and the end
    of the stream: the fused stream does not stay alive, and the later
    value is never combined. *)
Lemma fused_stream_ends_on_error :
  exists f w',
    fuseStreams (run_call 0) 2 duet 100 seance = Some (f, w') /\
    received f = [Tuple [VStr "2"; VStr "x"]; Tuple []; End] /\
    alive f = false.
Proof.
  eexists _, _. split; [vm_compute; reflexivity |]. split; reflexivity.
Qed.

(** C4: what the code does where the claim fails.  A source that errors
    on every subscription is resubscribed three times, after delays of
    1000 * 2^attempt milliseconds plus jitter, with one [ghostly_crash]
    event per failure.  When the errors arrive during the [subscribe]
    call, the fourth failure reaches [index >= 3] and the stream fails.
    When they arrive later (a source that fails after a tick), [take(3)]
    completes the notifier right after the third resubscription, and the
    stream completes: no failure is ever delivered. *)
Theorem late_failure_completes_the_stream :
  (exists r w',
     processStream (run_call 0) (failing Synchronously) once seance
       = Some (r, w') /\
     (exists e, final r = Failed e /\ se_type e = DISTURBANCE_DETECTED) /\
     resubscriptions r = 3 /\ crashes (trace w') = 4 /\
     delays r = [(pow2 0 * 1000 + (99 # 100) * 1000)%Q;
                 (pow2 1 * 1000 + (99 # 100) * 1000)%Q;
                 (pow2 2 * 1000 + (99 # 100) * 1000)%Q]) /\
  (exists r w',
     processStream (run_call 0) (failing Later) once seance = Some (r, w') /\
     final r = Completed /\
     resubscriptions r = 3 /\ crashes (trace w') = 3).
Proof.
  split.
  - eexists _, _. split; [vm_compute; reflexivity |].
    split; [eexists; split; reflexivity |]. repeat split; reflexivity.
  - eexists _, _. split; [vm_compute; reflexivity |]. repeat split; reflexivity.
Qed.

(* ===================================================================== *)
(** * Subscriptions and iterators (C6) *)
(* ===================================================================== *)

(** C6: what the code does where the claim fails.  [subscribe] returns
    nothing (it drops the subscription [super.subscribe] made), so
    [subscription?.unsubscribe?.()] changes nothing and the observer stays
    subscribed.  The [finally] block of [spectralIterator] is such a call:
    after the iterator has returned, its observer is still subscribed and
    is handed the next event, which it counts and queues. *)
Theorem unsubscribe_leaves_observer_subscribed :
  (forall o w,
     fst (subscribe o w) = None /\
     unsubscribe_if_any (fst (subscribe o w)) (snd (subscribe o w))
       = snd (subscribe o w) /\
     (subscriptions (hub w), o) ∈ observers (hub (snd (subscribe o w)))) /\
  (map returned (iterators vigil_closed) = [true] /\
   observers (hub vigil_closed) = [(0, IteratorSink 0)] /\
   exists w',
     emit (run_call 0) (message "user_message" "client") vigil_closed
       = Some w' /\
     map ev_type (seen_by 0 (trace w')) = ["knock"; "user_message"] /\
     map it_eventCount (iterators w') = [2] /\
     map (fun it => length (eventQueue it)) (iterators w') = [1]).
Proof.
  split.
  - intros o w. split; [reflexivity |]. split; [reflexivity |].
    cbn. apply elem_of_app. right. left.
  - split; [reflexivity |]. split; [reflexivity |].
    eexists. split; [vm_compute; reflexivity |]. repeat split; reflexivity.
Qed.
(* ===================================================================== *)
(** * Loading a manifest's plugins (C5) *)
(* ===================================================================== *)

Lemma get_set_eq {V} key (v : V) (m : JsMap.t V) :
  JsMap.get key (JsMap.set key v m) = Some v.
Proof.
  induction m as [| [[k x] |] m IH]; cbn.
  - by rewrite String.eqb_refl.
  - destruct (String.eqb key k) eqn:E; cbn; rewrite ?E;
      [by rewrite String.eqb_refl | done].
  - done.
Qed.

Lemma get_set_ne {V} key key' (v : V) (m : JsMap.t V) :
  key <> key' -> JsMap.get key (JsMap.set key' v m) = JsMap.get key m.
Proof.
  intros Hne. apply String.eqb_neq in Hne.
  induction m as [| [[k x] |] m IH]; cbn.
  - by rewrite Hne.
  - destruct (String.eqb key' k) eqn:E; cbn.
    + apply String.eqb_eq in E as <-. by rewrite Hne.
    + by rewrite IH.
  - done.
Qed.

Lemma map_at_update m f w :
  m < length (maps w) -> map_at m (update_map m f w) = f (map_at m w).
Proof.
  intros Hm. unfold map_at at 1, update_map. cbn.
  by rewrite list_lookup_insert_eq.
Qed.

Lemma map_at_update_ne m m' f w :
  m <> m' -> map_at m (update_map m' f w) = map_at m w.
Proof.
  intros Hm. unfold map_at at 1, update_map. cbn.
  by rewrite list_lookup_insert_ne.
Qed.

Lemma validatePlugin_id raw cfg plugin :
  validatePlugin raw cfg = inl plugin -> plugin_id plugin = cfg_id cfg.
Proof.
  unfold validatePlugin.
  destruct (raw_init raw), (raw_process raw), (raw_teardown raw),
    (raw_id raw) as [id |], (raw_manifest raw); try discriminate.
  destruct (String.eqb_spec id (cfg_id cfg)); [| discriminate].
  by intros [= <-].
Qed.

Lemma summon_id h cfg plugin :
  summon h cfg = inl plugin -> plugin_id plugin = cfg_id cfg.
Proof.
  unfold summon. destruct (import_ h (cfg_path cfg)) as [| m]; [discriminate |].
  destruct (export_named _ _) as [[| raw] |],
    (default_export m) as [[| raw'] |];
    try discriminate; apply validatePlugin_id.
Qed.

Lemma After_refl w : After w w.
Proof. exists []. unfold added. by rewrite app_nil_r. Qed.

Lemma After_trans w1 w2 w3 : After w1 w2 -> After w2 w3 -> After w1 w3.
Proof.
  intros [l1 H1] [l2 H2]. exists (l1 ++ l2). unfold added in *.
  by rewrite H2, H1, app_assoc.
Qed.

Lemma After_same w w' : trace w' = trace w -> After w w'.
Proof. intros H. exists []. unfold added. by rewrite H, app_nil_r. Qed.

Lemma After_record t w : After w (record t w).
Proof. by exists [t]. Qed.

Lemma Frame_After G w w' : Frame G w w' -> After w w'.
Proof.
  intros F. destruct (frame_trace _ _ _ F) as (l & Hl & _). by exists l.
Qed.

Lemma within_After_l w w1 w' t : After w w1 -> within w1 w' t -> within w w' t.
Proof.
  intros [l1 a1] (l & a & Hin). exists (l1 ++ l).
  split; [| apply elem_of_app; by right].
  unfold added in *. by rewrite a, a1, app_assoc.
Qed.

Lemma within_After_r w w1 w' t : within w w1 t -> After w1 w' -> within w w' t.
Proof.
  intros (l & a & Hin) [l1 a1]. exists (l ++ l1).
  split; [| apply elem_of_app; by left].
  unfold added in *. by rewrite a1, a, app_assoc.
Qed.

Lemma Elsewhere_refl loaded id w : Elsewhere loaded id w w.
Proof. by intros id' _. Qed.

Lemma Elsewhere_trans loaded id w1 w2 w3 :
  Elsewhere loaded id w1 w2 -> Elsewhere loaded id w2 w3 ->
  Elsewhere loaded id w1 w3.
Proof.
  intros H1 H2 id' Hne. destruct (H1 id' Hne) as (a & b & c & d).
  destruct (H2 id' Hne) as (a' & b' & c' & d'). by rewrite a', b', c', d'.
Qed.

Lemma Kept_refl reg id w : Kept reg id w w.
Proof. split; auto using After_refl. Qed.

Lemma Kept_trans reg id w1 w2 w3 :
  Kept reg id w1 w2 -> Kept reg id w2 w3 -> Kept reg id w1 w3.
Proof.
  intros [a b c d e f g t o] [a' b' c' d' e' f' g' t' o'].
  split; try congruence.
  - intros m Hm. by rewrite e', e.
  - intros i Hi. by rewrite f', f.
  - intros i Hi. by rewrite g', g.
  - by eapply After_trans.
  - intros i Hi. by rewrite o', o.
Qed.

Lemma Kept_setPluginState reg id s w : Kept reg id w (setPluginState id s w).
Proof.
  split; try done; [| by apply After_same].
  intros id' Hne. cbn. by rewrite lookup_insert_ne.
Qed.

Lemma Kept_retries reg id (f : gmap string nat -> gmap string nat) w :
  (forall id' r, id' <> id -> f r !! id' = r !! id') ->
  Kept reg id w
    (with_loader (fun l => set_retryAttempts (f (retryAttempts l)) l) w).
Proof.
  intros Hf. split; try done; [| by apply After_same].
  intros id' Hne. cbn. by apply Hf.
Qed.

Lemma Kept_random reg id w : Kept reg id w (snd (random w)).
Proof. split; try done. by apply After_same. Qed.

Lemma Kept_record reg id t w : Kept reg id w (record t w).
Proof. split; try done. apply After_record. Qed.

Lemma Kept_update_registry reg id f w :
  (forall id' m, id' <> id -> JsMap.get id' (f m) = JsMap.get id' m) ->
  Kept reg id w (update_map reg f w).
Proof.
  intros Hf. split; try done.
  - cbn. by rewrite length_insert.
  - intros m Hm. by apply map_at_update_ne.
  - by apply After_same.
  - intros id' Hne. unfold registry.
    change (loadedPlugins (loader (update_map reg f w)))
      with (loadedPlugins (loader w)).
    destruct (decide (loadedPlugins (loader w) = reg)) as [-> | Hreg];
      [| by rewrite map_at_update_ne].
    destruct (decide (reg < length (maps w))) as [Hlt | Hge].
    + rewrite map_at_update by done. by apply Hf.
    + unfold map_at, update_map. cbn. by rewrite list_insert_ge by lia.
Qed.

Section loading.
Context (rk : string -> nat) (G : Guard) (h : Host) (reg loaded : nat).
Context (Hreg : kept_map G reg) (Hloaded : kept_map G loaded).
Context (Hapart : reg <> loaded).

(** Callbacks keep the loop's invariant and touch no record. *)
Lemma Loading_Frame w w' :
  Loading rk G h reg loaded w -> Frame G w w' ->
  Loading rk G h reg loaded w' /\ loader w' = loader w /\
  map_at loaded w' = map_at loaded w /\ After w w'.
Proof.
  intros [Hw Hno Hh Hr Hl] F. split; [split |].
  - by eapply Ranked_Frame.
  - intros i m. rewrite (frame_observers _ _ _ F). apply Hno.
  - by rewrite (frame_host _ _ _ F).
  - by rewrite (frame_registry _ _ _ F).
  - by rewrite <- (Forall2_length _ _ _ (frame_maps _ _ _ F)).
  - split; [apply (frame_loader _ _ _ F); by rewrite Hr |].
    split; [by apply (frame_kept_map _ _ _ F) | by eapply Frame_After].
Qed.

(** Callbacks leave the guarded registry as it is. *)
Lemma registry_Frame w w' :
  Loading rk G h reg loaded w -> Frame G w w' -> registry w' = registry w.
Proof.
  intros Hw F. unfold registry. rewrite (frame_registry _ _ _ F).
  apply (frame_kept_map _ _ _ F). by rewrite (loading_registry _ _ _ _ _ _ Hw).
Qed.

Lemma Elsewhere_Frame id w w' :
  Loading rk G h reg loaded w -> Frame G w w' -> Elsewhere loaded id w w'.
Proof.
  intros Hw F. destruct (Loading_Frame w w' Hw F) as (_ & El & Em & _).
  intros id' _. by rewrite El, Em, (registry_Frame w w' Hw F).
Qed.

(** A step of the loader itself keeps the invariant. *)
Lemma Loading_step w w' :
  Loading rk G h reg loaded w -> hub w' = hub w -> host w' = host w ->
  loadedPlugins (loader w') = loadedPlugins (loader w) ->
  length (maps w') = length (maps w) ->
  (forall m, m <> reg -> m <> loaded -> map_at m w' = map_at m w) ->
  Loading rk G h reg loaded w'.
Proof.
  intros [[Hc Hp Hk] Hno Hh Hr Hl] Hhub Hhost Hreg' Hlen Hmaps. split.
  - split.
    + intros i react e. rewrite Hhub, Hreg'. apply Hc.
    + intros i m id plugin e Hin. rewrite Hhub in Hin. rewrite Hreg'.
      destruct (Hno i m Hin) as [? ?]. rewrite Hmaps by done. by apply (Hp i).
    + intros key subject observer v. rewrite Hhub, Hreg'. apply Hk.
  - intros i m. rewrite Hhub. apply Hno.
  - congruence.
  - congruence.
  - by rewrite Hlen.
Qed.

Lemma Loading_Kept id w w' :
  Loading rk G h reg loaded w -> Kept reg id w w' ->
  Loading rk G h reg loaded w' /\ Elsewhere loaded id w w' /\
  map_at loaded w' = map_at loaded w.
Proof.
  intros Hw [a b c d e f g t o]. split; [| split].
  - apply (Loading_step w w'); auto.
  - intros id' Hne. rewrite f, g, o by done. rewrite e; [done | congruence].
  - apply e. congruence.
Qed.

End loading.

(** ** retryLoad *)

Lemma loadPlugin_good reg cfg plugin w :
  loadedPlugins (loader w) = reg -> summon (host w) cfg = inl plugin ->
  exists w', loadPlugin cfg w = (Resolved plugin, w') /\
    Kept reg (cfg_id cfg) w w' /\
    (reg < length (maps w) ->
     JsMap.get (cfg_id cfg) (registry w') = Some plugin).
Proof.
  intros <- Hs. unfold loadPlugin. cbn [host setPluginState with_loader].
  rewrite Hs. eexists. split; [done |]. split.
  2: { intros Hlt. unfold registry, map_at. cbn.
       rewrite list_lookup_insert_eq by done. apply get_set_eq. }
  eapply Kept_trans; [apply Kept_setPluginState |].
  eapply Kept_trans;
    [apply (Kept_update_registry (loadedPlugins (loader w)));
     intros id' m Hne; by apply get_set_ne |].
  eapply Kept_trans; [apply Kept_setPluginState |].
  apply (Kept_retries _ (cfg_id cfg) (delete (cfg_id cfg))).
  intros id' r Hne. by rewrite lookup_delete_ne.
Qed.

Lemma loadPlugin_bad reg cfg message w :
  summon (host w) cfg = inr message ->
  exists error w', loadPlugin cfg w = (Rejected error, w') /\
    Kept reg (cfg_id cfg) w w' /\ maps w' = maps w /\
    retryAttempts (loader w') = retryAttempts (loader w) /\
    pluginStates (loader w') !! cfg_id cfg = Some BANISHED /\
    error_message error = load_failure cfg message.
Proof.
  intros Hs. unfold loadPlugin. cbn [host setPluginState with_loader].
  rewrite Hs. eexists _, _. split; [done |]. split; [| split; [done |]].
  - eapply Kept_trans; apply Kept_setPluginState.
  - split; [done |]. split; [cbn; by rewrite lookup_insert_eq | done].
Qed.

Lemma retryLoad_from_good reg budget cfg plugin n w :
  loadedPlugins (loader w) = reg -> summon (host w) cfg = inl plugin ->
  attempts_of (cfg_id cfg) w < n ->
  exists w', retryLoad_from (S budget) cfg n w = Some (Resolved plugin, w') /\
    Kept reg (cfg_id cfg) w w' /\
    (reg < length (maps w) ->
     JsMap.get (cfg_id cfg) (registry w') = Some plugin).
Proof.
  intros Hr Hs Hn. cbn [retryLoad_from]. fold (attempts_of (cfg_id cfg) w).
  destruct (Nat.leb_spec n (attempts_of (cfg_id cfg) w)); [lia |].
  destruct (loadPlugin_good reg cfg plugin w Hr Hs) as (w' & -> & K & R).
  by exists w'.
Qed.

Lemma retryLoad_from_bad reg cfg message n :
  forall left budget w,
    summon (host w) cfg = inr message ->
    attempts_of (cfg_id cfg) w + left = n -> 0 < left -> left <= budget ->
    exists error w',
      retryLoad_from budget cfg n w = Some (Rejected error, w') /\
      Kept reg (cfg_id cfg) w w' /\ maps w' = maps w /\
      pluginStates (loader w') !! cfg_id cfg = Some BANISHED /\
      error_message error = load_failure cfg message.
Proof.
  induction left as [| left IH]; intros budget w Hs Hn Hpos Hb; [lia |].
  destruct budget as [| budget]; [lia |].
  cbn [retryLoad_from]. fold (attempts_of (cfg_id cfg) w).
  destruct (Nat.leb_spec n (attempts_of (cfg_id cfg) w)); [lia |].
  destruct (loadPlugin_bad reg cfg message w Hs)
    as (error & w1 & -> & K1 & Em1 & Er1 & Es1 & Ee1).
  set (w2 := with_loader _ w1).
  assert (K2 : Kept reg (cfg_id cfg) w1 w2).
  { apply (Kept_retries reg (cfg_id cfg)
             (insert (cfg_id cfg) (S (attempts_of (cfg_id cfg) w)))).
    intros id' r Hne. by rewrite lookup_insert_ne. }
  destruct (Nat.ltb_spec (S (attempts_of (cfg_id cfg) w)) n) as [Hlt | Hge].
  - unfold random. cbv iota beta.
    set (w3 := record _ _).
    assert (K3 : Kept reg (cfg_id cfg) w2 w3).
    { eapply Kept_trans; [apply Kept_random | apply Kept_record]. }
    assert (K03 : Kept reg (cfg_id cfg) w w3) by eauto using Kept_trans.
    destruct (IH budget w3) as (error' & w' & E & K & Em & Es & Ee).
    + by rewrite (kept_host _ _ _ _ K03).
    + unfold attempts_of at 1. cbn. rewrite lookup_insert_eq. cbn. lia.
    + lia.
    + lia.
    + exists error', w'. split; [done |]. split; [| split; [| done]].
      * eauto using Kept_trans.
      * by rewrite Em.
  - exists error, w2. split; [done |]. split; [by eapply Kept_trans |].
    split; [done |]. split; [| done]. done.
Qed.

(** ** initializePlugin and the loop of loadAllPlugins *)

Lemma init_ran_later plugin w w1 w' :
  init_ran plugin w w1 -> After w1 w' -> init_ran plugin w w'.
Proof.
  intros [I Hall] A. split; [by eapply within_After_r |].
  intros e He. destruct (Hall e He) as (e' & He' & Hs).
  exists e'. split; [by eapply within_After_r | done].
Qed.

Lemma init_ran_earlier plugin w w1 w' :
  After w w1 -> init_ran plugin w1 w' -> init_ran plugin w w'.
Proof.
  intros A [I Hall]. split; [by eapply within_After_l |].
  intros e He. destruct (Hall e He) as (e' & He' & Hs).
  exists e'. split; [by eapply within_After_l | done].
Qed.

Section batch.
Context (rk : string -> nat) (G : Guard) (h : Host) (reg loaded : nat).
Context (Hreg : kept_map G reg) (Hloaded : kept_map G loaded).
Context (Hapart : reg <> loaded).
Context (rec : Rec) (depth : nat).
Context (Hrec : Answers rk G depth rec) (Hdepth : forall t, rk t < depth).

Local Abbreviation quiet := (Quiet rk G h reg loaded).

Lemma Quiet_trans id w1 w2 w3 :
  quiet id w1 w2 -> quiet id w2 w3 -> quiet id w1 w3.
Proof.
  intros (_ & E1 & M1 & A1) (L & E2 & M2 & A2).
  split; [done |]. split; [by eapply Elsewhere_trans |].
  split; [congruence | by eapply After_trans].
Qed.

Lemma Quiet_Kept id w w' :
  Loading rk G h reg loaded w -> Kept reg id w w' -> quiet id w w'.
Proof.
  intros Hw K.
  destruct (Loading_Kept rk G h reg loaded Hapart id w w' Hw K) as (L & E & M).
  split; [done |]. split; [done |].
  split; [done | apply (kept_trace _ _ _ _ K)].
Qed.

Lemma Quiet_Frame id w w' :
  Loading rk G h reg loaded w -> Frame G w w' ->
  quiet id w w' /\ loader w' = loader w.
Proof.
  intros Hw F.
  destruct (Loading_Frame rk G h reg loaded Hreg Hloaded w w' Hw F)
    as (L & El & M & A).
  split; [| done]. split; [done |]. split; [| done].
  apply (Elsewhere_Frame rk G h reg loaded Hreg Hloaded id w w' Hw F).
Qed.

Lemma emit_loading id e w :
  Loading rk G h reg loaded w ->
  exists w', emit rec e w = Some w' /\ quiet id w w' /\
    loader w' = loader w /\ within w w' (TNext (fst (stamp e w))) /\
    registry w' = registry w.
Proof.
  intros Hw.
  destruct (emit_spec rk G rec e w) as (w' & E & F & (l & Hl) & _).
  - eapply Answers_mono; [| exact Hrec]. specialize (Hdepth (ev_type e)). lia.
  - apply (loading_ranked _ _ _ _ _ _ Hw).
  - destruct (Quiet_Frame id w w' Hw F) as [Q El].
    exists w'. split; [done |]. split; [done |]. split; [done |].
    split; [| by apply (registry_Frame rk G h reg loaded Hreg w w')].
    exists (TNext (fst (stamp e w)) :: l). split; [done | left].
Qed.

Lemma initializePlugin_good plugin w :
  Loading rk G h reg loaded w -> healthy rk G reg depth plugin ->
  exists w', initializePlugin rec plugin w = Some (Resolved tt, w') /\
    quiet (plugin_id plugin) w w' /\
    (pluginStates (loader w') !! plugin_id plugin = Some ACTIVE \/
     haunt plugin <> None /\
     pluginStates (loader w') !! plugin_id plugin = Some HAUNTING) /\
    registry w' = registry w /\ init_ran plugin w w'.
Proof.
  intros Hw (Hinit & Hcalls & Hhaunt). unfold initializePlugin.
  set (id := plugin_id plugin).
  set (w1 := record (TInit id) (setPluginState id AWAKENING w)).
  assert (Q1 : quiet id w w1).
  { apply Quiet_Kept; [done |].
    eapply Kept_trans; [apply Kept_setPluginState | apply Kept_record]. }
  pose proof (proj1 Q1) as L1.
  unfold run_reaction.
  destruct (run_calls_emits rk G rec depth (calls (init plugin)) w1)
    as (w2 & -> & F2 & Hemits); [done | apply L1 | |].
  { by rewrite (loading_registry _ _ _ _ _ _ L1). }
  rewrite Hinit.
  destruct (Quiet_Frame id w1 w2 L1 F2) as [Q2 _].
  pose proof (proj1 Q2) as L2.
  assert (R2 : registry w2 = registry w)
    by (by rewrite (registry_Frame rk G h reg loaded Hreg w1 w2 L1 F2)).
  assert (I2 : init_ran plugin w w2).
  { split.
    - eapply within_After_r; [| apply Q2].
      exists [TInit id]. split; [done | left].
    - intros e He. destruct (Hemits e He) as (e' & He' & Hs).
      exists e'. split; [| done]. eapply within_After_l; [apply Q1 | done]. }
  set (w3 := setPluginState id ACTIVE w2).
  assert (Q3 : quiet id w2 w3)
    by (apply Quiet_Kept; [done | apply Kept_setPluginState]).
  pose proof (proj1 Q3) as L3.
  assert (Q03 : quiet id w w3) by eauto using Quiet_trans.
  assert (S3 : pluginStates (loader w3) !! id = Some ACTIVE)
    by (cbn; by rewrite lookup_insert_eq).
  assert (I3 : init_ran plugin w w3)
    by (eapply init_ran_later; [exact I2 | apply Q3]).
  destruct (haunt plugin) as [haunting |] eqn:Eh.
  2: { exists w3. split; [done |]. split; [done |]. split; [by left | done]. }
  unfold random. cbv iota beta.
  set (w4 := mkWorld _ _ _ _ _ _ _).
  assert (Q4 : quiet id w3 w4)
    by (apply Quiet_Kept; [done | apply (Kept_random reg id w3)]).
  pose proof (proj1 Q4) as L4.
  assert (Q04 : quiet id w w4) by eauto using Quiet_trans.
  assert (I4 : init_ran plugin w w4)
    by (eapply init_ran_later; [exact I3 | apply Q4]).
  destruct (qlt _ _).
  2: { exists w4. split; [done |]. split; [done |]. split; [by left | done]. }
  set (w5 := setPluginState id HAUNTING w4).
  assert (Q5 : quiet id w4 w5)
    by (apply Quiet_Kept; [done | apply Kept_setPluginState]).
  pose proof (proj1 Q5) as L5.
  assert (Q05 : quiet id w w5) by eauto using Quiet_trans.
  assert (I5 : init_ran plugin w w5)
    by (eapply init_ran_later; [exact I4 | apply Q5]).
  destruct haunting as [message | emissions]; [by destruct (Hhaunt message) |].
  destruct (for_each_spec rk G
              (fun hauntEvent =>
                 emit rec (with_metadata hauntEvent
                   (set_origin id (default noMetadata (metadata hauntEvent)))))
              (fun _ _ _ => True) (emitted emissions) w5 w5)
    as (w6 & -> & F6 & _).
  { intros e wa _ Hwa _.
    destruct (emit_spec rk G rec
                (with_metadata e
                   (set_origin id (default noMetadata (metadata e))))
                wa) as (wb & E & F & _); [| done | by exists wb].
    eapply Answers_mono; [| exact Hrec].
    specialize (Hdepth (ev_type (with_metadata e
      (set_origin id (default noMetadata (metadata e)))))). lia. }
  { apply L5. }
  { apply Frame_refl. }
  cbn [mbind option_bind].
  destruct (Quiet_Frame id w5 w6 L5 F6) as [Q6 El6].
  pose proof (proj1 Q6) as L6.
  assert (Q06 : quiet id w w6) by eauto using Quiet_trans.
  assert (S6 : pluginStates (loader w6) !! id = Some HAUNTING).
  { rewrite El6. cbn. by rewrite lookup_insert_eq. }
  assert (R6 : registry w6 = registry w)
    by (by rewrite (registry_Frame rk G h reg loaded Hreg w5 w6 L5 F6)).
  assert (I6 : init_ran plugin w w6)
    by (eapply init_ran_later; [exact I5 | apply Q6]).
  destruct (ending emissions).
  - exists w6. split; [done |]. split; [done |]. split; [by right | done].
  - eexists. split; [done |]. split; [| split; [| done]].
    + eapply Quiet_trans; [exact Q06 |].
      apply Quiet_Kept; [done | apply Kept_setPluginState].
    + left. cbn. by rewrite lookup_insert_eq.
  - exists w6. split; [done |]. split; [done |]. split; [by right | done].
Qed.

Lemma load_one_bad cfg message w :
  Loading rk G h reg loaded w -> summon h cfg = inr message ->
  attempts_of (cfg_id cfg) w < maxRetries ->
  exists w', load_one rec loaded cfg w = Some w' /\
    quiet (cfg_id cfg) w w' /\
    pluginStates (loader w') !! cfg_id cfg = Some BANISHED /\
    exists e, within w w' (TNext e) /\
      reports_failure cfg (load_failure cfg message) e.
Proof.
  intros Hw Hs Hn. unfold load_one, retryLoad.
  destruct (retryLoad_from_bad reg cfg message maxRetries
              (maxRetries - attempts_of (cfg_id cfg) w) (S maxRetries) w)
    as (error & w1 & -> & K1 & _ & S1 & Ee);
    [by rewrite (loading_host _ _ _ _ _ _ Hw) | lia | lia | lia |].
  cbn [mbind option_bind].
  pose proof (Quiet_Kept (cfg_id cfg) w w1 Hw K1) as Q1.
  destruct (emit_loading (cfg_id cfg) (plugin_load_failed w1 cfg error) w1
              (proj1 Q1)) as (w2 & -> & Q2 & El2 & Hin & _).
  exists w2. split; [done |]. split; [by eapply Quiet_trans |].
  split; [by rewrite El2 |].
  exists (fst (stamp (plugin_load_failed w1 cfg error) w1)).
  split; [eapply within_After_l; [apply Q1 | done] |].
  destruct (stamp_same_message (plugin_load_failed w1 cfg error) w1)
    as (Et & _ & Es & Ed).
  unfold reports_failure. rewrite <- Et, <- Es, <- Ed. cbn. by rewrite Ee.
Qed.

Context (Hbelow : reg < loaded).

Lemma load_one_good cfg plugin w :
  Loading rk G h reg loaded w -> summon h cfg = inl plugin ->
  healthy rk G reg depth plugin -> attempts_of (cfg_id cfg) w < maxRetries ->
  exists w', load_one rec loaded cfg w = Some w' /\
    Loading rk G h reg loaded w' /\ Elsewhere loaded (cfg_id cfg) w w' /\
    After w w' /\
    JsMap.get (cfg_id cfg) (map_at loaded w') = Some plugin /\
    (pluginStates (loader w') !! cfg_id cfg = Some ACTIVE \/
     haunt plugin <> None /\
     pluginStates (loader w') !! cfg_id cfg = Some HAUNTING) /\
    initialized cfg plugin w w'.
Proof.
  intros Hw Hs Hp Hn. unfold load_one, retryLoad.
  pose proof (summon_id h cfg plugin Hs) as Hid.
  set (id := cfg_id cfg) in *.
  destruct (retryLoad_from_good reg maxRetries cfg plugin maxRetries w)
    as (w1 & -> & K1 & R1);
    [apply Hw | by rewrite (loading_host _ _ _ _ _ _ Hw) | done |].
  cbn [mbind option_bind].
  assert (R1' : JsMap.get id (registry w1) = Some plugin).
  { apply R1. pose proof (loading_local _ _ _ _ _ _ Hw). lia. }
  pose proof (Quiet_Kept id w w1 Hw K1) as Q1.
  destruct (initializePlugin_good plugin w1 (proj1 Q1) Hp)
    as (w2 & -> & Q2 & S2 & R2 & I2).
  cbn [mbind option_bind]. rewrite Hid in *.
  pose proof (Quiet_trans id w w1 w2 Q1 Q2) as (L2 & E2 & M2 & A2).
  set (w3 := update_map loaded (JsMap.set id plugin) w2).
  assert (L3 : Loading rk G h reg loaded w3).
  { apply (Loading_step rk G h reg loaded w2 w3); try done.
    - cbn. by rewrite length_insert.
    - intros m _ Hm. by apply map_at_update_ne. }
  assert (M3 : map_at loaded w3 = JsMap.set id plugin (map_at loaded w2)).
  { apply map_at_update. apply L2. }
  assert (R3 : registry w3 = registry w2).
  { unfold registry. change (loadedPlugins (loader w3))
      with (loadedPlugins (loader w2)).
    apply map_at_update_ne. rewrite (loading_registry _ _ _ _ _ _ L2). lia. }
  assert (A03 : After w w3).
  { eapply After_trans; [exact A2 |]. by apply After_same. }
  destruct (emit_loading id (plugin_loaded w3 plugin cfg) w3 L3)
    as (w4 & -> & (L4 & E4 & M4 & A4) & El4 & Hout & R4).
  exists w4. split; [done |]. split; [done |].
  split; [| split; [| split; [| split]]].
  - intros id' Hne. destruct (E2 id' Hne) as (a & b & c & d).
    destruct (E4 id' Hne) as (a' & b' & c' & d').
    rewrite a', b', c', d'. split; [done |]. split; [done |].
    split; [by rewrite M3, get_set_ne |]. by rewrite R3.
  - by eapply After_trans.
  - by rewrite M4, M3, get_set_eq.
  - by rewrite El4.
  - split; [by rewrite R4, R3, R2 |]. split.
    + eapply init_ran_earlier; [apply Q1 |].
      eapply init_ran_later; [exact I2 |].
      eapply After_trans; [| exact A4]. by apply After_same.
    + exists (fst (stamp (plugin_loaded w3 plugin cfg) w3)).
      split; [by eapply within_After_l |].
      destruct (stamp_same_message (plugin_loaded w3 plugin cfg) w3)
        as (Et & _ & Es & Ed).
      unfold reports_loaded. rewrite <- Et, <- Es, <- Ed. cbn.
      by rewrite Hid.
Qed.

Lemma initialized_later cfg plugin w w1 w' :
  initialized cfg plugin w w1 -> After w1 w' ->
  JsMap.get (cfg_id cfg) (registry w') = JsMap.get (cfg_id cfg) (registry w1) ->
  initialized cfg plugin w w'.
Proof.
  intros (R & I & e & He & Hr) A Hreg'. split; [by rewrite Hreg' |].
  split; [by eapply init_ran_later |].
  exists e. split; [by eapply within_After_r | done].
Qed.

Lemma initialized_earlier cfg plugin w w1 w' :
  After w w1 -> initialized cfg plugin w1 w' -> initialized cfg plugin w w'.
Proof.
  intros A (R & I & e & He & Hr). split; [done |].
  split; [by eapply init_ran_earlier |].
  exists e. split; [by eapply within_After_l | done].
Qed.

Lemma load_all cfgs :
  forall w,
    Loading rk G h reg loaded w -> NoDup (map cfg_id cfgs) ->
    (forall cfg, cfg ∈ cfgs -> loadable rk G h reg depth cfg w) ->
    exists w', for_each (load_one rec loaded) cfgs w = Some w' /\
      Loading rk G h reg loaded w' /\ After w w' /\
      (forall id, id ∉ map cfg_id cfgs ->
         JsMap.get id (map_at loaded w') = JsMap.get id (map_at loaded w) /\
         pluginStates (loader w') !! id = pluginStates (loader w) !! id /\
         JsMap.get id (registry w') = JsMap.get id (registry w)) /\
      forall cfg, cfg ∈ cfgs -> dealt_with h loaded cfg w w'.
Proof.
  induction cfgs as [| cfg rest IH]; intros w Hw Hnd Hall.
  - exists w. split; [done |]. split; [done |]. split; [apply After_refl |].
    split; [done |]. intros cfg Hin. by apply elem_of_nil in Hin.
  - cbn [map] in Hnd. apply NoDup_cons in Hnd as [Hfresh Hnd].
    assert (Hstep : exists w1, load_one rec loaded cfg w = Some w1 /\
              Loading rk G h reg loaded w1 /\
              Elsewhere loaded (cfg_id cfg) w w1 /\ After w w1 /\
              dealt_with h loaded cfg w w1).
    { destruct (Hall cfg) as [Hn Hc]; [left |]. unfold dealt_with.
      destruct (summon h cfg) as [plugin | message] eqn:Hs.
      - destruct (load_one_good cfg plugin w Hw Hs Hc Hn)
          as (w1 & E & L & El & A & Hg & Hst & Hi).
        exists w1. do 4 (split; [done |]). by split.
      - destruct (load_one_bad cfg message w Hw Hs Hn)
          as (w1 & E & (L & El & M & A) & Hst & He).
        exists w1. do 4 (split; [done |]). split; [by rewrite M | by split]. }
    destruct Hstep as (w1 & E1 & L1 & El1 & A1 & S1).
    assert (Hother : forall c, c ∈ rest -> cfg_id c <> cfg_id cfg).
    { intros c Hc Heq. apply Hfresh. rewrite <- Heq.
      apply list_elem_of_fmap. by exists c. }
    destruct (IH w1 L1 Hnd) as (w' & E & L & A & Hout & Hin).
    { intros c Hc. destruct (Hall c) as [Hn Hh]; [by right |].
      split; [| done]. unfold attempts_of in *.
      destruct (El1 (cfg_id c) (Hother c Hc)) as (_ & -> & _). done. }
    exists w'. cbn [for_each]. rewrite E1. split; [done |]. split; [done |].
    split; [by eapply After_trans |]. split.
    + intros id Hid. apply not_elem_of_cons in Hid as [Hne Hid].
      destruct (Hout id Hid) as (-> & -> & ->).
      by destruct (El1 id Hne) as (-> & _ & -> & ->).
    + intros c Hc. apply elem_of_cons in Hc as [-> | Hc].
      * destruct (Hout (cfg_id cfg) Hfresh) as (Hg & Hs & Hr).
        unfold dealt_with in *. destruct (summon h cfg) as [plugin | message].
        -- rewrite Hg, Hs. destruct S1 as (a & b & c).
           split; [done |]. split; [done |]. by eapply initialized_later.
        -- rewrite Hg, Hs. destruct S1 as (a & b & e & He & Hr').
           split; [done |]. split; [done |]. exists e.
           split; [by eapply within_After_r | done].
      * specialize (Hin c Hc). unfold dealt_with in *.
        destruct (summon h c) as [plugin | message].
        -- destruct Hin as (a & b & c').
           split; [done |]. split; [done |]. by eapply initialized_earlier.
        -- destruct Hin as (a & b & e & He & Hr).
           destruct (El1 (cfg_id c) (Hother c Hc)) as (_ & _ & Hg & _).
           split; [by rewrite a |]. split; [done |]. exists e.
           split; [by eapply within_After_l | done].
Qed.

End batch.

Lemma Loading_new_map rk G w :
  Ranked rk G w ->
  (forall i m, (i, PluginRouter m) ∈ observers (hub w) ->
     m <> loadedPlugins (loader w) /\ m < length (maps w)) ->
  Loading rk G (host w) (loadedPlugins (loader w)) (length (maps w))
          (snd (new_map JsMap.empty w)) /\
  map_at (length (maps w)) (snd (new_map JsMap.empty w)) = JsMap.empty.
Proof.
  intros [Hc Hp Hk] Hr. split; [split; [split | | | |] |]; cbn.
  - apply Hc.
  - intros i m id plugin e Hin Hent. apply (Hp i m); [done |].
    destruct (Hr i m Hin) as [_ Hlt].
    unfold map_at in *. cbn in Hent. by rewrite lookup_app_l in Hent.
  - apply Hk.
  - intros i m Hin. destruct (Hr i m Hin). split; [done | lia].
  - done.
  - done.
  - rewrite length_app. cbn. lia.
  - unfold map_at. cbn. by rewrite list_lookup_middle.
Qed.

(** C5 (batch resilience).  For a manifest in which exactly one
    descriptor's plugin fails to load at every attempt while every other
    descriptor's plugin is healthy, on a hub that answers its callbacks,
    [loadAllPlugins] returns its map of loaded plugins.  Every other
    descriptor's plugin was loaded and initialized: it is in the loader's
    registry and in the returned map, its [init] hook was called and the
    events the hook emitted went out on the hub, a [plugin_loaded] event
    naming it went out, and it ended up active (or haunting, the state of
    an active plugin that opted into spontaneous events).  The returned
    map holds nothing else; the failed descriptor is banished and a
    [plugin_load_failed] event naming it went out on the hub. *)
Theorem batch_survives_one_failure
    (rk : string -> nat) (G : Guard) (depth : nat) (manifestPath : string)
    (w : World) (manifest : PluginManifest)
    (before after : list PluginConfig) (bad : PluginConfig)
    (message : string) :
  loadManifest manifestPath w = Resolved manifest ->
  plugins manifest = before ++ bad :: after ->
  NoDup (map cfg_id (plugins manifest)) ->
  summon (host w) bad = inr message ->
  (forall cfg, cfg ∈ before ++ after ->
     exists plugin, summon (host w) cfg = inl plugin /\
       healthy rk G (loadedPlugins (loader w)) depth plugin) ->
  (forall cfg, cfg ∈ plugins manifest ->
     attempts_of (cfg_id cfg) w < maxRetries) ->
  Ranked rk G w -> (forall t, rk t < depth) ->
  kept_map G (loadedPlugins (loader w)) -> kept_map G (length (maps w)) ->
  loadedPlugins (loader w) < length (maps w) ->
  (forall i m, (i, PluginRouter m) ∈ observers (hub w) ->
     m <> loadedPlugins (loader w) /\ m < length (maps w)) ->
  exists loaded w',
    loadAllPlugins (run_call depth) manifestPath w
      = Some (Resolved loaded, w') /\
    (forall cfg, cfg ∈ before ++ after ->
       exists plugin, summon (host w) cfg = inl plugin /\
         JsMap.get (cfg_id cfg) (map_at loaded w') = Some plugin /\
         (getPluginState (cfg_id cfg) w' = Some ACTIVE \/
          haunt plugin <> None /\
          getPluginState (cfg_id cfg) w' = Some HAUNTING) /\
         initialized cfg plugin w w') /\
    (forall id plugin, JsMap.get id (map_at loaded w') = Some plugin ->
       exists cfg, cfg ∈ before ++ after /\ cfg_id cfg = id) /\
    getPluginState (cfg_id bad) w' = Some BANISHED /\
    exists e, within w w' (TNext e) /\
      reports_failure bad (load_failure bad message) e.
Proof.
  intros Hm Hps Hnd Hbad Hgood Hfresh Hw Hdepth Hreg Hloaded Halloc Hrouters.
  set (reg := loadedPlugins (loader w)) in *.
  set (loaded := length (maps w)) in *.
  set (h := host w) in *.
  assert (Hapart : reg <> loaded) by lia.
  pose proof (run_call_spec rk G depth) as Hrec.
  unfold loadAllPlugins. rewrite Hm. unfold new_map. cbv iota beta.
  fold loaded.
  destruct (Loading_new_map rk G w Hw Hrouters) as [L0 M0].
  cbn [new_map snd] in L0, M0. fold reg loaded h in L0, M0.
  set (w0 := with_maps _ w) in *.
  destruct (emit_loading rk G h reg loaded Hreg Hloaded Hapart
              (run_call depth) depth Hrec Hdepth EmptyString
              (manifest_loading w0 manifestPath manifest) w0 L0)
    as (w1 & -> & (L1 & _ & M1 & A1) & El1 & _).
  cbn [mbind option_bind].
  destruct (load_all rk G h reg loaded Hreg Hloaded Hapart
              (run_call depth) depth Hrec Hdepth Halloc (plugins manifest)
              w1 L1 Hnd)
    as (w2 & -> & L2 & A2 & Hout & Hin).
  { intros cfg Hcfg. split.
    - unfold attempts_of. rewrite El1. apply (Hfresh cfg Hcfg).
    - rewrite Hps in Hcfg.
      destruct (summon h cfg) as [plugin | msg] eqn:Hs; [| done].
      apply elem_of_app in Hcfg as [Hc | Hc];
        [| apply elem_of_cons in Hc as [-> | Hc]; [congruence |]].
      + destruct (Hgood cfg) as (p & Hp & Hh); [apply elem_of_app; by left |].
        congruence.
      + destruct (Hgood cfg) as (p & Hp & Hh); [apply elem_of_app; by right |].
        congruence. }
  cbn [mbind option_bind].
  destruct (emit_loading rk G h reg loaded Hreg Hloaded Hapart
              (run_call depth) depth Hrec Hdepth EmptyString
              (coven_assembled w2 (length (plugins manifest))
                 (JsMap.size (map_at loaded w2))) w2 L2)
    as (w3 & -> & (L3 & _ & M3 & A3) & El3 & _ & R3).
  cbn [mbind option_bind].
  assert (A01 : After w w1).
  { eapply After_trans; [| exact A1]. by apply After_same. }
  assert (Hempty : forall id, JsMap.get id (map_at loaded w1) = None).
  { intros id. by rewrite M1, M0. }
  assert (Hsplit : forall cfg,
            cfg ∈ before ++ after -> cfg ∈ plugins manifest).
  { intros cfg Hc. rewrite Hps. apply elem_of_app.
    apply elem_of_app in Hc as [Hc | Hc]; [by left | right; by right]. }
  exists loaded, w3. split; [done |]. split; [| split; [| split]].
  - intros cfg Hcfg. destruct (Hgood cfg Hcfg) as (plugin & Hs & _).
    specialize (Hin cfg (Hsplit cfg Hcfg)). unfold dealt_with in Hin.
    fold h in Hs. rewrite Hs in Hin. destruct Hin as (Hg & Hst & Hi).
    exists plugin. split; [done |]. unfold getPluginState.
    rewrite M3, El3. split; [done |]. split; [done |].
    eapply initialized_earlier; [exact A01 |].
    eapply initialized_later; [exact Hi | exact A3 | by rewrite R3].
  - intros id plugin Hg. rewrite M3 in Hg.
    destruct (decide (id ∈ map cfg_id (plugins manifest))) as [Hid | Hid].
    + apply list_elem_of_fmap in Hid as (cfg & -> & Hcfg).
      rewrite Hps in Hcfg.
      apply elem_of_app in Hcfg as [Hc | Hc];
        [| apply elem_of_cons in Hc as [-> | Hc]].
      * exists cfg. split; [apply elem_of_app; by left | done].
      * assert (Hb : bad ∈ plugins manifest).
        { rewrite Hps. apply elem_of_app. right. left. }
        specialize (Hin bad Hb). unfold dealt_with in Hin. rewrite Hbad in Hin.
        destruct Hin as (Hsame & _). rewrite Hsame, Hempty in Hg. done.
      * exists cfg. split; [apply elem_of_app; by right | done].
    + destruct (Hout id Hid) as [Hsame _]. by rewrite Hsame, Hempty in Hg.
  - assert (Hb : bad ∈ plugins manifest).
    { rewrite Hps. apply elem_of_app. right. left. }
    specialize (Hin bad Hb). unfold dealt_with in Hin. rewrite Hbad in Hin.
    destruct Hin as (_ & Hst & _). unfold getPluginState. by rewrite El3.
  - assert (Hb : bad ∈ plugins manifest).
    { rewrite Hps. apply elem_of_app. right. left. }
    specialize (Hin bad Hb). unfold dealt_with in Hin. rewrite Hbad in Hin.
    destruct Hin as (_ & _ & e & He & Hr). exists e. split; [| done].
    eapply within_After_l; [exact A01 |]. by eapply within_After_r.
Qed.

Lemma manor_ranked : Ranked (fun _ => 0) manor_maps manor.
Proof.
  split.
  - intros i react e Hin. cbn in Hin.
    apply list_elem_of_singleton in Hin. injection Hin as _ ->.
    split; [constructor | discriminate].
  - intros i m id plugin e Hin. cbn in Hin.
    apply list_elem_of_singleton in Hin. discriminate.
  - intros key subject observer v Hk. cbn in Hk. by rewrite lookup_empty in Hk.
Qed.

Lemma batch_survives_one_failure_witness :
  loadManifest "coven.yaml" manor
    = Resolved (mkManifest [banshee_config; ghoul_config; wraith_config]
                           "1.0.0" (VStr "moderate")) /\
  summon (host manor) ghoul_config = inr "the grave is empty" /\
  exists loaded w',
    loadAllPlugins (run_call 1) "coven.yaml" manor
      = Some (Resolved loaded, w') /\
    (forall cfg, cfg ∈ [banshee_config] ++ [wraith_config] ->
       exists plugin, summon (host manor) cfg = inl plugin /\
         JsMap.get (cfg_id cfg) (map_at loaded w') = Some plugin /\
         (getPluginState (cfg_id cfg) w' = Some ACTIVE \/
          haunt plugin <> None /\
          getPluginState (cfg_id cfg) w' = Some HAUNTING) /\
         initialized cfg plugin manor w') /\
    (forall id plugin, JsMap.get id (map_at loaded w') = Some plugin ->
       exists cfg, cfg ∈ [banshee_config] ++ [wraith_config] /\
         cfg_id cfg = id) /\
    getPluginState (cfg_id ghoul_config) w' = Some BANISHED /\
    exists e, within manor w' (TNext e) /\
      reports_failure ghoul_config
        (load_failure ghoul_config "the grave is empty") e.
Proof.
  split; [reflexivity |]. split; [reflexivity |].
  apply (batch_survives_one_failure (fun _ => 0) manor_maps 1 "coven.yaml"
           manor
           (mkManifest [banshee_config; ghoul_config; wraith_config]
                       "1.0.0" (VStr "moderate"))
           [banshee_config] [wraith_config] ghoul_config
           "the grave is empty").
  - reflexivity.
  - reflexivity.
  - cbn.
    repeat (apply NoDup_cons; split;
            [intros H; repeat (apply elem_of_cons in H as [H | H];
                               [discriminate |]); by apply elem_of_nil in H |]).
    apply NoDup_nil_2.
  - reflexivity.
  - intros cfg Hcfg. cbn in Hcfg.
    repeat (apply elem_of_cons in Hcfg as [-> | Hcfg]).
    + eexists. split; [reflexivity |].
      split; [reflexivity |]. split; [constructor | discriminate].
    + eexists. split; [reflexivity |].
      split; [reflexivity |]. split; [constructor | discriminate].
    + by apply elem_of_nil in Hcfg.
  - intros cfg Hcfg. unfold attempts_of.
    change (retryAttempts (loader manor)) with (∅ : gmap string nat).
    rewrite lookup_empty. cbn. unfold maxRetries. lia.
  - apply manor_ranked.
  - intros t. lia.
  - cbn. lia.
  - cbn. lia.
  - cbn. lia.
  - intros i m Hin. cbn in Hin.
    apply list_elem_of_singleton in Hin. discriminate.
Defined.

(* ===================================================================== *)
(** * The loader's retries, registry and manifest *)
(* ===================================================================== *)

Lemma backoff_cons w first count :
  backoff w first (S count)
  = TTimer (retryDelay * pow2 first
            + Math_random (host w) (randomCalls w) * 1000)%Q
    :: map (fun j =>
              TTimer (retryDelay * pow2 (S first + j)
                      + Math_random (host w) (S (randomCalls w) + j) * 1000)%Q)
           (seq 0 count).
Proof.
  unfold backoff. cbn [seq map]. rewrite !Nat.add_0_r. f_equal.
  rewrite <- seq_shift, map_map. apply map_ext. intros j.
  by rewrite !Nat.add_succ_r.
Qed.

Lemma retryLoad_from_exhausts cfg message n :
  forall left budget w,
    summon (host w) cfg = inr message ->
    attempts_of (cfg_id cfg) w + left = n -> 0 < left -> left <= budget ->
    exists error w',
      retryLoad_from budget cfg n w = Some (Rejected error, w') /\
      error_message error = load_failure cfg message /\
      attempts_of (cfg_id cfg) w' = n /\
      pluginStates (loader w') !! cfg_id cfg = Some BANISHED /\
      maps w' = maps w /\ hub w' = hub w /\ host w' = host w /\
      loadedPlugins (loader w') = loadedPlugins (loader w) /\
      iterators w' = iterators w /\
      trace w' = trace w
                 ++ backoff w (S (attempts_of (cfg_id cfg) w)) (left - 1).
Proof.
  induction left as [| left IH]; intros budget w Hs Hn Hpos Hb; [lia |].
  destruct budget as [| budget]; [lia |].
  cbn [retryLoad_from]. fold (attempts_of (cfg_id cfg) w).
  set (a := attempts_of (cfg_id cfg) w) in *.
  destruct (Nat.leb_spec n a); [lia |].
  unfold loadPlugin. cbn [host setPluginState with_loader]. rewrite Hs.
  destruct (Nat.ltb_spec (S a) n) as [Hlt | Hge].
  - unfold random. cbv iota beta.
    set (w3 := record _ _).
    destruct (IH budget w3) as (error & w' & E & Ee & Ea & Es & Em & Eh & Eo & Er & Ei & Et).
    + done.
    + unfold attempts_of at 1. cbn. rewrite lookup_insert_eq. cbn. lia.
    + lia.
    + lia.
    + exists error, w'. split; [done |]. split; [done |]. split; [done |].
      split; [done |]. split; [by rewrite Em |]. split; [by rewrite Eh |].
      split; [by rewrite Eo |]. split; [by rewrite Er |].
      split; [by rewrite Ei |].
      rewrite Et. destruct left as [| left]; [lia |].
      cbn [Nat.sub]. rewrite Nat.sub_0_r. rewrite backoff_cons.
      assert (Ha3 : attempts_of (cfg_id cfg) w3 = S a).
      { unfold attempts_of. cbn. by rewrite lookup_insert_eq. }
      rewrite Ha3. cbn [trace w3 record]. rewrite <- app_assoc. cbn [app].
      reflexivity.
  - assert (left = 0) as -> by lia. cbn [Nat.sub backoff seq map].
    eexists _, _. split; [reflexivity |]. split; [reflexivity |].
    split; [unfold attempts_of; cbn; rewrite lookup_insert_eq; cbn; lia |].
    split; [cbn; by rewrite lookup_insert_eq |].
    cbn. by rewrite app_nil_r.
Qed.

(** X1 ([retryLoad]).  A plugin that fails to load at every attempt is
    tried until its counter reaches [maxRetries]: the call rejects with the
    error of the last attempt, the counter stands at [maxRetries], the
    plugin is banished, the registry is as before, and between two
    attempts the loader waited [retryDelay * 2^attempt] milliseconds plus
    up to a second of jitter, so [maxRetries - attempts - 1] times. *)
Theorem retryLoad_gives_up cfg message n w :
  summon (host w) cfg = inr message ->
  attempts_of (cfg_id cfg) w < n ->
  exists error w',
    retryLoad cfg n w = Some (Rejected error, w') /\
    error_message error = load_failure cfg message /\
    attempts_of (cfg_id cfg) w' = n /\
    getPluginState (cfg_id cfg) w' = Some BANISHED /\
    registry w' = registry w /\
    trace w' = trace w
               ++ backoff w (S (attempts_of (cfg_id cfg) w))
                          (n - attempts_of (cfg_id cfg) w - 1).
Proof.
  intros Hs Hn. unfold retryLoad.
  destruct (retryLoad_from_exhausts cfg message n
              (n - attempts_of (cfg_id cfg) w) (S n) w)
    as (error & w' & E & Ee & Ea & Es & Em & _ & _ & Er & _ & Et);
    [done | lia | lia | lia |].
  exists error, w'. split; [done |]. split; [done |]. split; [done |].
  split; [done |]. split; [| done].
  unfold registry, map_at. by rewrite Em, Er.
Qed.

Lemma retryLoad_gives_up_witness :
  exists error w',
    retryLoad ghoul_config 3 manor = Some (Rejected error, w') /\
    error_message error = load_failure ghoul_config "the grave is empty" /\
    attempts_of "ghoul" w' = 3 /\
    getPluginState "ghoul" w' = Some BANISHED /\
    registry w' = registry manor /\
    trace w' = trace manor ++ backoff manor 1 2.
Proof.
  apply (retryLoad_gives_up ghoul_config "the grave is empty" 3 manor).
  - reflexivity.
  - vm_compute. lia.
Defined.

(** X2 ([retryLoad]).  Once a plugin has used up its retries, the loader
    never tries it again: a later [retryLoad] of the descriptor rejects at
    once with the "failed to load after n attempts" error and changes
    nothing, whatever the module on disk has become. *)
Theorem used_up_retries_are_final cfg message n w h' :
  summon (host w) cfg = inr message ->
  attempts_of (cfg_id cfg) w < n ->
  exists error w',
    retryLoad cfg n w = Some (Rejected error, w') /\
    exists error',
      retryLoad cfg n (on_host h' w')
        = Some (Rejected error', on_host h' w') /\
      error_message error' = retries_used_up cfg n.
Proof.
  intros Hs Hn. unfold retryLoad at 1.
  destruct (retryLoad_from_exhausts cfg message n
              (n - attempts_of (cfg_id cfg) w) (S n) w)
    as (error & w' & E & _ & Ea & _); [done | lia | lia | lia |].
  exists error, w'. split; [done |].
  unfold retryLoad. cbn [retryLoad_from].
  change (retryAttempts (loader (on_host h' w')))
    with (retryAttempts (loader w')).
  fold (attempts_of (cfg_id cfg) w'). rewrite Ea, Nat.leb_refl.
  eexists. split; reflexivity.
Qed.

Lemma used_up_retries_are_final_witness :
  (exists plugin, summon restored_host ghoul_config = inl plugin) /\
  exists error w',
    retryLoad ghoul_config 3 manor = Some (Rejected error, w') /\
    exists error',
      retryLoad ghoul_config 3 (on_host restored_host w')
        = Some (Rejected error', on_host restored_host w') /\
      error_message error' = retries_used_up ghoul_config 3.
Proof.
  split; [eexists; reflexivity |].
  apply (used_up_retries_are_final ghoul_config "the grave is empty" 3
           manor restored_host).
  - reflexivity.
  - vm_compute. lia.
Defined.

Lemma get_delete_ne {V} key key' (m : JsMap.t V) :
  key <> key' -> JsMap.get key (JsMap.delete key' m) = JsMap.get key m.
Proof.
  intros Hne. apply String.eqb_neq in Hne.
  induction m as [| [[k x] |] m IH]; cbn; [done | | done].
  destruct (String.eqb key' k) eqn:E; cbn.
  - apply String.eqb_eq in E as <-. by rewrite Hne.
  - by rewrite IH.
Qed.

(** X3 ([loadPlugin], [teardownPlugin]).  Loading a plugin whose module
    constructs and validates registers it as dormant and clears its retry
    counter; tearing it down then (its hook returning) leaves no record of
    it and touches no other plugin's entry, and a second teardown of the
    same id rejects with "not found" and changes nothing. *)
Theorem load_then_teardown cfg plugin w :
  summon (host w) cfg = inl plugin ->
  loadedPlugins (loader w) < length (maps w) ->
  teardown plugin = Returns ->
  exists w1 w2,
    loadPlugin cfg w = (Resolved plugin, w1) /\
    JsMap.get (cfg_id cfg) (registry w1) = Some plugin /\
    getPluginState (cfg_id cfg) w1 = Some DORMANT /\
    retryAttempts (loader w1) !! cfg_id cfg = None /\
    teardownPlugin (cfg_id cfg) w1 = (Resolved tt, w2) /\
    JsMap.get (cfg_id cfg) (registry w2) = None /\
    getPluginState (cfg_id cfg) w2 = None /\
    (forall id, id <> cfg_id cfg ->
       JsMap.get id (registry w2) = JsMap.get id (registry w) /\
       getPluginState id w2 = getPluginState id w) /\
    teardownPlugin (cfg_id cfg) w2
      = (Rejected (PlainError ("Plugin '" +:+ cfg_id cfg +:+ "' not found")),
         w2).
Proof.
  intros Hs Hreg Hdown. unfold loadPlugin.
  cbn [host setPluginState with_loader]. rewrite Hs.
  set (w1 := with_loader _ _).
  assert (R1 : registry w1
               = JsMap.set (cfg_id cfg) plugin (registry w)).
  { unfold registry, map_at. cbn. by rewrite list_lookup_insert_eq. }
  assert (G1 : JsMap.get (cfg_id cfg) (registry w1) = Some plugin)
    by (rewrite R1; apply get_set_eq).
  assert (L1 : loadedPlugins (loader w1) < length (maps w1))
    by (cbn; by rewrite length_insert).
  destruct (teardownPlugin (cfg_id cfg) w1) as [r w2] eqn:E2.
  unfold teardownPlugin in E2. rewrite G1, Hdown in E2.
  injection E2 as <- E2. pose proof (eq_sym E2) as E2'. clear E2.
  assert (E2 : teardownPlugin (cfg_id cfg) w1 = (Resolved tt, w2)).
  { unfold teardownPlugin. by rewrite G1, Hdown, E2'. }
  assert (R2 : registry w2 = JsMap.delete (cfg_id cfg) (registry w1)).
  { rewrite E2'. unfold registry, map_at. cbn.
    rewrite list_lookup_insert_eq; [done |].
    rewrite length_insert. exact Hreg. }
  assert (G2 : JsMap.get (cfg_id cfg) (registry w2) = None)
    by (rewrite R2; apply get_delete).
  exists w1, w2. split; [done |]. split; [done |].
  split; [unfold getPluginState; cbn; by rewrite lookup_insert_eq |].
  split; [cbn; by rewrite lookup_delete_eq |].
  split; [done |]. split; [done |].
  split; [rewrite E2'; unfold getPluginState; cbn; by rewrite lookup_delete_eq |].
  split.
  - intros id Hne. split.
    + by rewrite R2, get_delete_ne, R1, get_set_ne.
    + rewrite E2'. unfold getPluginState. cbn.
      by rewrite lookup_delete_ne, !lookup_insert_ne.
  - unfold teardownPlugin. by rewrite G2.
Qed.

Lemma load_then_teardown_witness :
  exists plugin w1 w2,
    summon (host manor) banshee_config = inl plugin /\
    loadPlugin banshee_config manor = (Resolved plugin, w1) /\
    JsMap.get "banshee" (registry w1) = Some plugin /\
    teardownPlugin "banshee" w1 = (Resolved tt, w2) /\
    JsMap.get "banshee" (registry w2) = None /\
    teardownPlugin "banshee" w2
      = (Rejected (PlainError "Plugin 'banshee' not found"), w2).
Proof.
  eexists.
  destruct (load_then_teardown banshee_config _ manor eq_refl)
    as (w1 & w2 & E1 & G1 & _ & _ & E2 & G2 & _ & _ & E3).
  - cbn. lia.
  - reflexivity.
  - exists w1, w2. split; [reflexivity |]. split; [exact E1 |].
    split; [exact G1 |]. split; [exact E2 |]. split; [exact G2 | exact E3].
Defined.

Lemma entries_copy {V} (m : JsMap.t V) :
  JsMap.entries (JsMap.copy m) = JsMap.entries m.
Proof.
  unfold JsMap.copy. induction (JsMap.entries m) as [| kv l IH]; cbn;
    [done | by rewrite IH].
Qed.

(** X4 ([getLoadedPlugins]).  The map it returns is a copy: it lists the
    registry's plugins in the registry's order, deleting from it leaves
    the registry as it was, and a later [teardownPlugin] (which deletes
    from the registry) leaves the copy as it was. *)
Theorem getLoadedPlugins_is_a_copy w :
  loadedPlugins (loader w) < length (maps w) ->
  exists m w',
    getLoadedPlugins w = (m, w') /\
    JsMap.entries (map_at m w') = JsMap.entries (registry w) /\
    registry w' = registry w /\
    (forall key,
       registry (update_map m (JsMap.delete key) w') = registry w) /\
    (forall pluginId,
       map_at m (snd (teardownPlugin pluginId w')) = map_at m w').
Proof.
  intros Hreg. unfold getLoadedPlugins, new_map.
  set (w' := with_maps _ w).
  assert (R : registry w' = registry w).
  { unfold registry, map_at. cbn. by rewrite lookup_app_l. }
  assert (M : map_at (length (maps w)) w' = JsMap.copy (registry w)).
  { unfold map_at. cbn. by rewrite list_lookup_middle. }
  exists (length (maps w)), w'. split; [done |].
  split; [by rewrite M, entries_copy |]. split; [done |]. split.
  - intros key. rewrite <- R. unfold registry.
    change (loadedPlugins (loader (update_map _ _ w')))
      with (loadedPlugins (loader w')).
    apply map_at_update_ne. cbn. lia.
  - intros pluginId. unfold teardownPlugin.
    destruct (JsMap.get pluginId (registry w')) as [plugin |]; [| done].
    destruct (teardown plugin); [| done]. cbn [snd].
    unfold map_at. cbn. rewrite list_lookup_insert_ne; [done | lia].
Qed.

Lemma getLoadedPlugins_is_a_copy_witness :
  exists m w',
    getLoadedPlugins haunted_house = (m, w') /\
    JsMap.entries (map_at m w') = JsMap.entries (registry haunted_house) /\
    registry w' = registry haunted_house /\
    (forall key,
       registry (update_map m (JsMap.delete key) w')
       = registry haunted_house) /\
    (forall pluginId,
       map_at m (snd (teardownPlugin pluginId w')) = map_at m w').
Proof.
  apply (getLoadedPlugins_is_a_copy haunted_house). cbn. lia.
Defined.


Lemma entries_set {V} key (v : V) (m : JsMap.t V) kv :
  kv ∈ JsMap.entries (JsMap.set key v m) ->
  kv = (key, v) \/ kv ∈ JsMap.entries m.
Proof.
  induction m as [| [[k x] |] m IH]; cbn.
  - intros H. apply list_elem_of_singleton in H. by left.
  - destruct (String.eqb key k); cbn; intros H;
      apply elem_of_cons in H as [-> | H].
    + by left.
    + right. by right.
    + right. left.
    + destruct (IH H) as [-> | H']; [by left | right; by right].
  - done.
Qed.

Lemma entries_delete {V} key (m : JsMap.t V) kv :
  kv ∈ JsMap.entries (JsMap.delete key m) -> kv ∈ JsMap.entries m.
Proof.
  induction m as [| [[k x] |] m IH]; cbn; [done | | done].
  destruct (String.eqb key k); cbn; intros H.
  - right. by apply IH.
  - apply elem_of_cons in H as [-> | H]; [left | right; by apply IH].
Qed.

Lemma registry_update f w w0 :
  maps w = <[loadedPlugins (loader w0) := f (registry w0)]> (maps w0) ->
  loadedPlugins (loader w) = loadedPlugins (loader w0) ->
  registry w = f (registry w0) \/ registry w = registry w0.
Proof.
  unfold registry, map_at. intros -> ->.
  destruct (maps w0 !! loadedPlugins (loader w0)) as [m |] eqn:E.
  - left. by rewrite list_lookup_insert_eq by (by eapply lookup_lt_Some).
  - right. rewrite list_insert_ge by (by apply lookup_ge_None).
    by rewrite E.
Qed.

Lemma keyed_loadPlugin cfg w :
  keyed_by_id (registry w) -> keyed_by_id (registry (snd (loadPlugin cfg w))).
Proof.
  intros Hk. unfold loadPlugin. cbn [host setPluginState with_loader].
  destruct (summon (host w) cfg) as [plugin | message] eqn:Hs; [| exact Hk].
  cbn [snd].
  match goal with |- keyed_by_id (registry ?w1) =>
    destruct (registry_update (JsMap.set (cfg_id cfg) plugin) w1 w)
      as [E | E]; [reflexivity | reflexivity | |]; rewrite E; [| exact Hk]
  end.
  intros id p Hin. apply entries_set in Hin as [[= -> ->] | Hin].
  - by apply summon_id with (host w).
  - by apply Hk.
Qed.

Lemma keyed_retryLoad_from cfg n budget :
  forall w r w',
    keyed_by_id (registry w) ->
    retryLoad_from budget cfg n w = Some (r, w') ->
    keyed_by_id (registry w').
Proof.
  induction budget as [| budget IH]; intros w r w' Hk; [discriminate |].
  cbn [retryLoad_from]. destruct (n <=? _); [by intros [= _ <-] |].
  pose proof (keyed_loadPlugin cfg w Hk) as Hk1.
  destruct (loadPlugin cfg w) as [[plugin | error] w1]; cbn [snd] in Hk1;
    [by intros [= _ <-] |].
  destruct (_ <? n); [| by intros [= _ <-]].
  unfold random. cbv iota beta. apply IH. exact Hk1.
Qed.

(** X6 (the loader's registry).  Every plugin of the registry is stored
    under its own id, and [loadPlugin], [retryLoad] and [teardownPlugin]
    keep it so: [validatePlugin] lets no plugin through whose id differs
    from its descriptor's. *)
Theorem registry_keys_are_ids w :
  keyed_by_id (registry w) ->
  (forall cfg, keyed_by_id (registry (snd (loadPlugin cfg w)))) /\
  (forall cfg n r w',
     retryLoad cfg n w = Some (r, w') -> keyed_by_id (registry w')) /\
  (forall pluginId, keyed_by_id (registry (snd (teardownPlugin pluginId w)))).
Proof.
  intros Hk. split; [| split].
  - intros cfg. by apply keyed_loadPlugin.
  - intros cfg n r w'. by apply keyed_retryLoad_from.
  - intros pluginId. unfold teardownPlugin.
    destruct (JsMap.get pluginId (registry w)) as [plugin |]; [| exact Hk].
    destruct (teardown plugin); [| exact Hk]. cbn [snd].
    match goal with |- keyed_by_id (registry ?w1) =>
      destruct (registry_update (JsMap.delete pluginId) w1 w)
        as [E | E]; [reflexivity | reflexivity | |]; rewrite E; [| exact Hk]
    end.
    intros id p Hin. apply Hk. by eapply entries_delete.
Qed.

Lemma haunted_house_keyed : keyed_by_id (registry haunted_house).
Proof.
  intros id plugin Hin. cbn in Hin.
  apply list_elem_of_singleton in Hin. by injection Hin as -> ->.
Qed.

Lemma registry_keys_are_ids_witness :
  (forall cfg, keyed_by_id (registry (snd (loadPlugin cfg haunted_house)))) /\
  (forall cfg n r w',
     retryLoad cfg n haunted_house = Some (r, w') ->
     keyed_by_id (registry w')) /\
  (forall pluginId,
     keyed_by_id (registry (snd (teardownPlugin pluginId haunted_house)))).
Proof.
  apply (registry_keys_are_ids haunted_house). apply haunted_house_keyed.
Defined.

(* ===================================================================== *)
(** * The outcome of a batch *)
(* ===================================================================== *)

Lemma Ranked_loader rk G w w' :
  Ranked rk G w -> hub w' = hub w -> maps w' = maps w ->
  loadedPlugins (loader w') = loadedPlugins (loader w) -> Ranked rk G w'.
Proof.
  intros [Hc Hp Hk] Hhub Hmaps Hreg. split.
  - intros i react e. rewrite Hhub, Hreg. apply Hc.
  - intros i m id plugin e. rewrite Hhub, Hreg. unfold map_at.
    rewrite Hmaps. apply Hp.
  - intros key subject observer v. rewrite Hhub, Hreg. apply Hk.
Qed.

Lemma initializePlugin_throws rk G rec depth plugin message w :
  Answers rk G depth rec -> Ranked rk G w ->
  tame rk G (loadedPlugins (loader w)) depth (calls (init plugin)) ->
  outcome (init plugin) = Throws message ->
  exists error w1 w',
    initializePlugin rec plugin w = Some (Rejected error, w') /\
    error_message error = init_failure plugin message /\
    Frame G (setPluginState (plugin_id plugin) AWAKENING w) w1 /\
    w' = setPluginState (plugin_id plugin) BANISHED w1.
Proof.
  intros Hrec Hw Hcalls Hinit. unfold initializePlugin.
  destruct (run_reaction_spec rk G rec depth (init plugin)
              (record (TInit (plugin_id plugin))
                 (setPluginState (plugin_id plugin) AWAKENING w)))
    as (w1 & -> & F); [done | by apply (Ranked_loader rk G w) | done |].
  rewrite Hinit. eexists _, w1, _. split; [done |]. split; [done |].
  split; [| done]. eapply Frame_trans; [| exact F]. by apply Frame_record.
Qed.

(** X8 ([retryLoad], [initializePlugin]).  A plugin that loads and whose
    [init] throws is rejected by [initializePlugin] with a
    [Failed to initialize] error and banished, and it stays in the
    loader's registry: [loadPlugin] put it there and nothing removes it. *)
Theorem failed_init_stays_registered rk G depth cfg plugin message w :
  summon (host w) cfg = inl plugin ->
  outcome (init plugin) = Throws message ->
  attempts_of (cfg_id cfg) w < maxRetries ->
  Ranked rk G w ->
  tame rk G (loadedPlugins (loader w)) depth (calls (init plugin)) ->
  kept_map G (loadedPlugins (loader w)) ->
  loadedPlugins (loader w) < length (maps w) ->
  (forall i m, (i, PluginRouter m) ∈ observers (hub w) ->
     m <> loadedPlugins (loader w)) ->
  exists w1 error w2,
    retryLoad cfg maxRetries w = Some (Resolved plugin, w1) /\
    initializePlugin (run_call depth) plugin w1 = Some (Rejected error, w2) /\
    error_message error = init_failure plugin message /\
    getPluginState (cfg_id cfg) w2 = Some BANISHED /\
    JsMap.get (cfg_id cfg) (registry w2) = Some plugin.
Proof.
  intros Hs Hinit Hn [Hc Hp Hk] Hcalls Hreg Halloc Hrouters.
  pose proof (summon_id _ _ _ Hs) as Hid.
  unfold retryLoad. cbn [retryLoad_from].
  fold (attempts_of (cfg_id cfg) w).
  destruct (Nat.leb_spec maxRetries (attempts_of (cfg_id cfg) w)); [lia |].
  unfold loadPlugin. cbn [host setPluginState with_loader]. rewrite Hs.
  set (w1 := with_loader _ _).
  assert (R1 : registry w1 = JsMap.set (cfg_id cfg) plugin (registry w)).
  { unfold registry, map_at. cbn. by rewrite list_lookup_insert_eq. }
  assert (Hw1 : Ranked rk G w1).
  { split.
    - apply Hc.
    - intros i m id p e Hin Hent. apply (Hp i m); [done |].
      unfold map_at in *. cbn in Hent.
      rewrite list_lookup_insert_ne in Hent; [done |].
      intros <-. by apply (Hrouters i _ Hin).
    - apply Hk. }
  destruct (initializePlugin_throws rk G (run_call depth) depth plugin
              message w1 (run_call_spec rk G depth) Hw1 Hcalls Hinit)
    as (error & w1' & w2 & E & Ee & F & ->).
  exists w1, error, (setPluginState (plugin_id plugin) BANISHED w1').
  split; [done |]. split; [done |]. split; [done |]. split.
  - unfold getPluginState. cbn. rewrite Hid. apply lookup_insert_eq.
  - change (registry (setPluginState (plugin_id plugin) BANISHED w1'))
      with (registry w1').
    unfold registry. rewrite (frame_registry _ _ _ F).
    rewrite (frame_kept_map _ _ _ F) by exact Hreg.
    change (JsMap.get (cfg_id cfg) (registry w1) = Some plugin).
    rewrite R1. apply get_set_eq.
Qed.

Lemma crypt_ranked G : Ranked (fun _ => 0) G crypt.
Proof.
  split.
  - intros i react e Hin. cbn in Hin.
    apply list_elem_of_singleton in Hin. injection Hin as _ ->.
    split; [constructor | discriminate].
  - intros i m id plugin e Hin. cbn in Hin.
    apply list_elem_of_singleton in Hin. discriminate.
  - intros key subject observer v Hk. cbn in Hk. by rewrite lookup_empty in Hk.
Qed.

Lemma failed_init_stays_registered_witness :
  exists plugin w1 error w2,
    summon (host crypt) lich_config = inl plugin /\
    retryLoad lich_config maxRetries crypt = Some (Resolved plugin, w1) /\
    initializePlugin (run_call 1) plugin w1 = Some (Rejected error, w2) /\
    error_message error = init_failure plugin "the phylactery is broken" /\
    getPluginState "lich" w2 = Some BANISHED /\
    JsMap.get "lich" (registry w2) = Some plugin.
Proof.
  eexists.
  destruct (failed_init_stays_registered (fun _ => 0) manor_maps 1
              lich_config _ "the phylactery is broken" crypt eq_refl eq_refl)
    as (w1 & error & w2 & H).
  - vm_compute. lia.
  - apply crypt_ranked.
  - constructor.
  - cbn. lia.
  - cbn. lia.
  - intros i m Hin. cbn in Hin.
    apply list_elem_of_singleton in Hin. discriminate.
  - exists w1, error, w2. split; [reflexivity | exact H].
Defined.

Lemma entries_set_new {V} key (v : V) (m : JsMap.t V) :
  JsMap.get key m = None ->
  JsMap.entries (JsMap.set key v m) = JsMap.entries m ++ [(key, v)].
Proof.
  induction m as [| [[k x] |] m IH]; cbn; [done | | done].
  destruct (String.eqb key k) eqn:E; [discriminate |].
  intros H. cbn. by rewrite IH.
Qed.

Section outcome.
Context (rk : string -> nat) (G : Guard) (h : Host) (reg loaded : nat).
Context (Hreg : kept_map G reg) (Hloaded : kept_map G loaded).
Context (Hapart : reg <> loaded).
Context (rec : Rec) (depth : nat).
Context (Hrec : Answers rk G depth rec) (Hdepth : forall t, rk t < depth).

Local Abbreviation quiet := (Quiet rk G h reg loaded).

(** One turn of the loop of [loadAllPlugins]. *)
Lemma load_one_turn cfg w :
  Loading rk G h reg loaded w -> fit rk G h reg depth cfg w ->
  exists w',
    load_one rec loaded cfg w = Some w' /\
    Loading rk G h reg loaded w' /\ Elsewhere loaded (cfg_id cfg) w w' /\
    After w w' /\
    match enlisted h cfg with
    | Some (id, plugin) =>
        id = cfg_id cfg /\
        map_at loaded w' = JsMap.set id plugin (map_at loaded w) /\
        (pluginStates (loader w') !! id = Some ACTIVE \/
         pluginStates (loader w') !! id = Some HAUNTING)
    | None =>
        map_at loaded w' = map_at loaded w /\
        pluginStates (loader w') !! cfg_id cfg = Some BANISHED /\
        exists e message,
          within w w' (TNext e) /\ reports_failure cfg message e
    end.
Proof.
  intros Hw [Hn Hfit]. unfold enlisted.
  destruct (summon h cfg) as [plugin | message] eqn:Hs.
  2: { destruct (load_one_bad rk G h reg loaded Hreg Hloaded Hapart rec depth
                   Hrec Hdepth cfg message w Hw Hs Hn)
         as (w' & E & (L & El & M & A) & St & e & He & Hr).
       exists w'. do 4 (split; [done |]). split; [done |].
       split; [done |]. by exists e, (load_failure cfg message). }
  destruct Hfit as [Hcalls Hhaunt].
  pose proof (summon_id h cfg plugin Hs) as Hid.
  destruct (retryLoad_from_good reg maxRetries cfg plugin maxRetries w)
    as (w1 & E1 & K1 & _);
    [apply Hw | by rewrite (loading_host _ _ _ _ _ _ Hw) | done |].
  pose proof (Quiet_Kept rk G h reg loaded Hapart (cfg_id cfg) w w1 Hw K1)
    as Q1.
  unfold load_one, retryLoad. rewrite E1. cbn [mbind option_bind].
  destruct (outcome (init plugin)) as [| message] eqn:Hinit.
  - destruct (initializePlugin_good rk G h reg loaded Hreg Hloaded Hapart rec
                depth Hrec Hdepth plugin w1 (proj1 Q1))
      as (w2 & -> & Q2 & S2 & _); [by split |].
    cbn [mbind option_bind]. rewrite Hid in *.
    pose proof (Quiet_trans _ _ _ _ _ _ w w1 w2 Q1 Q2) as (L2 & E2 & M2 & A2).
    set (w3 := update_map loaded (JsMap.set (cfg_id cfg) plugin) w2).
    assert (L3 : Loading rk G h reg loaded w3).
    { apply (Loading_step rk G h reg loaded w2 w3); try done.
      - cbn. by rewrite length_insert.
      - intros m _ Hm. by apply map_at_update_ne. }
    assert (M3 : map_at loaded w3
                 = JsMap.set (cfg_id cfg) plugin (map_at loaded w2)).
    { apply map_at_update. apply L2. }
    destruct (emit_loading rk G h reg loaded Hreg Hloaded Hapart rec depth
                Hrec Hdepth (cfg_id cfg) (plugin_loaded w3 plugin cfg) w3 L3)
      as (w4 & -> & (L4 & E4 & M4 & A4) & El4 & _).
    exists w4. split; [done |]. split; [done |]. split; [| split; [| split]].
    + intros id' Hne. destruct (E2 id' Hne) as (a & b & c & d).
      destruct (E4 id' Hne) as (a' & b' & c' & d').
      rewrite a', b', c', d'. split; [done |]. split; [done |].
      split; [by rewrite M3, get_set_ne |].
      assert (R3 : registry w3 = registry w2).
      { unfold registry. change (loadedPlugins (loader w3))
          with (loadedPlugins (loader w2)).
        apply map_at_update_ne. by rewrite (loading_registry _ _ _ _ _ _ L2). }
      by rewrite R3.
    + eapply After_trans; [exact A2 |].
      eapply After_trans; [| exact A4]. by apply After_same.
    + done.
    + split; [by rewrite M4, M3, M2 |]. rewrite El4.
      destruct S2 as [S2 | [_ S2]]; [by left | by right].
  - destruct (initializePlugin_throws rk G rec depth plugin message w1)
      as (error & w1' & w2 & -> & Ee & F & ->);
      [done | apply Q1 | | done |].
    { by rewrite (loading_registry _ _ _ _ _ _ (proj1 Q1)). }
    cbn [mbind option_bind].
    assert (Qa : quiet (cfg_id cfg) w1
                   (setPluginState (plugin_id plugin) AWAKENING w1)).
    { rewrite Hid. apply Quiet_Kept; [done | apply Q1 |].
      apply Kept_setPluginState. }
    destruct (Quiet_Frame rk G h reg loaded Hreg Hloaded (cfg_id cfg) _ _
                (proj1 Qa) F) as [Qb _].
    set (w2 := setPluginState (plugin_id plugin) BANISHED w1').
    assert (Qc : quiet (cfg_id cfg) w1' w2).
    { unfold w2. rewrite Hid. apply Quiet_Kept; [done | apply Qb |].
      apply Kept_setPluginState. }
    assert (Q2 : quiet (cfg_id cfg) w w2) by eauto using Quiet_trans.
    destruct (emit_loading rk G h reg loaded Hreg Hloaded Hapart rec depth
                Hrec Hdepth (cfg_id cfg) (plugin_load_failed w2 cfg error) w2
                (proj1 Q2)) as (w3 & -> & Q3 & El3 & Hin & _).
    pose proof (Quiet_trans _ _ _ _ _ _ w w2 w3 Q2 Q3) as (L & El & M & A).
    exists w3. do 4 (split; [done |]). split; [done |]. split.
    + rewrite El3. unfold w2. cbn. rewrite Hid. apply lookup_insert_eq.
    + exists (fst (stamp (plugin_load_failed w2 cfg error) w2)),
        (init_failure plugin message).
      split; [eapply within_After_l; [apply Q2 | done] |].
      destruct (stamp_same_message (plugin_load_failed w2 cfg error) w2)
        as (Et & _ & Es & Ed).
      unfold reports_failure. rewrite <- Et, <- Es, <- Ed. cbn.
      by rewrite Ee.
Qed.

Lemma load_all_turns cfgs :
  forall w,
    Loading rk G h reg loaded w -> NoDup (map cfg_id cfgs) ->
    (forall cfg, cfg ∈ cfgs ->
       fit rk G h reg depth cfg w /\
       JsMap.get (cfg_id cfg) (map_at loaded w) = None) ->
    exists w', for_each (load_one rec loaded) cfgs w = Some w' /\
      Loading rk G h reg loaded w' /\ After w w' /\
      JsMap.entries (map_at loaded w')
      = JsMap.entries (map_at loaded w) ++ omap (enlisted h) cfgs /\
      (forall id, id ∉ map cfg_id cfgs ->
         pluginStates (loader w') !! id = pluginStates (loader w) !! id) /\
      forall cfg, cfg ∈ cfgs ->
        match enlisted h cfg with
        | Some _ =>
            pluginStates (loader w') !! cfg_id cfg = Some ACTIVE \/
            pluginStates (loader w') !! cfg_id cfg = Some HAUNTING
        | None =>
            pluginStates (loader w') !! cfg_id cfg = Some BANISHED /\
            exists e message,
              within w w' (TNext e) /\ reports_failure cfg message e
        end.
Proof.
  induction cfgs as [| cfg rest IH]; intros w Hw Hnd Hall.
  - exists w. split; [done |]. split; [done |]. split; [apply After_refl |].
    cbn. rewrite app_nil_r. split; [done |]. split; [done |].
    intros cfg Hin. by apply elem_of_nil in Hin.
  - cbn [map] in Hnd. apply NoDup_cons in Hnd as [Hfresh Hnd].
    destruct (Hall cfg) as [Hfit Hnone]; [left |].
    destruct (load_one_turn cfg w Hw Hfit) as (w1 & E1 & L1 & El1 & A1 & S1).
    assert (Hother : forall c, c ∈ rest -> cfg_id c <> cfg_id cfg).
    { intros c Hc Heq. apply Hfresh. rewrite <- Heq.
      apply list_elem_of_fmap. by exists c. }
    destruct (IH w1 L1 Hnd) as (w' & E & L & A & Hent & Hout & Hin).
    { intros c Hc. destruct (Hall c) as [[Hn Hh] Hg]; [by right |].
      destruct (El1 (cfg_id c) (Hother c Hc)) as (_ & Hr & Hg' & _).
      split; [split; [| done] |].
      - unfold attempts_of in *. by rewrite Hr.
      - by rewrite Hg'. }
    exists w'. cbn [for_each]. rewrite E1. split; [done |]. split; [done |].
    split; [by eapply After_trans |]. split; [| split].
    + rewrite Hent.
      change (omap (enlisted h) (cfg :: rest))
        with (match enlisted h cfg with
              | Some y => y :: omap (enlisted h) rest
              | None => omap (enlisted h) rest
              end).
      destruct (enlisted h cfg) as [[id plugin] |].
      * destruct S1 as (-> & -> & _).
        rewrite entries_set_new by done. by rewrite <- app_assoc.
      * destruct S1 as (-> & _). done.
    + intros id Hid. apply not_elem_of_cons in Hid as [Hne Hid].
      rewrite (Hout id Hid). by destruct (El1 id Hne) as (-> & _).
    + intros c Hc. apply elem_of_cons in Hc as [-> | Hc].
      * rewrite (Hout (cfg_id cfg) Hfresh).
        destruct (enlisted h cfg) as [[id plugin] |].
        -- by destruct S1 as (-> & _ & S1).
        -- destruct S1 as (_ & St & e & message & He & Hr).
           split; [done |]. exists e, message.
           split; [by eapply within_After_r | done].
      * specialize (Hin c Hc). destruct (enlisted h c); [done |].
        destruct Hin as (St & e & message & He & Hr).
        split; [done |]. exists e, message.
        split; [by eapply within_After_l | done].
Qed.

End outcome.

(** X7 ([loadAllPlugins]).  For any manifest with distinct ids whose
    descriptors have retries left, whose plugins' [init] hooks call back
    only what the hub answers and whose [haunt] hooks, where there is
    one, do not throw ([fit]), on a hub that answers its callbacks: the
    batch returns whatever number of its plugins fail.  The map it
    returns lists, in manifest order and under their ids, exactly the
    plugins that loaded and whose [init] returned, each active or
    haunting; every other descriptor is banished and was reported by a
    [plugin_load_failed] event; and the closing [coven_assembled] event
    carries the number of descriptors, the size of the map and their
    difference. *)
Theorem batch_outcome
    (rk : string -> nat) (G : Guard) (depth : nat) (manifestPath : string)
    (w : World) (manifest : PluginManifest) :
  loadManifest manifestPath w = Resolved manifest ->
  NoDup (map cfg_id (plugins manifest)) ->
  (forall cfg, cfg ∈ plugins manifest ->
     fit rk G (host w) (loadedPlugins (loader w)) depth cfg w) ->
  Ranked rk G w -> (forall t, rk t < depth) ->
  kept_map G (loadedPlugins (loader w)) -> kept_map G (length (maps w)) ->
  loadedPlugins (loader w) < length (maps w) ->
  (forall i m, (i, PluginRouter m) ∈ observers (hub w) ->
     m <> loadedPlugins (loader w) /\ m < length (maps w)) ->
  exists loaded w',
    loadAllPlugins (run_call depth) manifestPath w
      = Some (Resolved loaded, w') /\
    JsMap.entries (map_at loaded w')
      = omap (enlisted (host w)) (plugins manifest) /\
    keyed_by_id (map_at loaded w') /\
    (forall cfg, cfg ∈ plugins manifest ->
       match enlisted (host w) cfg with
       | Some _ =>
           getPluginState (cfg_id cfg) w' = Some ACTIVE \/
           getPluginState (cfg_id cfg) w' = Some HAUNTING
       | None =>
           getPluginState (cfg_id cfg) w' = Some BANISHED /\
           exists e message,
             within w w' (TNext e) /\ reports_failure cfg message e
       end) /\
    exists e, within w w' (TNext e) /\
      reports_batch (length (plugins manifest))
        (length (omap (enlisted (host w)) (plugins manifest))) e.
Proof.
  intros Hm Hnd Hfit Hw Hdepth Hreg Hloaded Halloc Hrouters.
  set (reg := loadedPlugins (loader w)) in *.
  set (loaded := length (maps w)) in *.
  set (h := host w) in *.
  assert (Hapart : reg <> loaded) by lia.
  pose proof (run_call_spec rk G depth) as Hrec.
  unfold loadAllPlugins. rewrite Hm. unfold new_map. cbv iota beta.
  fold loaded.
  destruct (Loading_new_map rk G w Hw Hrouters) as [L0 M0].
  cbn [new_map snd] in L0, M0. fold reg loaded h in L0, M0.
  set (w0 := with_maps _ w) in *.
  destruct (emit_loading rk G h reg loaded Hreg Hloaded Hapart
              (run_call depth) depth Hrec Hdepth EmptyString
              (manifest_loading w0 manifestPath manifest) w0 L0)
    as (w1 & -> & (L1 & _ & M1 & A1) & El1 & _).
  cbn [mbind option_bind].
  destruct (load_all_turns rk G h reg loaded Hreg Hloaded Hapart
              (run_call depth) depth Hrec Hdepth (plugins manifest) w1 L1 Hnd)
    as (w2 & -> & L2 & A2 & Hent & _ & Hin).
  { intros cfg Hcfg. split; [| by rewrite M1, M0].
    destruct (Hfit cfg Hcfg) as [Hn Hc]. split; [| done].
    unfold attempts_of. by rewrite El1. }
  cbn [mbind option_bind]. rewrite M1, M0 in Hent. cbn [app] in Hent.
  change (JsMap.entries JsMap.empty) with (@nil (string * Plugin)) in Hent.
  cbn [app] in Hent.
  destruct (emit_loading rk G h reg loaded Hreg Hloaded Hapart
              (run_call depth) depth Hrec Hdepth EmptyString
              (coven_assembled w2 (length (plugins manifest))
                 (JsMap.size (map_at loaded w2))) w2 L2)
    as (w3 & -> & (L3 & _ & M3 & A3) & El3 & Hlast & _).
  cbn [mbind option_bind].
  assert (A01 : After w w1).
  { eapply After_trans; [| exact A1]. by apply After_same. }
  exists loaded, w3. split; [done |]. split; [by rewrite M3 |].
  split; [| split].
  - intros id plugin Hen. rewrite M3, Hent in Hen.
    apply list_elem_of_omap in Hen as (cfg & _ & Hen).
    unfold enlisted in Hen.
    destruct (summon h cfg) as [p |] eqn:Hs; [| discriminate].
    destruct (outcome (init p)); [| discriminate].
    by injection Hen as <- <-.
  - intros cfg Hcfg. specialize (Hin cfg Hcfg). unfold getPluginState.
    rewrite El3. destruct (enlisted h cfg); [done |].
    destruct Hin as (St & e & message & He & Hr). split; [done |].
    exists e, message. split; [| done].
    eapply within_After_l; [exact A01 |]. by eapply within_After_r.
  - eexists. split.
    + eapply within_After_l; [eapply After_trans; [exact A01 | exact A2] |].
      exact Hlast.
    + destruct (stamp_same_message
                  (coven_assembled w2 (length (plugins manifest))
                     (JsMap.size (map_at loaded w2))) w2)
        as (Et & _ & Es & Ed).
      unfold reports_batch. rewrite <- Et, <- Es, <- Ed.
      unfold JsMap.size. rewrite Hent. by cbn.
Qed.

Lemma batch_outcome_witness :
  exists loaded w',
    loadAllPlugins (run_call 1) "coven.yaml" crypt
      = Some (Resolved loaded, w') /\
    map fst (JsMap.entries (map_at loaded w')) = ["banshee"; "wraith"] /\
    getPluginState "banshee" w' = Some ACTIVE /\
    getPluginState "ghoul" w' = Some BANISHED /\
    getPluginState "wraith" w' = Some HAUNTING /\
    getPluginState "lich" w' = Some BANISHED /\
    exists e, within crypt w' (TNext e) /\ reports_batch 4 2 e.
Proof.
  destruct (batch_outcome (fun _ => 0) manor_maps 1 "coven.yaml" crypt
              (mkManifest [banshee_config; ghoul_config; wraith_config;
                           lich_config] "1.0.0" (VStr "moderate")))
    as (loaded & w' & E & Hent & _ & _ & Hlast).
  - reflexivity.
  - cbn.
    repeat (apply NoDup_cons; split;
            [intros H; repeat (apply elem_of_cons in H as [H | H];
                               [discriminate |]); by apply elem_of_nil in H |]).
    apply NoDup_nil_2.
  - intros cfg Hcfg. split.
    + unfold attempts_of.
      change (retryAttempts (loader crypt)) with (∅ : gmap string nat).
      rewrite lookup_empty. cbn. unfold maxRetries. lia.
    + cbn in Hcfg.
      repeat (apply elem_of_cons in Hcfg as [-> | Hcfg]);
        [| exact I | | |]; try (split; [constructor | discriminate]).
      by apply elem_of_nil in Hcfg.
  - apply crypt_ranked.
  - intros t. lia.
  - cbn. lia.
  - cbn. lia.
  - cbn. lia.
  - intros i m Hin. cbn in Hin.
    apply list_elem_of_singleton in Hin. discriminate.
  - exists loaded, w'. split; [exact E |].
    assert (E' := E). vm_compute in E'. injection E' as <- <-.
    split; [reflexivity |]. do 4 (split; [reflexivity |]).
    exact Hlast.
Defined.

(* ===================================================================== *)
(** * The spectral signature's hash *)
(* ===================================================================== *)

Lemma toInt32_range z : (- 2 ^ 31 <= toInt32 z < 2 ^ 31)%Z.
Proof.
  unfold toInt32. pose proof (Z.mod_pos_bound z (2 ^ 32) eq_refl).
  destruct (Z.ltb_spec (z mod 2 ^ 32) (2 ^ 31)); lia.
Qed.

Lemma toInt32_mod z : (toInt32 z mod 2 ^ 32 = z mod 2 ^ 32)%Z.
Proof.
  unfold toInt32. destruct (Z.ltb_spec (z mod 2 ^ 32) (2 ^ 31)).
  - apply Z.mod_mod. lia.
  - rewrite <- (Z.mod_add _ 1) by lia.
    replace (z mod 2 ^ 32 - 2 ^ 32 + 1 * 2 ^ 32)%Z with (z mod 2 ^ 32)%Z by lia.
    apply Z.mod_mod. lia.
Qed.

Lemma toInt32_congruent a b :
  (a mod 2 ^ 32 = b mod 2 ^ 32)%Z -> toInt32 a = toInt32 b.
Proof. unfold toInt32. by intros ->. Qed.

Lemma hash_step_polynomial hash c :
  hash_step hash c = toInt32 (31 * hash + c).
Proof.
  unfold hash_step. apply toInt32_congruent.
  rewrite <- Z.add_sub_swap, <- Z.add_sub_assoc.
  rewrite Z.add_mod, toInt32_mod, <- Z.add_mod by lia.
  f_equal. lia.
Qed.

Lemma fold_hash_polynomial l :
  forall a b, (a mod 2 ^ 32 = b mod 2 ^ 32)%Z ->
    fold_left hash_step l a = toInt32 (polynomial31 b l) \/ l = [].
Proof.
  induction l as [| c l IH]; intros a b Hab; [by right |]. left.
  cbn [fold_left polynomial31].
  destruct (IH (hash_step a c) (31 * b + c)%Z)
    as [E | ->].
  - rewrite hash_step_polynomial, toInt32_mod.
    rewrite Z.add_mod, Z.mul_mod, Hab, <- Z.mul_mod, <- Z.add_mod by lia.
    done.
  - exact E.
  - cbn. rewrite hash_step_polynomial. apply toInt32_congruent.
    rewrite Z.add_mod, Z.mul_mod, Hab, <- Z.mul_mod, <- Z.add_mod by lia.
    done.
Qed.

(** X9 ([simpleHash]).  The hash of a string is the absolute value of the
    base-31 polynomial over its UTF-16 code units, wrapped to a signed
    32-bit integer (the wrap-around after every character does not change
    the result); so it lies between 0 and 2^31 inclusive, and the empty
    string hashes to 0. *)
Theorem simpleHash_is_polynomial (str : list Z) :
  simpleHash str = Z.abs (toInt32 (polynomial31 0 str)) /\
  (0 <= simpleHash str <= 2 ^ 31)%Z /\
  simpleHash [] = 0%Z.
Proof.
  split; [| split; [| reflexivity]].
  - unfold simpleHash. f_equal.
    destruct (fold_hash_polynomial str 0 0 eq_refl)
      as [E | ->]; [exact E | reflexivity].
  - unfold simpleHash.
    assert (H : (- 2 ^ 31 <= fold_left hash_step str 0 < 2 ^ 31)%Z).
    { induction str as [| c l IH] using rev_ind; [cbn; lia |].
      rewrite fold_left_app. cbn. apply toInt32_range. }
    lia.
Qed.

(* ===================================================================== *)
(** * The hub's counters *)
(* ===================================================================== *)

Lemma nexts_app l1 l2 : nexts (l1 ++ l2) = nexts l1 + nexts l2.
Proof.
  induction l1 as [| [] l1 IH]; cbn; [done | ..]; by rewrite ?IH.
Qed.

Lemma Tallied_refl w : Tallied w w.
Proof.
  split; [done |]. exists []. unfold added. rewrite app_nil_r. cbn.
  split; [done | lia].
Qed.

Lemma Tallied_trans w1 w2 w3 : Tallied w1 w2 -> Tallied w2 w3 -> Tallied w1 w3.
Proof.
  intros [H1 (l1 & a1 & c1)] [H2 (l2 & a2 & c2)]. split; [auto |].
  exists (l1 ++ l2). unfold added in *. rewrite a2, a1, app_assoc.
  split; [done |]. rewrite nexts_app. lia.
Qed.

Lemma Tallied_quiet w w' :
  hauntLevel (hub w') = hauntLevel (hub w) ->
  eventCount (hub w') = eventCount (hub w) -> trace w' = trace w ->
  Tallied w w'.
Proof.
  intros Hl Hc Ht. split; [unfold level_ok; by rewrite Hl |].
  exists []. unfold added. rewrite app_nil_r. cbn. split; [done | lia].
Qed.

Lemma Tallied_record t w :
  nexts [t] = 0 -> Tallied w (record t w).
Proof.
  intros Ht. split; [done |]. exists [t]. split; [done |]. rewrite Ht. cbn. lia.
Qed.

Lemma qmin_spec a b : (qmin a b <= a)%Q /\ (qmin a b <= b)%Q /\
  (qmin a b == a \/ qmin a b == b)%Q.
Proof.
  unfold qmin. destruct (Qle_bool a b) eqn:E.
  - apply Qle_bool_iff in E. split; [apply Qle_refl |]. split; [done |].
    left. reflexivity.
  - assert (b <= a)%Q.
    { destruct (Qlt_le_dec b a) as [H | H]; [by apply Qlt_le_weak |].
      apply Qle_bool_iff in H. congruence. }
    split; [done |]. split; [apply Qle_refl |]. right. reflexivity.
Qed.

Lemma level_raised w step :
  (0 <= step)%Q -> level_ok w ->
  (0 <= qmin 1 (Qred (hauntLevel (hub w) + step)))%Q /\
  (qmin 1 (Qred (hauntLevel (hub w) + step)) <= 1)%Q.
Proof.
  intros Hs [H0 H1].
  destruct (qmin_spec 1 (Qred (hauntLevel (hub w) + step))) as (Ha & Hb & Hc).
  split; [| done].
  destruct Hc as [-> | ->]; [done |]. rewrite Qred_correct.
  rewrite <- (Qplus_0_r 0). by apply Qplus_le_compat.
Qed.

Lemma Tallied_increaseHauntLevel w : Tallied w (increaseHauntLevel w).
Proof.
  split.
  - intros Hw. by apply (level_raised w (1 # 10)).
  - exists []. unfold added. rewrite app_nil_r. cbn. split; [done | lia].
Qed.

Lemma Tallied_for_each {A} (body : A -> World -> option World) l :
  (forall a w w', body a w = Some w' -> Tallied w w') ->
  forall w w', for_each body l w = Some w' -> Tallied w w'.
Proof.
  intros Hbody. induction l as [| a l IH]; intros w w'; cbn.
  - intros [= <-]. apply Tallied_refl.
  - destruct (body a w) as [w1 |] eqn:E; [| discriminate].
    intros H. eapply Tallied_trans; [by eapply Hbody | by apply IH].
Qed.

(** [emit] up to the call of [next]: one more event counted, and the same
    event recorded. *)
Lemma Tallied_stamp e w :
  Tallied w (record (TNext (fst (stamp e w))) (snd (stamp e w))).
Proof.
  unfold stamp. cbn.
  destruct (qlt _ _); cbn [fst snd].
  - split.
    + intros Hw. by apply (level_raised w (1 # 10)).
    + eexists [_]. split; [reflexivity |]. cbn. lia.
  - split; [done |]. eexists [_]. split; [reflexivity |]. cbn. lia.
Qed.

Section tally.
Context (rec : Rec) (Hrec : Sound rec).

Lemma Tallied_run_calls cs w : Tallied w (fst (run_calls rec cs w)).
Proof.
  revert w. induction cs as [| c cs IH]; intros w; cbn [run_calls].
  { apply Tallied_refl. }
  destruct (rec c w) as [w1 |] eqn:E; [| apply Tallied_refl].
  eapply Tallied_trans; [by eapply Hrec | apply IH].
Qed.

Lemma Tallied_run_reaction r w : Tallied w (fst (run_reaction rec r w)).
Proof.
  unfold run_reaction. pose proof (Tallied_run_calls (calls r) w) as H.
  by destruct (run_calls rec (calls r) w).
Qed.

Lemma Tallied_attempt c w : Tallied w (attempt rec c w).
Proof.
  unfold attempt. destruct (rec c w) as [w1 |] eqn:E;
    [by eapply Hrec | apply Tallied_refl].
Qed.

Lemma Tallied_route_to id plugin e w w' :
  route_to rec id plugin e w = Some w' -> Tallied w w'.
Proof.
  unfold route_to. destruct (String.eqb _ _).
  { intros [= <-]. apply Tallied_refl. }
  pose proof (Tallied_run_calls (before (process plugin e))
                (record (TProcess id e) w)) as T1.
  destruct (run_calls rec _ _) as [w1 thrown]. cbn [fst] in T1.
  assert (T01 : Tallied w w1).
  { eapply Tallied_trans; [by apply (Tallied_record (TProcess id e)) | done]. }
  destruct thrown; [| by intros [= <-]].
  destruct (result (process plugin e)) as [| s]; [by intros [= <-] |].
  destruct (for_each _ (emitted s) w1) as [w2 |] eqn:E2; [| discriminate].
  cbn [mbind option_bind]. intros H.
  assert (T12 : Tallied w1 w2).
  { eapply Tallied_for_each; [| exact E2].
    intros out wa wb [= <-]. apply Tallied_attempt. }
  eapply Tallied_trans; [exact T01 |]. eapply Tallied_trans; [exact T12 |].
  destruct (ending s); injection H as <-;
    [apply Tallied_refl | apply Tallied_attempt | apply Tallied_refl].
Qed.

Lemma Tallied_route_from m e slots :
  forall pos w w', route_from rec m e slots pos w = Some w' -> Tallied w w'.
Proof.
  induction slots as [| slots IH]; intros pos w w'; cbn.
  { intros [= <-]. apply Tallied_refl. }
  destruct (JsMap.slot pos (map_at m w)) as [[[id plugin] |] |].
  - destruct (route_to rec id plugin e w) as [w1 |] eqn:E; [| discriminate].
    cbn [mbind option_bind]. intros H.
    eapply Tallied_trans; [by eapply Tallied_route_to | by eapply IH].
  - apply IH.
  - intros [= <-]. apply Tallied_refl.
Qed.

Lemma Tallied_deliver e sub w w' :
  deliver rec e sub w = Some w' -> Tallied w w'.
Proof.
  unfold deliver. intros H.
  eapply Tallied_trans; [by apply (Tallied_record (TObserved (fst sub) e)) |].
  destruct (snd sub) as [react | m | i].
  - pose proof (Tallied_run_reaction (react e)
                  (record (TObserved (fst sub) e) w)) as T1.
    destruct (run_reaction rec _ _) as [w1 thrown]. cbn [fst] in T1.
    eapply Tallied_trans; [exact T1 |].
    destruct thrown as [| message]; injection H as <-; [apply Tallied_refl |].
    unfold handleSubscriberError.
    match goal with |- Tallied _ (default _ (rec ?c w1)) =>
      apply (Tallied_attempt c w1) end.
  - by eapply Tallied_route_from.
  - injection H as <-. by apply Tallied_quiet.
Qed.

Lemma Tallied_emit e w w' : emit rec e w = Some w' -> Tallied w w'.
Proof.
  unfold emit. pose proof (Tallied_stamp e w) as Hs.
  destruct (stamp e w) as [e' ws]. cbn [fst snd] in Hs.
  unfold Subject_next. intros H.
  eapply Tallied_trans; [exact Hs |].
  eapply Tallied_for_each; [| exact H]. intros sub. apply Tallied_deliver.
Qed.

Lemma Tallied_select_next key value observer w w' :
  select_next rec key value observer w = Some w' -> Tallied w w'.
Proof.
  unfold select_next. destruct (is_undefined value).
  { intros [= <-]. apply Tallied_refl. }
  assert (H1 : Tallied w (incrementSubscriberCount key w)).
  { apply Tallied_quiet; unfold incrementSubscriberCount; cbn;
      by destruct (streamStates (hub w) !! key). }
  case_bool_decide as Hcursed.
  - unfold random. cbv iota beta. intros [= <-].
    eapply Tallied_trans; [exact H1 |].
    eapply Tallied_trans; [| by apply (Tallied_record (TTimer _))].
    by apply Tallied_quiet.
  - intros [= <-]. eapply Tallied_trans; [exact H1 |].
    eapply Tallied_trans; [| apply Tallied_run_reaction].
    by apply (Tallied_record (TKeyObserved key (fst observer) value)).
Qed.

Lemma Tallied_setState key value w w' :
  setState rec key value w = Some w' -> Tallied w w'.
Proof.
  unfold setState.
  destruct (spectralState (hub w) !! key) as [subject |];
    cbn [mbind option_bind].
  - set (w0 := with_hub _ w).
    assert (T0 : Tallied w w0) by (by apply Tallied_quiet).
    destruct (for_each _ _ w0) as [w1 |] eqn:E1; [| discriminate].
    cbn [mbind option_bind]. intros H.
    assert (T1 : Tallied w0 w1).
    { eapply Tallied_for_each; [| exact E1].
      intros o. apply Tallied_select_next. }
    assert (T2 : Tallied w1
              (updateStreamState key value (getSubscriberCount key w1) w1))
      by (by apply Tallied_quiet).
    apply Tallied_emit in H. eauto using Tallied_trans.
  - intros H. apply Tallied_emit in H.
    eapply Tallied_trans; [| exact H]. by apply Tallied_quiet.
Qed.

End tally.

Lemma Sound_run_call depth : Sound (run_call depth).
Proof.
  induction depth as [| depth IH]; intros c w w'; [discriminate |].
  destruct c as [e | key value | m key | id]; cbn.
  - by apply Tallied_emit.
  - by apply Tallied_setState.
  - intros [= <-]. by apply Tallied_quiet.
  - intros [= <-]. apply Tallied_quiet; unfold teardownPlugin;
      destruct (JsMap.get id (registry w)) as [p |]; try done;
      by destruct (teardown p).
Qed.

Lemma Tallied_manifestGhostlyCrash rec message context w w' :
  Sound rec -> manifestGhostlyCrash rec message context w = Some w' ->
  Tallied w w'.
Proof.
  intros Hrec. unfold manifestGhostlyCrash. set (w1 := with_hub _ w).
  intros H. apply (Tallied_emit rec Hrec) in H.
  eapply Tallied_trans; [| exact H]. split.
  - intros Hw. by apply (level_raised w (3 # 10)).
  - exists []. unfold added. rewrite app_nil_r. cbn. split; [done | lia].
Qed.

Lemma haunt_probability_range w :
  level_ok w ->
  (5 # 100 <= calculateHauntProbability w)%Q /\
  (calculateHauntProbability w <= 1 # 2)%Q.
Proof.
  intros [H0 _]. unfold calculateHauntProbability.
  match goal with |- context [qmin ?a ?b] =>
    destruct (qmin_spec a b) as (Ha & Hb & Hc) end.
  split; [| done]. destruct Hc as [-> | ->]; [done |].
  rewrite Qred_correct.
  assert (Hs : (0 <= inject_Z (Z.of_nat (size (hauntedStreams (hub w)))))%Q).
  { change 0%Q with (inject_Z 0). rewrite <- Zle_Qle. lia. }
  assert (H1 : (0 <= hauntLevel (hub w) * (2 # 10))%Q)
    by (by apply Qmult_le_0_compat).
  assert (H2 : (0 <= inject_Z (Z.of_nat (size (hauntedStreams (hub w))))
                    * (1 # 100))%Q) by (by apply Qmult_le_0_compat).
  rewrite <- (Qplus_0_r (5 # 100)) at 1. apply Qplus_le_compat; [| done].
  rewrite <- (Qplus_0_r (5 # 100)) at 1. apply Qplus_le_compat; [| done].
  apply Qle_refl.
Qed.

(** X10 (the haunt level).  The haunt level starts at 0 and stays
    between 0 and 1 through every [emit], [setState] and ghostly crash,
    whatever the subscribers call back, and through the decay timer; and
    so the chance that [emit] marks an event as haunted is always between
    5% and 50%. *)
Theorem haunt_level_stays_in_range w :
  level_ok w ->
  (forall depth event w',
     emit (run_call depth) event w = Some w' -> level_ok w') /\
  (forall depth key value w',
     setState (run_call depth) key value w = Some w' -> level_ok w') /\
  (forall depth message context w',
     manifestGhostlyCrash (run_call depth) message context w = Some w' ->
     level_ok w') /\
  level_ok (decayHauntLevel w) /\
  (5 # 100 <= calculateHauntProbability w)%Q /\
  (calculateHauntProbability w <= 1 # 2)%Q.
Proof.
  intros Hw. split; [| split; [| split; [| split]]].
  - intros depth event w' H.
    by apply (Tallied_emit _ (Sound_run_call depth)) in H as [H _]; auto.
  - intros depth key value w' H.
    by apply (Tallied_setState _ (Sound_run_call depth)) in H as [H _]; auto.
  - intros depth message context w' H.
    apply (Tallied_manifestGhostlyCrash _ _ _ _ _ (Sound_run_call depth)) in H
      as [H _]; auto.
  - destruct Hw as [H0 H1]. unfold level_ok, decayHauntLevel, qmax. cbn.
    destruct (Qle_bool 0 _) eqn:E; [| done].
    apply Qle_bool_iff in E. split; [done |]. rewrite Qred_correct.
    rewrite <- (Qmult_1_r 1). apply Qmult_le_compat_nonneg; done.
  - by apply haunt_probability_range.
Qed.

Lemma haunt_level_stays_in_range_witness :
  level_ok (fresh plain_host) /\
  (forall depth event w',
     emit (run_call depth) event rapping = Some w' -> level_ok w') /\
  (forall depth key value w',
     setState (run_call depth) key value rapping = Some w' -> level_ok w') /\
  (forall depth message context w',
     manifestGhostlyCrash (run_call depth) message context rapping = Some w' ->
     level_ok w') /\
  level_ok (decayHauntLevel rapping) /\
  (5 # 100 <= calculateHauntProbability rapping)%Q /\
  (calculateHauntProbability rapping <= 1 # 2)%Q.
Proof.
  split; [split; discriminate |].
  apply (haunt_level_stays_in_range rapping). split; discriminate.
Defined.

Lemma stamp_counts e w :
  eventCount (hub (snd (stamp e w))) = S (eventCount (hub w)).
Proof. unfold stamp. cbn. by destruct (qlt _ _). Qed.

(* ===================================================================== *)
(** * Throws and stream errors are reported, and contained *)
(* ===================================================================== *)

Section contained.
Context (rk : string -> nat) (G : Guard).

Lemma deliver_reports rec event sub w :
  Answers rk G (rk (ev_type event)) rec -> Ranked rk G w ->
  sub ∈ observers (hub w) ->
  exists w', deliver rec event sub w = Some w' /\ Frame G w w' /\
    within w w' (TObserved (fst sub) event) /\
    forall react message,
      snd sub = Callback react -> outcome (react event) = Throws message ->
      exists d, within w w' (TNext d) /\ reports_throw event message d.
Proof.
  intros Hrec Hw Hin.
  destruct (deliver_spec rk G rec event sub w Hrec Hw Hin)
    as (w' & E & F & l & Hl).
  exists w'. split; [done |]. split; [done |].
  split; [by eapply added_within |].
  intros react message Hsub Hout. unfold deliver in E. rewrite Hsub in E.
  set (w1 := record (TObserved (fst sub) event) w) in *.
  assert (F1 : Frame G w w1) by (by apply Frame_record).
  assert (Hw1 : Ranked rk G w1) by (by eapply Ranked_Frame).
  destruct sub as [i o]. cbn in Hsub. subst o.
  destruct (ranked_callbacks _ _ _ Hw i react event Hin) as [Hcalls Hthrow].
  destruct (run_reaction_spec rk G rec _ (react event) w1 Hrec Hw1)
    as (w2 & E2 & F2); [done |].
  cbn [snd] in E. rewrite E2, Hout in E.
  unfold handleSubscriberError in E.
  set (d := diagnostic w2 _ _ _ _) in E.
  destruct (Hrec (CEmit d) w2) as (w3 & E3 & F3 & Hann);
    [by eapply Ranked_Frame | by eapply Hthrow | done |].
  rewrite E3 in E. injection E as <-.
  destruct (Hann d eq_refl) as [l3 Hl3].
  exists (fst (stamp d w2)). split.
  - eapply within_Frame_l; [eapply Frame_trans; [exact F1 | exact F2] |].
    by eapply added_within.
  - destruct (stamp_same_message d w2) as (Et & _ & Es & Ed).
    unfold reports_throw. by rewrite <- Et, <- Es, <- Ed.
Qed.

(** A throw of one observer is reported and stops nobody's delivery. *)
Lemma emit_reports rec event w :
  Answers rk G (rk (ev_type event)) rec -> Ranked rk G w ->
  exists w', emit rec event w = Some w' /\ Frame G w w' /\
    forall sub, sub ∈ observers (hub w) ->
      within w w' (TObserved (fst sub) (fst (stamp event w))) /\
      forall react message,
        snd sub = Callback react ->
        outcome (react (fst (stamp event w))) = Throws message ->
        exists d, within w w' (TNext d) /\
          reports_throw (fst (stamp event w)) message d.
Proof.
  intros Hrec Hw. unfold emit.
  pose proof (Frame_stamp G event w) as Fs.
  pose proof (stamp_type event w) as Ety.
  destruct (stamp event w) as [e' ws]. cbn [fst snd] in *.
  unfold Subject_next.
  set (w1 := record (TNext e') ws).
  assert (F1 : Frame G ws w1) by (by apply Frame_record).
  assert (F01 : Frame G w w1) by (by eapply Frame_trans).
  assert (Hw1 : Ranked rk G w1) by (by eapply Ranked_Frame).
  assert (Hobs : observers (hub ws) = observers (hub w))
    by apply (frame_observers _ _ _ Fs).
  destruct (for_each_spec rk G (deliver rec e')
              (fun sub wa wb =>
                 within wa wb (TObserved (fst sub) e') /\
                 forall react message,
                   snd sub = Callback react ->
                   outcome (react e') = Throws message ->
                   exists d, within wa wb (TNext d) /\
                     reports_throw e' message d)
              (observers (hub ws)) w1 w1) as (w' & -> & F' & Hall);
    [| done | apply Frame_refl |].
  { intros sub wa Hsub Hwa Fa. apply deliver_reports; [by rewrite Ety | done |].
    rewrite (frame_observers _ _ _ Fa). exact Hsub. }
  exists w'. split; [done |]. split; [by eapply Frame_trans |].
  intros sub Hsub. rewrite <- Hobs in Hsub.
  destruct (Hall sub Hsub) as (wa & wb & Fa & [Hseen Hthrown] & Fb).
  assert (F0a : Frame G w wa) by (by eapply Frame_trans).
  split.
  - eapply within_Frame_l; [exact F0a |]. by eapply within_Frame_r.
  - intros react message Hs Ho.
    destruct (Hthrown react message Hs Ho) as (d & Hd & Hr).
    exists d. split; [| done].
    eapply within_Frame_l; [exact F0a |]. by eapply within_Frame_r.
Qed.

End contained.

(** X12 ([subscribe], [handleSubscriberError]).  On a hub whose reactions
    rank below their cause (so that no observer throws at every
    diagnostic of its own throw), an observer that throws at an event
    stops nothing: [emit] returns, every subscriber was handed the event,
    the throwing one included, the list of subscribers is as before, and
    a [subscriber_error] event of [EventHub] carrying the event and the
    error's message went out. *)
Theorem throw_is_reported_and_contained rk G depth event w i react message :
  Ranked rk G w -> rk (ev_type event) <= depth ->
  (i, Callback react) ∈ observers (hub w) ->
  outcome (react (fst (stamp event w))) = Throws message ->
  exists w' d,
    emit (run_call depth) event w = Some w' /\
    (forall sub, sub ∈ observers (hub w) ->
       within w w' (TObserved (fst sub) (fst (stamp event w)))) /\
    observers (hub w') = observers (hub w) /\
    within w w' (TNext d) /\ reports_throw (fst (stamp event w)) message d.
Proof.
  intros Hw Hdepth Hin Hthrow.
  destruct (emit_reports rk G (run_call depth) event w) as (w' & E & F & Hall);
    [eapply Answers_mono; [exact Hdepth | apply run_call_spec] | done |].
  destruct (Hall _ Hin) as [_ Hd].
  destruct (Hd react message eq_refl Hthrow) as (d & Hd1 & Hd2).
  exists w', d. split; [done |]. split; [| split; [| done]].
  - intros sub Hsub. by apply Hall.
  - apply (frame_observers _ _ _ F).
Qed.

Lemma rapping_ranked : Ranked knock_rank unguarded rapping.
Proof.
  split.
  - intros i react e Hin. cbn in Hin.
    repeat (apply elem_of_cons in Hin as [Hin | Hin]);
      try (by apply elem_of_nil in Hin); injection Hin as _ ->.
    + unfold knock_rank. destruct (String.eqb (ev_type e) "knock"); cbn.
      * split; [constructor | intros; lia].
      * split; [constructor | discriminate].
    + split; [constructor | discriminate].
  - intros i m id plugin e Hin. cbn in Hin.
    repeat (apply elem_of_cons in Hin as [Hin | Hin]);
      try (by apply elem_of_nil in Hin); discriminate.
  - intros key subject observer v Hk. cbn in Hk. by rewrite lookup_empty in Hk.
Qed.

Lemma throw_is_reported_and_contained_witness :
  exists w' d,
    emit (run_call 1) (message "knock" "client") rapping = Some w' /\
    (forall sub, sub ∈ observers (hub rapping) ->
       within rapping w'
         (TObserved (fst sub)
                    (fst (stamp (message "knock" "client") rapping)))) /\
    observers (hub w') = observers (hub rapping) /\
    within rapping w' (TNext d) /\
    reports_throw (fst (stamp (message "knock" "client") rapping))
                  "who is there" d.
Proof.
  apply (throw_is_reported_and_contained knock_rank unguarded 1
           (message "knock" "client") rapping 0
           (fun e => if String.eqb (ev_type e) "knock"
                     then mkReaction [] (Throws "who is there")
                     else silent)
           "who is there").
  - apply rapping_ranked.
  - cbn. lia.
  - cbn. left.
  - reflexivity.
Defined.

Section routed.
Context (rk : string -> nat) (G : Guard).

Lemma route_to_reports rec id plugin event w :
  Answers rk G (rk (ev_type event)) rec -> Ranked rk G w ->
  (source event <> id ->
   tame_process rk G (loadedPlugins (loader w)) (rk (ev_type event))
                (process plugin event)) ->
  exists w', route_to rec id plugin event w = Some w' /\ Frame G w w' /\
    (source event <> id -> Reported id plugin event w w').
Proof.
  intros Hrec Hw Htame.
  destruct (route_to_spec rk G rec id plugin event w Hrec Hw Htame)
    as (w' & E & F & Hrouted).
  exists w'. split; [done |]. split; [done |]. intros Hne.
  destruct (Hrouted Hne) as [[l Hl] _].
  split; [by eapply added_within |].
  intros s message Hres Hend.
  unfold route_to in E. apply String.eqb_neq in Hne as Hneb.
  rewrite Hneb in E. apply String.eqb_neq in Hneb.
  destruct (Htame Hne) as [Hbefore Hout]. rewrite Hres in Hout.
  destruct Hout as [Houts Herr].
  set (w1 := record (TProcess id event) w) in *.
  assert (F1 : Frame G w w1).
  { apply Frame_record. intros id' e' [= <- <-]. exact Hne. }
  destruct (run_calls_spec rk G rec _ (before (process plugin event)) w1 Hrec)
    as (w2 & E2 & F2); [by eapply Ranked_Frame | done |].
  rewrite E2, Hres in E.
  assert (Hw2 : Ranked rk G w2)
    by (eapply Ranked_Frame; [| exact F2]; by eapply Ranked_Frame).
  destruct (for_each_spec rk G
              (fun out w => Some (attempt rec (CEmit (routed id event out)) w))
              (fun _ _ _ => True) (emitted s) w2 w2) as (w3 & E3 & F3 & _);
    [| done | apply Frame_refl |].
  { intros out wa Hin Hwa Fa. rewrite Forall_forall in Houts.
    destruct (Hrec (CEmit (routed id event out)) wa Hwa) as (wb & Eb & Fb & _);
      [cbn; by apply Houts | done |].
    exists wb. unfold attempt. by rewrite Eb. }
  rewrite E3 in E. cbn [mbind option_bind] in E. rewrite Hend in E.
  set (d := plugin_processing_error w3 id event message) in E.
  destruct (Hrec (CEmit d) w3) as (w4 & E4 & F4 & Hann);
    [by eapply Ranked_Frame | cbn; by eapply Herr | done |].
  unfold attempt in E. rewrite E4 in E. injection E as <-.
  destruct (Hann d eq_refl) as [l4 Hl4].
  exists (fst (stamp d w3)). split.
  - eapply within_Frame_l;
      [eapply Frame_trans; [exact F1 |]; eapply Frame_trans; [exact F2 | exact F3] |].
    by eapply added_within.
  - destruct (stamp_same_message d w3) as (Et & _ & Es & Ed).
    unfold reports_stream_error. by rewrite <- Et, <- Es, <- Ed.
Qed.

Lemma route_from_reports rec i m event slots pos w :
  Answers rk G (rk (ev_type event)) rec -> Ranked rk G w ->
  (i, PluginRouter m) ∈ observers (hub w) ->
  exists w', route_from rec m event slots pos w = Some w' /\ Frame G w w' /\
    (kept_map G m -> forall k id plugin, pos <= k < pos + slots ->
       JsMap.slot k (map_at m w) = Some (Some (id, plugin)) ->
       source event <> id ->
       exists w1 w2, Frame G w w1 /\ Reported id plugin event w1 w2 /\
                     Frame G w2 w').
Proof.
  intros Hrec. revert pos w.
  induction slots as [| slots IH]; intros pos w Hw Hin; cbn.
  { exists w. split; [done |]. split; [apply Frame_refl |]. intros; lia. }
  destruct (JsMap.slot pos (map_at m w)) as [[[id plugin] |] |] eqn:Eslot.
  - destruct (route_to_reports rec id plugin event w Hrec Hw)
      as (w1 & -> & F1 & R1).
    { intros Hne. eapply (ranked_plugins _ _ _ Hw); [exact Hin | | exact Hne].
      by eapply entries_slot. }
    cbn. destruct (IH (S pos) w1) as (w' & -> & F' & Hrest).
    { by eapply Ranked_Frame. }
    { by rewrite (frame_observers _ _ _ F1). }
    exists w'. split; [done |]. split; [by eapply Frame_trans |].
    intros Hm k id' plugin' Hk Hslot Hne.
    destruct (decide (k = pos)) as [-> | Hkne].
    + rewrite Eslot in Hslot. injection Hslot as <- <-.
      exists w, w1. split; [apply Frame_refl |]. split; [by apply R1 | done].
    + destruct (Hrest Hm k id' plugin') as (wa & wb & Fa & Ra & Fb);
        [lia | by rewrite (frame_kept_map _ _ _ F1) | done |].
      exists wa, wb. split; [by eapply Frame_trans | done].
  - destruct (IH (S pos) w Hw Hin) as (w' & -> & F' & Hrest).
    exists w'. split; [done |]. split; [done |].
    intros Hm k id' plugin' Hk Hslot Hne.
    destruct (decide (k = pos)) as [-> | Hkne]; [congruence |].
    apply (Hrest Hm k id' plugin'); [lia | done | done].
  - exists w. split; [done |]. split; [apply Frame_refl |].
    intros Hm k id' plugin' Hk Hslot Hne.
    rewrite (slot_past_end _ pos k) in Hslot; [done | done | lia].
Qed.

End routed.

(** X13 ([setupPluginEventRouting]).  A plugin whose stream errors does
    not end the routing pass: the pass returns, the hook of every plugin
    of the routed map other than the event's source was called with the
    event, and for each plugin whose stream ended in an error a
    [plugin_processing_error] event of [PluginLoader] went out carrying
    the plugin's id, the event and the error's message. *)
Theorem stream_error_is_reported rk G depth i m event w :
  Ranked rk G w -> kept_map G m ->
  (i, PluginRouter m) ∈ observers (hub w) ->
  rk (ev_type event) <= depth ->
  exists w',
    route (run_call depth) m event w = Some w' /\
    forall id plugin,
      (id, plugin) ∈ JsMap.entries (map_at m w) -> source event <> id ->
      within w w' (TProcess id event) /\
      forall s message,
        result (process plugin event) = ProcessReturns s ->
        ending s = ErrorsWith message ->
        exists d, within w w' (TNext d) /\
          reports_stream_error id event message d.
Proof.
  intros Hw Hm Hin Hdepth. unfold route.
  destruct (route_from_reports rk G (run_call depth) i m event
              (length (map_at m w)) 0 w) as (w' & E & F & Hall);
    [eapply Answers_mono; [exact Hdepth | apply run_call_spec] | done | done |].
  exists w'. split; [done |]. intros id plugin Hent Hne.
  destruct (slot_entries _ _ Hent) as [pos Hpos].
  destruct (Hall Hm pos id plugin) as (w1 & w2 & F1 & [Hcalled Herr] & F2);
    [apply slot_length in Hpos; lia | done | done |].
  split.
  - eapply within_Frame_l; [exact F1 |]. by eapply within_Frame_r.
  - intros s message Hres Hend.
    destruct (Herr s message Hres Hend) as (d & Hd & Hr).
    exists d. split; [| done].
    eapply within_Frame_l; [exact F1 |]. by eapply within_Frame_r.
Qed.

Lemma stutterer_tame G e :
  tame_process message_rank G 0 (message_rank (ev_type e))
               (process stutterer e).
Proof.
  unfold message_rank. cbn.
  destruct (String.eqb (ev_type e) "user_message"); cbn.
  - split; [constructor |]. split; [apply Forall_nil_2 | intros; vm_compute; lia].
  - split; [constructor |]. split; [apply Forall_nil_2 | discriminate].
Qed.

Lemma stream_error_is_reported_witness :
  exists w',
    route (run_call 1) 1 (message "user_message" "client")
          (routed_world stutterer) = Some w' /\
    forall id plugin,
      (id, plugin) ∈ JsMap.entries (map_at 1 (routed_world stutterer)) ->
      source (message "user_message" "client") <> id ->
      within (routed_world stutterer) w'
             (TProcess id (message "user_message" "client")) /\
      forall s message',
        result (process plugin (message "user_message" "client"))
          = ProcessReturns s ->
        ending s = ErrorsWith message' ->
        exists d, within (routed_world stutterer) w' (TNext d) /\
          reports_stream_error id (message "user_message" "client")
                               message' d.
Proof.
  apply (stream_error_is_reported message_rank (guard_map 1) 1 0 1
           (message "user_message" "client") (routed_world stutterer)).
  - apply routed_world_ranked. apply stutterer_tame.
  - reflexivity.
  - cbn. apply list_elem_of_singleton. reflexivity.
  - cbn. lia.
Defined.

(* ===================================================================== *)
(** * fuseStreams without errors *)
(* ===================================================================== *)

Lemma all_present_missing l i :
  l !! i = Some None -> all_present l = None.
Proof.
  intros H. unfold all_present. apply mapM_None.
  apply Exists_exists. exists None. split; [| done].
  by eapply list_elem_of_lookup_2.
Qed.

Lemma tuples_app l1 l2 : tuples (l1 ++ l2) = tuples l1 ++ tuples l2.
Proof.
  induction l1 as [| [values |] l1 IH]; cbn; [done | by rewrite IH | done].
Qed.

Lemma fuse_step_waiting rec fusionId i s f w :
  waiting_for i f ->
  (forall v, signal s <> SNext i v) ->
  (forall j message, signal s <> SError j message) ->
  exists f', fuse_step rec fusionId s (f, w) = Some (f', w) /\
    waiting_for i f'.
Proof.
  intros (Hl & Hp & Ht) Hmute Hfree. unfold fuse_step.
  destruct (alive f) eqn:Ha; cbn [negb].
  2: { exists f. split; [done |]. split; [| done]. by rewrite Ha. }
  specialize (Hl eq_refl).
  assert (Hflush : flush w (at_ms s) f = f) by (unfold flush; by rewrite Hp).
  rewrite Hflush.
  destruct (signal s) as [j v | j message | j] eqn:Es.
  - assert (j <> i) by (intros ->; by apply (Hmute v)).
    assert (Hl' : <[j := Some v]> (latest f) !! i = Some None)
      by (by rewrite list_lookup_insert_ne).
    rewrite (all_present_missing _ i Hl').
    eexists. split; [reflexivity |]. by split.
  - by destruct (Hfree j message).
  - assert (Hrel : release w f = f) by (unfold release; by rewrite Hp).
    destruct (forallb _ _).
    + rewrite Hrel. eexists. split; [reflexivity |].
      split; [discriminate |]. split; [done |].
      cbn. rewrite tuples_app, Ht. done.
    + eexists. split; [reflexivity |]. by split.
Qed.

Lemma fuse_steps_waiting rec fusionId i signals :
  forall f w,
    waiting_for i f -> mute i signals -> error_free signals ->
    exists f', fuse_steps rec fusionId signals (f, w) = Some (f', w) /\
      waiting_for i f'.
Proof.
  induction signals as [| s rest IH]; intros f w Hf Hmute Hfree.
  - by exists f.
  - destruct (fuse_step_waiting rec fusionId i s f w Hf) as (f1 & E1 & Hf1).
    + intros v. apply Hmute. left.
    + intros j message. apply Hfree. left.
    + destruct (IH f1 w Hf1) as (f' & E & Hf').
      * intros s' v Hs'. apply Hmute. by right.
      * intros s' j message Hs'. apply Hfree. by right.
      * exists f'. cbn [fuse_steps]. rewrite E1. by cbn.
Qed.

(** X14 ([fuseStreams]).  As long as no source errors, the fused stream
    delivers nothing before every source has emitted: if one of the
    sources emits no value, the run returns and the subscribers received
    no tuple at all, whatever the other sources emitted. *)
Theorem fused_stream_waits_for_every_source rec n signals horizon w i :
  i < n -> mute i signals -> error_free signals ->
  exists f w',
    fuseStreams rec n signals horizon w = Some (f, w') /\
    tuples (received f) = [].
Proof.
  intros Hi Hmute Hfree. unfold fuseStreams.
  destruct n as [| n]; [lia |].
  unfold generateStreamId, random. cbv iota beta.
  set (w1 := mkWorld _ _ _ _ _ _ _).
  destruct (fuse_steps_waiting rec
              ("fusion" +:+ "_" +:+ pretty (Date_now (host w1)) +:+ "_"
               +:+ base36 (host w1) (Math_random (host w) (randomCalls w)))
              i signals
              (mkFusion (replicate (S n) None) (replicate (S n) false) None
                        None true []) w1)
    as (f & E & Hl & Hp & Ht); [| done | done |].
  { split; [| done]. intros _. cbn [latest].
    by apply lookup_replicate_2. }
  rewrite E. cbn [mbind option_bind].
  eexists _, w1. split; [reflexivity |].
  destruct (alive f); [| done]. unfold flush. by rewrite Hp.
Qed.

Lemma fused_stream_waits_for_every_source_witness :
  exists f w',
    fuseStreams (run_call 0) 2
      [mkTimed 0 (SNext 0 (VStr "1")); mkTimed 30 (SNext 0 (VStr "2"));
       mkTimed 60 (SComplete 0)] 100 seance = Some (f, w') /\
    tuples (received f) = [].
Proof.
  apply (fused_stream_waits_for_every_source (run_call 0) 2 _ 100 seance 1).
  - lia.
  - intros s v Hs.
    repeat (apply elem_of_cons in Hs as [-> | Hs]); try discriminate.
    by apply elem_of_nil in Hs.
  - intros s j message Hs.
    repeat (apply elem_of_cons in Hs as [-> | Hs]); try discriminate.
    by apply elem_of_nil in Hs.
Defined.

Lemma changing_snoc h ts v :
  changing h ts ->
  match last ts with
  | Some p => JSON_stringify h (VArr p) <> JSON_stringify h (VArr v)
  | None => True
  end ->
  changing h (ts ++ [v]).
Proof.
  induction ts as [| a [| b ts] IH]; cbn [app changing last]; try done.
  intros [Hab Hrest] Hlast. split; [done |]. by apply IH.
Qed.

Lemma release_distinct w f :
  distinct_so_far (host w) f -> distinct_so_far (host w) (release w f).
Proof.
  intros [Hp Hc]. unfold release.
  destruct (pending f) as [[values due] |]; [| done].
  destruct (previous f) as [prev |].
  - case_bool_decide.
    + by split.
    + split; cbn; rewrite tuples_app; cbn.
      * by rewrite last_snoc.
      * apply changing_snoc; [done |]. by rewrite <- Hp.
  - split; cbn; rewrite tuples_app; cbn.
    + by rewrite last_snoc.
    + apply changing_snoc; [done |]. by rewrite <- Hp.
Qed.

Lemma flush_distinct w now f :
  distinct_so_far (host w) f -> distinct_so_far (host w) (flush w now f).
Proof.
  intros Hf. unfold flush. destruct (pending f) as [[values due] |]; [| done].
  destruct (due <=? now); [by apply release_distinct | done].
Qed.

Lemma fuse_step_distinct rec fusionId s f w :
  distinct_so_far (host w) f ->
  (forall j message, signal s <> SError j message) ->
  exists f', fuse_step rec fusionId s (f, w) = Some (f', w) /\
    distinct_so_far (host w) f'.
Proof.
  intros Hf Hfree. unfold fuse_step.
  destruct (alive f); cbn [negb]; [| by exists f].
  pose proof (flush_distinct w (at_ms s) f Hf) as Hf1.
  destruct (signal s) as [j v | j message | j].
  - eexists. split; [reflexivity |]. exact Hf1.
  - by destruct (Hfree j message).
  - destruct (forallb _ _).
    + eexists. split; [reflexivity |].
      destruct (release_distinct w _ Hf1) as [Hp Hc].
      split; cbn; rewrite tuples_app; cbn; by rewrite app_nil_r.
    + eexists. split; [reflexivity |]. exact Hf1.
Qed.

Lemma fuse_steps_distinct rec fusionId signals :
  forall f w,
    distinct_so_far (host w) f -> error_free signals ->
    exists f', fuse_steps rec fusionId signals (f, w) = Some (f', w) /\
      distinct_so_far (host w) f'.
Proof.
  induction signals as [| s rest IH]; intros f w Hf Hfree.
  - by exists f.
  - destruct (fuse_step_distinct rec fusionId s f w Hf) as (f1 & E1 & Hf1).
    + intros j message. apply Hfree. left.
    + destruct (IH f1 w Hf1) as (f' & E & Hf').
      * intros s' j message Hs'. apply Hfree. by right.
      * exists f'. cbn [fuse_steps]. rewrite E1. by cbn.
Qed.

(** X15 ([fuseStreams]).  As long as no source errors, the run returns
    and no two tuples delivered one after the other print the same under
    [JSON.stringify]: a combination equal to the last one delivered is
    dropped. *)
Theorem fused_tuples_change rec n signals horizon w :
  error_free signals ->
  exists f w',
    fuseStreams rec n signals horizon w = Some (f, w') /\
    host w' = host w /\
    changing (host w) (tuples (received f)).
Proof.
  intros Hfree. unfold fuseStreams.
  destruct n as [| n]; [by eexists _, _ |].
  unfold generateStreamId, random. cbv iota beta.
  set (w1 := mkWorld _ _ _ _ _ _ _).
  destruct (fuse_steps_distinct rec
              ("fusion" +:+ "_" +:+ pretty (Date_now (host w1)) +:+ "_"
               +:+ base36 (host w1) (Math_random (host w) (randomCalls w)))
              signals
              (mkFusion (replicate (S n) None) (replicate (S n) false) None
                        None true []) w1)
    as (f & E & Hf); [by split | done |].
  rewrite E. cbn [mbind option_bind].
  eexists _, w1. split; [reflexivity |]. split; [done |].
  destruct (alive f); [| apply Hf].
  apply (flush_distinct w1 horizon f Hf).
Qed.

Lemma fused_tuples_change_witness :
  exists f w',
    fuseStreams (run_call 0) 2 refrain 100 seance = Some (f, w') /\
    received f = [Tuple [VStr "a"; VStr "x"]; Tuple [VStr "a"; VStr "y"]] /\
    changing (host seance) (tuples (received f)).
Proof.
  destruct (fused_tuples_change (run_call 0) 2 refrain 100 seance)
    as (f & w' & E & _ & Hc).
  - intros s j message Hs. unfold refrain in Hs.
    repeat (apply elem_of_cons in Hs as [-> | Hs]); try discriminate.
    by apply elem_of_nil in Hs.
  - exists f, w'. split; [exact E |]. split; [| exact Hc].
    vm_compute in E. by injection E as <- _.
Defined.

(* ===================================================================== *)
(** * processStream *)
(* ===================================================================== *)

Section processed.
Context (rk : string -> nat) (G : Guard).
Context (rec : Rec).
Context (Hcrash : Answers rk G (rk "ghostly_crash") rec).
Context (Hdisturbance : Answers rk G (rk "spectral_disturbance") rec).

Lemma handleStreamDisturbance_spec message streamId w :
  Ranked rk G w ->
  exists w', handleStreamDisturbance rec message streamId w = Some w' /\
    Frame G w w' /\
    exists d, within w w' (TNext d) /\
              reports_disturbance streamId message d.
Proof.
  intros Hw. unfold handleStreamDisturbance.
  set (w1 := with_hub _ w).
  assert (F1 : Frame G w w1) by apply Frame_disturbance.
  match goal with |- context [emit rec ?ev w1] => set (e := ev) end.
  destruct (emit_spec rk G rec e w1) as (w' & -> & F' & [l Hl] & _);
    [done | by eapply Ranked_Frame |].
  exists w'. split; [done |]. split; [by eapply Frame_trans |].
  exists (fst (stamp e w1)). split.
  - eapply within_Frame_l; [exact F1 |]. by eapply added_within.
  - destruct (stamp_same_message e w1) as (H1 & _ & H3 & H4).
    unfold reports_disturbance. by rewrite <- H1, <- H3, <- H4.
Qed.

Lemma transform_item_spec {T R} streamId (fn : T -> Transformed R) item outs w :
  Ranked rk G w ->
  exists w',
    transform_item rec streamId fn item (outs, w)
      = Some (outs ++ yield_of fn item, w') /\
    Frame G w w' /\
    forall message, fails_with fn item message ->
      exists d, within w w' (TNext d) /\
                reports_disturbance streamId message d.
Proof.
  intros Hw. unfold transform_item, yield_of, fails_with.
  destruct (fn item) as [message | inner].
  - destruct (handleStreamDisturbance_spec message streamId w Hw)
      as (w' & -> & F & d & Hd & Hr).
    exists w'. cbn. rewrite app_nil_r. split; [done |]. split; [done |].
    intros m [[= <-] | (? & [=] & _)]. by exists d.
  - destruct (ending inner) as [| message |] eqn:Eend.
    + exists w. split; [done |]. split; [apply Frame_refl |].
      intros m [[=] | (? & [= <-] & H)]. congruence.
    + destruct (handleStreamDisturbance_spec message streamId w Hw)
        as (w' & -> & F & d & Hd & Hr).
      exists w'. split; [done |]. split; [done |].
      intros m [[=] | (? & [= <-] & H)].
      assert (m = message) as -> by congruence. by exists d.
    + exists w. split; [done |]. split; [apply Frame_refl |].
      intros m [[=] | (? & [= <-] & H)]. congruence.
Qed.

Lemma transform_items_spec {T R} streamId (fn : T -> Transformed R) l :
  forall outs w,
    Ranked rk G w ->
    exists w',
      transform_items rec streamId fn l (outs, w)
        = Some (outs ++ concat (map (yield_of fn) l), w') /\
      Frame G w w' /\
      forall item message, item ∈ l -> fails_with fn item message ->
        exists d, within w w' (TNext d) /\
                  reports_disturbance streamId message d.
Proof.
  induction l as [| item l IH]; intros outs w Hw.
  - exists w. cbn. rewrite app_nil_r. split; [done |].
    split; [apply Frame_refl |]. intros item message Hin.
    by apply elem_of_nil in Hin.
  - destruct (transform_item_spec streamId fn item outs w Hw)
      as (w1 & E1 & F1 & H1).
    destruct (IH (outs ++ yield_of fn item) w1) as (w' & E & F & H);
      [by eapply Ranked_Frame |].
    exists w'. cbn [transform_items map concat]. rewrite E1.
    cbn [mbind option_bind]. rewrite E, <- app_assoc.
    split; [done |]. split; [by eapply Frame_trans |].
    intros it message Hin Hf. apply elem_of_cons in Hin as [-> | Hin].
    + destruct (H1 message Hf) as (d & Hd & Hr). exists d.
      split; [by eapply within_Frame_r | done].
    + destruct (H it message Hin Hf) as (d & Hd & Hr). exists d.
      split; [by eapply within_Frame_l | done].
Qed.

End processed.

Lemma ending_streams_close {T R} (fn : T -> Transformed R) (l : list T) :
  (forall item inner,
     item ∈ l -> fn item = TransformReturns inner ->
     ending inner <> StaysOpen) ->
  last_stays_open fn l = false.
Proof.
  intros Hall. unfold last_stays_open.
  destruct (last l) as [item |] eqn:El; [| done].
  apply last_Some in El as [l' ->].
  destruct (fn item) as [| inner] eqn:Ef; [done |].
  specialize (Hall item inner). destruct (ending inner); try done.
  exfalso. apply Hall; [| done | done].
  apply elem_of_app. right. left.
Qed.

(** X16 ([processStream]).  A failure of the transform on one item does
    not end the stream: for a source that delivers its items and
    completes, the run returns without any resubscription, the output
    carries what the transform yielded for each item in order (nothing
    for an item at which it threw, the values before the error for an
    item whose stream errored), every such failure went out as a
    [spectral_disturbance] event naming the stream, and the output
    completes (given that the streams the transform returned end). *)
Theorem failing_transform_is_skipped {T R} rk G depth
    (input : nat -> SourceRun T) (fn : T -> Transformed R) w :
  Ranked rk G w -> rk "spectral_disturbance" <= depth ->
  finish (input 0) = SourceCompletes ->
  exists r w',
    processStream (run_call depth) input fn w = Some (r, w') /\
    resubscriptions r = 0 /\ delays r = [] /\
    outputs r = concat (map (yield_of fn) (items (input 0))) /\
    (forall item message,
       item ∈ items (input 0) -> fails_with fn item message ->
       exists d, within w w' (TNext d) /\
                 reports_disturbance (stream_id_in w) message d) /\
    ((forall item inner,
        item ∈ items (input 0) -> fn item = TransformReturns inner ->
        ending inner <> StaysOpen) ->
     final r = Completed).
Proof.
  intros Hw Hdepth Hfinish. unfold processStream, stream_id_in.
  unfold generateStreamId, random. cbv iota beta. cbn [fst].
  set (w1 := mkWorld _ _ _ _ _ _ _). set (sid := _ +:+ _).
  assert (F1 : Frame G w w1) by (by apply Frame_quiet).
  cbn [processStream_from].
  destruct (transform_items_spec rk G (run_call depth)
              (Answers_mono G rk depth _ _ Hdepth (run_call_spec rk G depth))
              sid fn (items (input 0)) [] w1)
    as (w' & E & F & H); [by eapply Ranked_Frame |].
  destruct (arrives (input 0)); cbn [outputs];
    rewrite E; cbn [mbind option_bind]; rewrite Hfinish;
    (eexists _, w'; split; [reflexivity |]; do 3 (split; [reflexivity |]);
     split;
     [| intros Hclose; cbn [final Nat.eqb orb];
        by rewrite (ending_streams_close fn _ Hclose)];
     intros item message Hin Hf; destruct (H item message Hin Hf) as (d & Hd & Hr);
     exists d; split; [by eapply within_Frame_l | done]).
Qed.

Lemma failing_transform_is_skipped_witness :
  exists r w',
    processStream (run_call 0) counting superstitious seance = Some (r, w') /\
    resubscriptions r = 0 /\ delays r = [] /\
    outputs r = [10; 30] /\
    (forall item message,
       item ∈ items (counting 0) -> fails_with superstitious item message ->
       exists d, within seance w' (TNext d) /\
                 reports_disturbance (stream_id_in seance) message d) /\
    ((forall item inner,
        item ∈ items (counting 0) ->
        superstitious item = TransformReturns inner ->
        ending inner <> StaysOpen) ->
     final r = Completed).
Proof.
  apply (failing_transform_is_skipped message_rank (guard_key "mood") 0
           counting superstitious seance seance_ranked).
  - cbn. lia.
  - reflexivity.
Defined.

Section retried.
Context (rk : string -> nat) (G : Guard).
Context (rec : Rec).
Context (Hcrash : Answers rk G (rk "ghostly_crash") rec).
Context (Hdisturbance : Answers rk G (rk "spectral_disturbance") rec).

(** One failed subscription out of the first three: the items are
    transformed, the crash is announced, and the source is subscribed to
    again after the wait. *)
Lemma retry_round {T R} streamId (input : nat -> SourceRun T)
    (fn : T -> Transformed R) budget index acc w message :
  index < 3 -> finish (input index) = SourceErrors message ->
  Ranked rk G w ->
  exists w1 delay,
    processStream_from rec streamId input fn (S budget) index acc w
    = processStream_from rec streamId input fn budget (S index)
        (mkProcessed
           (outputs acc ++ concat (map (yield_of fn) (items (input index))))
           Open (S (resubscriptions acc)) (delays acc ++ [delay])) w1 /\
    Frame G w w1 /\ backoff_of (host w) index delay.
Proof.
  intros Hindex Hfinish Hw.
  destruct (transform_items_spec rk G rec Hdisturbance streamId fn
              (items (input index)) (outputs acc) w Hw)
    as (wa & Ea & Fa & _).
  assert (Hwa : Ranked rk G wa) by (by eapply Ranked_Frame).
  destruct (manifestGhostlyCrash_spec rk G rec message streamId wa Hcrash Hwa)
    as (wb & Eb & Fb & _).
  set (wc := increaseHauntLevel wb).
  assert (Fc : Frame G wb wc) by apply Frame_increaseHauntLevel.
  assert (F : Frame G w wc) by eauto using Frame_trans.
  exists (record (TTimer (pow2 index * 1000
                          + Math_random (host wc) (randomCalls wc) * 1000)%Q)
                 (snd (random wc))),
    (pow2 index * 1000 + Math_random (host wc) (randomCalls wc) * 1000)%Q.
  split; [| split].
  - cbn [processStream_from].
    assert (Hbody :
      (transform_items rec streamId fn (items (input index)) (outputs acc, w)
       ≫= λ '(outs, w0),
             match finish (input index) with
             | SourceErrors message0 =>
                 manifestGhostlyCrash rec message0 streamId w0 ≫= λ w2,
                   let error := hub_createSpectralError w2 DISTURBANCE_DETECTED
                     ("Stream " +:+ streamId
                      +:+ " encountered spectral disturbance: " +:+ message0)
                     "EventHub" in
                   let w3 := increaseHauntLevel w2 in
                   if 3 <=? index
                   then Some (mkProcessed outs (Failed error)
                                (resubscriptions acc) (delays acc), w3)
                   else
                     let '(draw, w4) := random w3 in
                     let delay := (pow2 index * 1000 + draw * 1000)%Q in
                     processStream_from rec streamId input fn budget (S index)
                       (mkProcessed outs Open (S (resubscriptions acc))
                          (delays acc ++ [delay]))
                       (record (TTimer delay) w4)
             | SourceCompletes =>
                 Some (mkProcessed outs
                         (if (index =? 3)
                             || negb (last_stays_open fn (items (input index)))
                          then Completed else Open)
                         (resubscriptions acc) (delays acc), w0)
             | SourceStaysOpen =>
                 Some (mkProcessed outs (if index =? 3 then Completed else Open)
                         (resubscriptions acc) (delays acc), w0)
             end)
      = processStream_from rec streamId input fn budget (S index)
          (mkProcessed
             (outputs acc ++ concat (map (yield_of fn) (items (input index))))
             Open (S (resubscriptions acc))
             (delays acc
              ++ [(pow2 index * 1000
                   + Math_random (host wc) (randomCalls wc) * 1000)%Q]))
          (record (TTimer (pow2 index * 1000
                           + Math_random (host wc) (randomCalls wc) * 1000)%Q)
                  (snd (random wc)))).
    { rewrite Ea. cbn [mbind option_bind]. rewrite Hfinish, Eb.
      cbn [mbind option_bind].
      destruct (Nat.leb_spec 3 index); [lia |]. reflexivity. }
    destruct index as [| [| [| index]]];
      [destruct (arrives (input 0)) | destruct (arrives (input 1))
       | destruct (arrives (input 2)) | lia]; exact Hbody.
  - eapply Frame_trans; [exact F |].
    eapply Frame_trans; [apply Frame_random | by apply Frame_record].
  - exists (randomCalls wc). by rewrite (frame_host _ _ _ F).
Qed.

Lemma three_rounds {T R} streamId (input : nat -> SourceRun T)
    (fn : T -> Transformed R) w :
  (forall index, index < 3 ->
     exists message, finish (input index) = SourceErrors message) ->
  Ranked rk G w ->
  exists acc w3,
    processStream_from rec streamId input fn 4 0 (mkProcessed [] Open 0 []) w
    = processStream_from rec streamId input fn 1 3 acc w3 /\
    Frame G w w3 /\ resubscriptions acc = 3 /\
    Forall2 (backoff_of (host w)) [0; 1; 2] (delays acc) /\
    outputs acc
    = concat (map (fun index => concat (map (yield_of fn) (items (input index))))
                  [0; 1; 2]).
Proof.
  intros Hfail Hw.
  destruct (Hfail 0) as [m0 H0]; [lia |].
  destruct (Hfail 1) as [m1 H1]; [lia |].
  destruct (Hfail 2) as [m2 H2]; [lia |].
  destruct (retry_round streamId input fn 3 0 (mkProcessed [] Open 0 []) w m0)
    as (w1 & d0 & -> & F1 & B0); [lia | done | done |].
  match goal with |- context [processStream_from _ _ _ _ 3 1 ?acc w1] =>
    destruct (retry_round streamId input fn 2 1 acc w1 m1)
      as (w2 & d1 & -> & F2 & B1); [lia | done | by eapply Ranked_Frame |]
  end.
  assert (F02 : Frame G w w2) by eauto using Frame_trans.
  match goal with |- context [processStream_from _ _ _ _ 2 2 ?acc w2] =>
    destruct (retry_round streamId input fn 1 2 acc w2 m2)
      as (w3 & d2 & -> & F3 & B2); [lia | done | by eapply Ranked_Frame |]
  end.
  eexists _, w3. split; [reflexivity |].
  split; [eauto using Frame_trans |]. split; [reflexivity |]. split.
  - cbn [delays app].
    rewrite (frame_host _ _ _ F1) in B1. rewrite (frame_host _ _ _ F02) in B2.
    repeat constructor; done.
  - cbn. by rewrite !app_nil_r, app_assoc.
Qed.

End retried.

(** X17 ([processStream]).  A source that errors at each of its first
    four subscriptions, the fourth time during the [subscribe] call
    itself, makes the stream fail after exactly three resubscriptions:
    the run returns a recoverable [DISTURBANCE_DETECTED] error of
    [EventHub], the three waits were [2^attempt] seconds plus a jitter
    of the generator, and the output carries what the transform yielded
    on all four subscriptions. *)
Theorem prompt_failures_use_up_three_retries {T R} rk G depth
    (input : nat -> SourceRun T) (fn : T -> Transformed R) w :
  Ranked rk G w ->
  rk "ghostly_crash" <= depth -> rk "spectral_disturbance" <= depth ->
  (forall index, index <= 3 ->
     exists message, finish (input index) = SourceErrors message) ->
  arrives (input 3) = Synchronously ->
  exists r w',
    processStream (run_call depth) input fn w = Some (r, w') /\
    (exists e, final r = Failed e /\ se_type e = DISTURBANCE_DETECTED /\
       se_source e = "EventHub" /\ recovery_possible e = true) /\
    resubscriptions r = 3 /\
    Forall2 (backoff_of (host w)) [0; 1; 2] (delays r) /\
    outputs r
    = concat (map (fun index =>
                     concat (map (yield_of fn) (items (input index))))
                  [0; 1; 2; 3]).
Proof.
  intros Hw Hc Hd Hfail Hsync. unfold processStream.
  unfold generateStreamId, random. cbv iota beta.
  set (w1 := mkWorld _ _ _ _ _ _ _). set (sid := _ +:+ _).
  assert (F1 : Frame G w w1) by (by apply Frame_quiet).
  pose proof (Answers_mono G rk depth _ _ Hc (run_call_spec rk G depth)) as Ac.
  pose proof (Answers_mono G rk depth _ _ Hd (run_call_spec rk G depth)) as Ad.
  destruct (three_rounds rk G (run_call depth) Ac Ad sid input fn w1)
    as (acc & w3 & -> & F3 & Hr & Hb & Ho);
    [intros index Hi; apply Hfail; lia | by eapply Ranked_Frame |].
  destruct (Hfail 3) as [m3 H3]; [lia |].
  assert (Hw3 : Ranked rk G w3)
    by (eapply Ranked_Frame; [| exact F3]; by eapply Ranked_Frame).
  destruct (transform_items_spec rk G (run_call depth) Ad sid fn
              (items (input 3)) (outputs acc) w3 Hw3)
    as (wa & Ea & Fa & _).
  destruct (manifestGhostlyCrash_spec rk G (run_call depth) m3 sid wa Ac)
    as (wb & Eb & Fb & _); [by eapply Ranked_Frame |].
  cbn [processStream_from]. rewrite Hsync, Ea.
  cbn [mbind option_bind]. rewrite H3, Eb. cbn [mbind option_bind].
  eexists _, _. split; [reflexivity |].
  split; [eexists; by repeat split |]. split; [done |].
  split; [by rewrite <- (frame_host _ _ _ F1) |].
  cbn [outputs]. rewrite Ho. cbn. by rewrite !app_nil_r, !app_assoc.
Qed.

(** X18 ([processStream]).  When the fourth subscription to a source
    that errored three times delivers nothing during the [subscribe]
    call, the stream completes: after exactly three resubscriptions the
    run returns a completed output that carries what the transform
    yielded on the first three subscriptions, and nothing the fourth
    subscription delivers later, an error included, reaches it. *)
Theorem late_fourth_failure_goes_unnoticed {T R} rk G depth
    (input : nat -> SourceRun T) (fn : T -> Transformed R) w :
  Ranked rk G w ->
  rk "ghostly_crash" <= depth -> rk "spectral_disturbance" <= depth ->
  (forall index, index < 3 ->
     exists message, finish (input index) = SourceErrors message) ->
  arrives (input 3) = Later ->
  exists r w',
    processStream (run_call depth) input fn w = Some (r, w') /\
    final r = Completed /\ resubscriptions r = 3 /\
    Forall2 (backoff_of (host w)) [0; 1; 2] (delays r) /\
    outputs r
    = concat (map (fun index =>
                     concat (map (yield_of fn) (items (input index))))
                  [0; 1; 2]).
Proof.
  intros Hw Hc Hd Hfail Hlate. unfold processStream.
  unfold generateStreamId, random. cbv iota beta.
  set (w1 := mkWorld _ _ _ _ _ _ _). set (sid := _ +:+ _).
  assert (F1 : Frame G w w1) by (by apply Frame_quiet).
  pose proof (Answers_mono G rk depth _ _ Hc (run_call_spec rk G depth)) as Ac.
  pose proof (Answers_mono G rk depth _ _ Hd (run_call_spec rk G depth)) as Ad.
  destruct (three_rounds rk G (run_call depth) Ac Ad sid input fn w1)
    as (acc & w3 & -> & F3 & Hr & Hb & Ho);
    [done | by eapply Ranked_Frame |].
  cbn [processStream_from]. rewrite Hlate.
  eexists _, _. split; [reflexivity |]. split; [done |]. split; [done |].
  split; [by rewrite <- (frame_host _ _ _ F1) | done].
Qed.

Lemma prompt_failures_use_up_three_retries_witness :
  exists r w',
    processStream (run_call 0) (failing Synchronously) once seance
      = Some (r, w') /\
    (exists e, final r = Failed e /\ se_type e = DISTURBANCE_DETECTED /\
       se_source e = "EventHub" /\ recovery_possible e = true) /\
    resubscriptions r = 3 /\
    Forall2 (backoff_of (host seance)) [0; 1; 2] (delays r) /\
    outputs r
    = concat (map (fun index =>
                     concat (map (yield_of once)
                                 (items (failing Synchronously index))))
                  [0; 1; 2; 3]).
Proof.
  apply (prompt_failures_use_up_three_retries message_rank (guard_key "mood")
           0 (failing Synchronously) once seance seance_ranked).
  - cbn. lia.
  - cbn. lia.
  - intros index _. eexists. reflexivity.
  - reflexivity.
Defined.

Lemma late_fourth_failure_goes_unnoticed_witness :
  exists r w',
    processStream (run_call 0) (failing Later) once seance = Some (r, w') /\
    final r = Completed /\ resubscriptions r = 3 /\
    Forall2 (backoff_of (host seance)) [0; 1; 2] (delays r) /\
    outputs r
    = concat (map (fun index =>
                     concat (map (yield_of once)
                                 (items (failing Later index))))
                  [0; 1; 2]).
Proof.
  apply (late_fourth_failure_goes_unnoticed message_rank (guard_key "mood")
           0 (failing Later) once seance seance_ranked).
  - cbn. lia.
  - cbn. lia.
  - intros index _. eexists. reflexivity.
  - reflexivity.
Defined.

(* ===================================================================== *)
(** * spectralIterator *)
(* ===================================================================== *)

Lemma update_iterator_lookup i f it w :
  iterators w !! i = Some it ->
  iterators (update_iterator i f w) !! i = Some (f it).
Proof.
  intros H. unfold update_iterator. cbn. rewrite H.
  apply list_lookup_insert_eq. by eapply lookup_lt_Some.
Qed.

Lemma iterator_observer_passes it e :
  passes it e ->
  iterator_observer e it
  = let count := S (it_eventCount it) in
    let '(queue, waiting, settle) :=
      if resolveNext it
      then (eventQueue it, false, Some (Yielded e))
      else (eventQueue it ++ [e], false, settled it) in
    mkIterator (it_filter it) (maxEvents it) count queue waiting
      (if truthy (maxEvents it) && (default 0 (maxEvents it) <=? count)
       then true else isComplete it)
      settle (it_subscription it) (returned it).
Proof.
  unfold passes, iterator_observer. intros H.
  destruct (it_filter it) as [f |]; [by rewrite H |]. done.
Qed.

Lemma observer_queues_last it e m :
  passes it e -> resolveNext it = false -> maxEvents it = Some m ->
  0 < m -> m <= S (it_eventCount it) ->
  iterator_observer e it
  = mkIterator (it_filter it) (Some m) (S (it_eventCount it))
               (eventQueue it ++ [e]) false true (settled it)
               (it_subscription it) (returned it).
Proof.
  intros Hpass Hres Hmax Hpos Hm.
  rewrite (iterator_observer_passes it e Hpass), Hres, Hmax.
  destruct m as [| m]; [lia |]. cbn.
  destruct (Nat.leb_spec m (it_eventCount it)); [done | lia].
Qed.

(** X19 ([spectralIterator]).  Events that arrive faster than they are
    pulled are lost when the iterator completes: if the event that
    reaches [maxEvents] arrives while the generator is not waiting for an
    event, it is queued; the generator still yields the event its
    [await] had settled with, if any, and then the next pull finds the
    iterator complete and returns [done] without yielding what is queued,
    as does every later pull. *)
Theorem queued_events_are_lost_at_completion rec k i it m e w :
  iterators w !! i = Some it ->
  returned it = false -> resolveNext it = false -> settled it <> Some Done ->
  passes it e ->
  maxEvents it = Some m -> 0 < m -> m <= S (it_eventCount it) ->
  exists w1 w2 it2,
    deliver rec e (k, IteratorSink i) w = Some w1 /\
    fst (catch_up i w1)
      = match settled it with Some (Yielded a) => [a] | _ => [] end /\
    iterator_next i (snd (catch_up i w1)) = (Got Done, w2) /\
    iterators w2 !! i = Some it2 /\
    eventQueue it2 = eventQueue it ++ [e] /\
    returned it2 = true /\
    iterator_next i w2 = (Got Done, w2).
Proof.
  intros Hit Hret Hres Hset Hpass Hmax Hpos Hm.
  unfold deliver. cbn [snd fst].
  set (w0 := record (TObserved k e) w).
  set (w1 := update_iterator i (iterator_observer e) w0).
  assert (H1 : iterators w1 !! i = Some (iterator_observer e it))
    by (by apply update_iterator_lookup).
  rewrite (observer_queues_last it e m) in H1 by done.
  set (it1 := mkIterator _ _ _ _ _ _ _ _ _) in H1.
  (* the world at the pull, and the iterator in it *)
  assert (Hcatch : exists it1',
    iterators (snd (catch_up i w1)) !! i = Some it1' /\
    fst (catch_up i w1)
      = match settled it with Some (Yielded a) => [a] | _ => [] end /\
    eventQueue it1' = eventQueue it ++ [e] /\ isComplete it1' = true /\
    returned it1' = false /\ it_subscription it1' = it_subscription it).
  { unfold catch_up. rewrite H1. subst it1. cbn [settled].
    destruct (settled it) as [[a |] |] eqn:Es; [| done |].
    - unfold iterator_resume. rewrite H1. cbn [settled snd fst]. eexists. split; [by apply update_iterator_lookup |].
      by cbn.
    - eexists. split; [exact H1 |]. by cbn. }
  destruct Hcatch as (it1' & H1' & Hy & Hq & Hc & Hr & Hs).
  eexists w1, _, _. split; [reflexivity |]. split; [exact Hy |].
  unfold iterator_next at 1. rewrite H1', Hr, Hc. split; [reflexivity |].
  unfold iterator_cleanup. rewrite H1'.
  assert (H2 : iterators
                 (update_iterator i
                    (set_iterator_state (eventQueue it1') false None true)
                    (unsubscribe_if_any (it_subscription it1')
                       (snd (catch_up i w1)))) !! i
               = Some (set_iterator_state (eventQueue it1') false None true
                         it1')).
  { apply update_iterator_lookup. by destruct (it_subscription it1'). }
  split; [exact H2 |]. split; [exact Hq |]. split; [reflexivity |].
  unfold iterator_next. by rewrite H2.
Qed.

Lemma queued_events_are_lost_at_completion_witness :
  exists it w1 w2 it2,
    iterators vigil_of_two !! 0 = Some it /\
    deliver (run_call 0) (message "knock" "neighbour") (0, IteratorSink 0)
            vigil_of_two = Some w1 /\
    map source (fst (catch_up 0 w1)) = ["client"] /\
    iterator_next 0 (snd (catch_up 0 w1)) = (Got Done, w2) /\
    iterators w2 !! 0 = Some it2 /\
    eventQueue it2 = [message "knock" "neighbour"] /\
    returned it2 = true /\
    iterator_next 0 w2 = (Got Done, w2).
Proof.
  eexists.
  destruct (queued_events_are_lost_at_completion (run_call 0) 0 0 _ 2
              (message "knock" "neighbour") vigil_of_two eq_refl)
    as (w1 & w2 & it2 & E & Hy & H);
    [reflexivity | reflexivity | discriminate | exact I | reflexivity
     | lia | cbn; lia |].
  exists w1, w2, it2. split; [reflexivity |]. split; [exact E |].
  split; [by rewrite Hy | exact H].
Defined.

(** X20 ([spectralIterator]).  A pull on an empty queue, by a generator
    that is not already waiting, waits.  If no
    event arrives within the 30 seconds, the timer settles the wait, the
    generator returns [done] and the iterator is over; if an event that
    passes the filter arrives first, the timer finds nothing to settle
    and the generator yields that event. *)
Theorem wait_ends_in_event_or_timeout i it w :
  iterators w !! i = Some it ->
  returned it = false -> isComplete it = false -> eventQueue it = [] ->
  resolveNext it = false -> settled it = None ->
  exists w1,
    iterator_next i w = (Awaiting, w1) /\
    (exists w2 it2,
       iterator_resume i (iterator_timeout i w1) = (Got Done, w2) /\
       iterators w2 !! i = Some it2 /\ returned it2 = true) /\
    (forall rec k e, passes it e ->
       exists w1',
         deliver rec e (k, IteratorSink i) w1 = Some w1' /\
         iterator_timeout i w1' = w1' /\
         fst (iterator_resume i w1') = Got (Yielded e)).
Proof.
  intros Hit Hret Hc Hq _ _. unfold iterator_next. rewrite Hit, Hret, Hc, Hq.
  set (w1 := update_iterator i _ w).
  assert (H1 : iterators w1 !! i
               = Some (set_iterator_state [] true None false it))
    by (by apply update_iterator_lookup).
  exists w1. split; [reflexivity |]. split.
  - unfold iterator_timeout. rewrite H1. cbn [resolveNext set_iterator_state].
    set (w2 := update_iterator i _ w1).
    assert (H2 : iterators w2 !! i
                 = Some (set_iterator_state [] false (Some Done) false
                           (set_iterator_state [] true None false it)))
      by (by apply update_iterator_lookup).
    unfold iterator_resume. rewrite H2. cbn [settled set_iterator_state].
    eexists _, _. split; [reflexivity |].
    unfold iterator_cleanup. rewrite H2. split.
    + apply update_iterator_lookup.
      cbn [it_subscription set_iterator_state].
      by destruct (it_subscription it).
    + reflexivity.
  - intros rec k e Hpass. unfold deliver. cbn [snd fst].
    set (w1' := update_iterator i (iterator_observer e) _).
    assert (H1' : iterators w1' !! i
                  = Some (iterator_observer e
                            (set_iterator_state [] true None false it)))
      by (by apply update_iterator_lookup).
    rewrite iterator_observer_passes in H1' by done.
    cbn [resolveNext set_iterator_state] in H1'. cbv zeta iota beta in H1'.
    exists w1'. split; [reflexivity |]. split.
    + unfold iterator_timeout. by rewrite H1'.
    + unfold iterator_resume. by rewrite H1'.
Qed.

Lemma wait_ends_in_event_or_timeout_witness :
  exists w1,
    iterator_next 0 (snd vigil_open) = (Awaiting, w1) /\
    (exists w2 it2,
       iterator_resume 0 (iterator_timeout 0 w1) = (Got Done, w2) /\
       iterators w2 !! 0 = Some it2 /\ returned it2 = true) /\
    (forall rec k e,
       exists w1',
         deliver rec e (k, IteratorSink 0) w1 = Some w1' /\
         iterator_timeout 0 w1' = w1' /\
         fst (iterator_resume 0 w1') = Got (Yielded e)).
Proof.
  destruct (wait_ends_in_event_or_timeout 0 _ (snd vigil_open) eq_refl)
    as (w1 & E & Ht & He);
    [reflexivity | reflexivity | reflexivity | reflexivity | reflexivity |].
  exists w1. split; [exact E |]. split; [exact Ht |].
  intros rec k e. apply He. exact I.
Defined.

(* ===================================================================== *)
(** * createBackpressureStream *)
(* ===================================================================== *)

Lemma backpressure_step_drained {T} bufferSize dropStrategy
    (s : Backpressure T) h :
  0 < bufferSize -> drained s ->
  let s' := backpressure_step bufferSize dropStrategy s h in
  drained s' /\
  bp_delivered s' = bp_delivered s ++ let_through (bp_closed s) h /\
  bp_closed s' = bp_closed s || closes h.
Proof.
  intros Hsize [Hs Hf]. unfold let_through, drained.
  destruct h as [[value | message |] |]; cbn [backpressure_step closes].
  - unfold source_next. rewrite Hs.
    destruct (Nat.leb_spec bufferSize (length (@nil T))); [cbn in *; lia |].
    unfold processBuffer, hand_over. cbn.
    destruct (bp_closed s) eqn:Hc; cbn; rewrite ?app_nil_r;
      (split; [| done]); (split; [done |]);
      (apply Forall_app; split; [done | by constructor]).
  - unfold hand_over.
    destruct (bp_closed s) eqn:Hc; cbn; by rewrite ?app_nil_r, ?Hc.
  - unfold processBuffer, hand_over. rewrite Hs.
    destruct (bp_closed s) eqn:Hc; cbn; by rewrite ?app_nil_r, ?Hc, ?Hs.
  - rewrite orb_false_r.
    assert (bp_delivered s ++ (if bp_closed s then [] else []) = bp_delivered s)
      as -> by (destruct (bp_closed s); apply app_nil_r).
    destruct (bp_suspended s) as [| isComplete rest] eqn:Hq.
    { by rewrite Hq. }
    apply Forall_cons in Hf as [-> Hf].
    unfold processBuffer. cbn. by rewrite Hs.
Qed.

Lemma backpressure_steps_drained {T} bufferSize dropStrategy
    (happenings : list (Happening T)) s :
  0 < bufferSize -> drained s ->
  let s' := fold_left (backpressure_step bufferSize dropStrategy) happenings s in
  drained s' /\
  bp_delivered s'
  = bp_delivered s ++ (if bp_closed s then [] else passed_on happenings).
Proof.
  intros Hsize. revert s.
  induction happenings as [| h rest IH]; intros s Hs; cbn [fold_left].
  { split; [done |]. destruct (bp_closed s); by rewrite app_nil_r. }
  destruct (backpressure_step_drained bufferSize dropStrategy s h Hsize Hs)
    as (Hs' & Hd & Hc').
  destruct (IH _ Hs') as [H1 H2]. split; [done |].
  rewrite H2, Hd, Hc'. unfold let_through.
  destruct (bp_closed s); cbn [orb]; [by rewrite app_nil_r |].
  rewrite <- app_assoc. f_equal.
  by destruct h as [[value | message |] |].
Qed.

(** X21.  [createBackpressureStream] holds nothing back.  With a buffer
    size of at least one, and whichever drop strategy, the subscriber is
    handed every notification of the source as it arrives and in the
    source's order, up to the source's first error or completion; no value
    is dropped and the overflow error is never raised.  The buffer is
    empty again after each value, because [isProcessing] is never set and
    each value starts a [processBuffer] that takes it out at once. *)
Theorem backpressure_stream_passes_everything {T} bufferSize dropStrategy
    (happenings : list (Happening T)) :
  0 < bufferSize ->
  bp_delivered (createBackpressureStream bufferSize dropStrategy happenings)
  = passed_on happenings /\
  bp_buffer (createBackpressureStream bufferSize dropStrategy happenings) = [].
Proof.
  intros Hsize.
  destruct (backpressure_steps_drained bufferSize dropStrategy happenings
              (mkBackpressure [] [] [] false) Hsize) as [[H1 _] H2].
  { split; [done | constructor]. }
  done.
Qed.

Lemma backpressure_stream_passes_everything_witness :
  bp_delivered
    (createBackpressureStream 1 OverflowError
       [FromSource (Next 1); FromSource (Next 2); FromSource (Next 3);
        Immediate; FromSource Complete; Immediate])
  = [Next 1; Next 2; Next 3; Complete] /\
  bp_buffer
    (createBackpressureStream 1 OverflowError
       [FromSource (Next 1); FromSource (Next 2); FromSource (Next 3);
        Immediate; FromSource Complete; Immediate])
  = [].
Proof.
  apply (backpressure_stream_passes_everything 1 OverflowError
           [FromSource (Next 1); FromSource (Next 2); FromSource (Next 3);
            Immediate; FromSource Complete; Immediate]).
  lia.
Defined.

Lemma zero_steps {T} dropStrategy (happenings : list (Happening T)) s :
  dropStrategy <> Oldest -> drained s ->
  let s' := fold_left (backpressure_step 0 dropStrategy) happenings s in
  drained s' /\
  bp_delivered s'
  = bp_delivered s
    ++ (if bp_closed s then []
        else match dropStrategy with
             | OverflowError =>
                 match passed_on happenings with
                 | Next _ :: _ =>
                     [Error_ "Buffer overflow - backpressure limit exceeded"]
                 | l => l
                 end
             | _ => List.filter (fun n => negb (is_value n))
                                (passed_on happenings)
             end).
Proof.
  intros Hstrategy. revert s.
  induction happenings as [| h rest IH]; intros s Hs; cbn [fold_left].
  { split; [done |]. destruct (bp_closed s), dropStrategy; by rewrite app_nil_r. }
  assert (Hstep :
    drained (backpressure_step 0 dropStrategy s h) /\
    (bp_closed s = true -> bp_closed (backpressure_step 0 dropStrategy s h) = true /\
       bp_delivered (backpressure_step 0 dropStrategy s h) = bp_delivered s) /\
    (bp_closed s = false ->
       match h with
       | FromSource (Next _) =>
           match dropStrategy with
           | OverflowError =>
               bp_closed (backpressure_step 0 dropStrategy s h) = true /\
               bp_delivered (backpressure_step 0 dropStrategy s h)
               = bp_delivered s
                 ++ [Error_ "Buffer overflow - backpressure limit exceeded"]
           | _ =>
               bp_closed (backpressure_step 0 dropStrategy s h) = false /\
               bp_delivered (backpressure_step 0 dropStrategy s h) = bp_delivered s
           end
       | FromSource n =>
           bp_closed (backpressure_step 0 dropStrategy s h) = true /\
           bp_delivered (backpressure_step 0 dropStrategy s h) = bp_delivered s ++ [n]
       | Immediate =>
           bp_closed (backpressure_step 0 dropStrategy s h) = false /\
           bp_delivered (backpressure_step 0 dropStrategy s h) = bp_delivered s
       end)).
  { destruct Hs as [Hb Hf]. unfold drained.
    destruct h as [[value | message |] |]; cbn [backpressure_step].
    - unfold source_next. cbn [Nat.leb].
      destruct dropStrategy; [done | done |].
      unfold hand_over. destruct (bp_closed s) eqn:Hc; cbn; by rewrite ?Hc.
    - unfold hand_over. destruct (bp_closed s) eqn:Hc; cbn; by rewrite ?Hc.
    - unfold processBuffer, hand_over. rewrite Hb.
      destruct (bp_closed s) eqn:Hc; cbn; by rewrite ?Hc, ?Hb.
    - destruct (bp_suspended s) as [| isComplete suspended] eqn:Hq.
      { by rewrite Hq. }
      apply Forall_cons in Hf as [-> Hf].
      unfold processBuffer. cbn. rewrite Hb. done. }
  destruct Hstep as (Hs' & Hclosed & Hopen).
  destruct (IH _ Hs') as [H1 H2]. split; [done |]. rewrite H2.
  destruct (bp_closed s) eqn:Hc.
  { destruct (Hclosed eq_refl) as [-> ->]. done. }
  specialize (Hopen eq_refl).
  destruct h as [[value | message |] |]; cbn [passed_on List.filter is_value negb];
    destruct dropStrategy; try done;
    destruct Hopen as [-> ->]; rewrite <- ?app_assoc; try done.
Qed.

(** X22.  With a buffer size of zero every value overflows.  Under
    ['newest'] the subscriber is handed no value at all, only the source's
    error or completion; under ['error'] the first value of the source is
    answered with the overflow error, which ends the stream. *)
Theorem zero_buffer_takes_no_value {T} (happenings : list (Happening T)) :
  bp_delivered (createBackpressureStream 0 Newest happenings)
  = List.filter (fun n => negb (is_value n)) (passed_on happenings) /\
  (forall value rest, passed_on happenings = Next value :: rest ->
     bp_delivered (createBackpressureStream 0 OverflowError happenings)
     = [Error_ "Buffer overflow - backpressure limit exceeded"]).
Proof.
  split.
  - destruct (zero_steps Newest happenings (mkBackpressure [] [] [] false))
      as [_ H]; [done | split; [done | constructor] |].
    unfold createBackpressureStream. by rewrite H.
  - intros value rest Hfirst.
    destruct (zero_steps OverflowError happenings (mkBackpressure [] [] [] false))
      as [_ H]; [done | split; [done | constructor] |].
    unfold createBackpressureStream. rewrite H. cbn. by rewrite Hfirst.
Qed.

(* ===================================================================== *)
(** * select *)
(* ===================================================================== *)

Lemma Ranked_subscribed rk G key value observers w :
  Ranked rk G w ->
  (forall observer v, observer ∈ observers ->
     tame rk G (loadedPlugins (loader w)) (S (rk "state_changed"))
          (calls (observer v))) ->
  Ranked rk G (subscribed key value observers w).
Proof.
  intros [Hc Hp Hk] Hnew. split; [exact Hc | exact Hp |].
  intros key' subject observer v. cbn.
  destruct (decide (key = key')) as [<- | Hne].
  - rewrite lookup_insert_eq. intros [= <-]. cbn. intros Hin. by apply Hnew.
  - rewrite lookup_insert_ne by done. apply Hk.
Qed.

(** X23.  Subscribing to a key that was never set creates the key holding
    [undefined] and hands the new observer nothing: the trace is as it
    was, [getState] still answers [undefined] and the key's stream state
    counts no subscriber.  The first defined value written to the key
    afterwards is handed to that observer (the key not being cursed).
    Both calls return whenever reactions rank below their cause. *)
Theorem select_waits_for_first_value rk G depth key observer value w :
  Ranked rk G w ->
  (forall v, tame rk G (loadedPlugins (loader w)) (S (rk "state_changed"))
                  (calls (observer v))) ->
  rk "state_changed" < depth ->
  spectralState (hub w) !! key = None ->
  key ∉ cursedKeys (hub w) ->
  is_undefined value = false ->
  exists w1 w2,
    select (run_call depth) key observer w = Some w1 /\
    trace w1 = trace w /\
    getState key w1 = VUndefined /\
    getSubscriberCount key w1 = 0 /\
    setState (run_call depth) key value w1 = Some w2 /\
    within w1 w2 (TKeyObserved key 0 value) /\
    (kept_key G key -> getState key w2 = value).
Proof.
  intros Hw Hobserver Hdepth Hnew Hcursed Hvalue.
  assert (Hrec : Answers rk G (S (rk "state_changed")) (run_call depth))
    by (eapply Answers_mono; [| apply run_call_spec]; lia).
  unfold select. rewrite Hnew. cbn [updateStreamState with_hub hub
    set_streamStates set_spectralState spectralState].
  rewrite lookup_insert_eq. cbn [bs_value bs_observers app select_next is_undefined].
  eexists. 
  match goal with |- exists w2, Some ?w = _ /\ _ => set (w1 := w) end.
  assert (Hw1 : Ranked rk G w1).
  { destruct Hw as [Hc Hp Hk]. split; [exact Hc | exact Hp |].
    intros key' subject o v. unfold w1. cbn.
    rewrite insert_insert_eq.
    destruct (decide (key = key')) as [<- | Hne].
    - rewrite lookup_insert_eq. intros [= <-]. cbn.
      intros ->%list_elem_of_singleton. apply Hobserver.
    - rewrite lookup_insert_ne by done. apply Hk. }
  destruct (setState_spec rk G (run_call depth) key value w1 Hrec Hw1)
    as (w2 & E & F & _ & Hkeys).
  exists w2. split; [done |]. split; [done |].
  split; [unfold getState, w1; cbn; by rewrite lookup_insert_eq |].
  split; [unfold getSubscriberCount, w1; cbn; by rewrite lookup_insert_eq |].
  split; [done |]. split.
  - apply (Hkeys Hvalue Hcursed (mkSubject VUndefined [observer]) 0);
      [unfold w1; cbn; by rewrite lookup_insert_eq | cbn; lia].
  - intros Hkey. rewrite (frame_kept_key _ _ _ F key Hkey).
    apply getState_written.
Qed.

Lemma seance_tame G : Ranked message_rank G seance.
Proof.
  split.
  - intros i react e Hin.
    change (observers (hub seance)) with [(0, listener); (1, listener)] in Hin.
    in_list Hin; injection Hin as _ ->; (split; [constructor | discriminate]).
  - intros i m id plugin e Hin.
    change (observers (hub seance)) with [(0, listener); (1, listener)] in Hin.
    in_list Hin; discriminate.
  - intros key subject observer v Hk Hin.
    change (spectralState (hub seance))
      with (<["mood" := mkSubject VUndefined [fun _ : Value => silent]]>
              (∅ : gmap string BehaviorSubject)) in Hk.
    apply lookup_insert_Some in Hk as [[<- <-] | [_ Hk]];
      [| by rewrite lookup_empty in Hk].
    cbn in Hin. in_list Hin. subst observer. constructor.
Qed.

Lemma select_waits_for_first_value_witness :
  exists w1 w2,
    select (run_call 1) "omen" (fun _ => silent) seance = Some w1 /\
    trace w1 = trace seance /\
    getState "omen" w1 = VUndefined /\
    getSubscriberCount "omen" w1 = 0 /\
    setState (run_call 1) "omen" (VStr "raven") w1 = Some w2 /\
    within w1 w2 (TKeyObserved "omen" 0 (VStr "raven")) /\
    (kept_key (guard_key "omen") "omen" -> getState "omen" w2 = VStr "raven").
Proof.
  apply (select_waits_for_first_value message_rank (guard_key "omen") 1 "omen"
           (fun _ => silent) (VStr "raven") seance (seance_tame _)).
  - intros v. constructor.
  - cbn. lia.
  - reflexivity.
  - cbn. set_solver.
  - reflexivity.
Defined.

(** X24.  Subscribing to a key that holds a defined value puts the
    observer last among the key's observers and replays the value to it
    at once; on a cursed key the value is put behind a timer instead and
    the observer is handed nothing before the call returns. *)
Theorem select_replays_current_value rk G depth key observer subject w :
  Ranked rk G w ->
  (forall v, tame rk G (loadedPlugins (loader w)) (S (rk "state_changed"))
                  (calls (observer v))) ->
  rk "state_changed" < depth ->
  spectralState (hub w) !! key = Some subject ->
  is_undefined (bs_value subject) = false ->
  exists w',
    select (run_call depth) key observer w = Some w' /\
    (exists v, spectralState (hub w') !! key
               = Some (mkSubject v (bs_observers subject ++ [observer]))) /\
    (key ∉ cursedKeys (hub w) ->
     exists l, added w w' (TKeyObserved key (length (bs_observers subject))
                                        (bs_value subject) :: l)) /\
    (key ∈ cursedKeys (hub w) -> exists delay, added w w' [TTimer delay]).
Proof.
  intros Hw Hobserver Hdepth Hkey Hvalue.
  assert (Hrec : Answers rk G (S (rk "state_changed")) (run_call depth))
    by (eapply Answers_mono; [| apply run_call_spec]; lia).
  unfold select. rewrite Hkey, Hkey.
  change (with_hub _ w)
    with (subscribed key (bs_value subject) (bs_observers subject ++ [observer]) w).
  set (w1 := subscribed key (bs_value subject) (bs_observers subject ++ [observer]) w).
  assert (Hw1 : Ranked rk G w1).
  { apply Ranked_subscribed; [done |]. intros o v [Hin | ->%list_elem_of_singleton]%elem_of_app.
    - by apply (ranked_keys _ _ _ Hw key subject o v).
    - apply Hobserver. }
  assert (Hk1 : spectralState (hub w1) !! key
                = Some (mkSubject (bs_value subject) (bs_observers subject ++ [observer])))
    by (unfold w1, subscribed; cbn; apply lookup_insert_eq).
  destruct (select_next_spec rk G (run_call depth) key (bs_value subject)
              (length (bs_observers subject), observer) _ w1 Hrec Hw1 Hk1)
    as (w' & E & F & Hseen).
  { cbn. apply elem_of_app. right. by apply list_elem_of_singleton. }
  exists w'. split; [done |]. split; [| split].
  - pose proof (frame_keys _ _ _ F key) as Hkeep. by rewrite Hk1 in Hkeep.
  - intros Hcursed. by apply Hseen.
  - intros Hcursed. unfold select_next in E. rewrite Hvalue in E.
    assert (Hc : cursedKeys (hub (incrementSubscriberCount key w1))
                 = cursedKeys (hub w))
      by (by rewrite (frame_cursed _ _ _ (Frame_incrementSubscriberCount G key w1))).
    rewrite bool_decide_eq_true_2 in E by (by rewrite Hc).
    unfold random in E. cbv iota beta in E. injection E as <-.
    eexists. unfold added. cbn. reflexivity.
Qed.

Lemma told_tame G : Ranked message_rank G told.
Proof.
  destruct (setState_spec message_rank G (run_call 1) "mood" (VStr "eerie") seance)
    as (w' & E & F & _); [| apply seance_tame |].
  { eapply Answers_mono; [| apply run_call_spec]. cbn. lia. }
  unfold told. rewrite E. cbn [default].
  eapply Ranked_Frame; [| exact F]. apply Ranked_written, seance_tame.
Qed.

Lemma select_replays_current_value_witness :
  exists w',
    select (run_call 1) "mood" (fun _ => silent) told = Some w' /\
    (exists v, spectralState (hub w') !! "mood"
               = Some (mkSubject v ([fun _ : Value => silent] ++ [fun _ => silent]))) /\
    ("mood" ∉ cursedKeys (hub told) ->
     exists l, added told w' (TKeyObserved "mood" 1 (VStr "eerie") :: l)) /\
    ("mood" ∈ cursedKeys (hub told) -> exists delay, added told w' [TTimer delay]).
Proof.
  apply (select_replays_current_value message_rank unguarded 1 "mood"
           (fun _ => silent) (mkSubject (VStr "eerie") [fun _ => silent]) told
           (told_tame _)).
  - intros v. constructor.
  - cbn. lia.
  - reflexivity.
  - reflexivity.
Defined.

(* ===================================================================== *)
(** * Subscriber isolation (C2) *)
(* ===================================================================== *)

Lemma for_each_frame {A} (body : A -> World -> option World)
    (Q : A -> World -> World -> Prop) (l : list A) (w0 w : World) :
  (forall a w, a ∈ l -> Frame unguarded w0 w ->
     exists w', body a w = Some w' /\ Frame unguarded w w' /\ Q a w w') ->
  Frame unguarded w0 w ->
  exists w', for_each body l w = Some w' /\ Frame unguarded w w' /\
    forall a, a ∈ l ->
      exists w1 w2, Frame unguarded w w1 /\ Q a w1 w2 /\ Frame unguarded w2 w'.
Proof.
  revert w. induction l as [| a l IH]; intros w Hbody H0; cbn.
  - exists w. split; [done |]. split; [apply Frame_refl |].
    intros a Ha. by apply elem_of_nil in Ha.
  - destruct (Hbody a w) as (w1 & -> & F1 & Q1); [left | done |].
    destruct (IH w1) as (w' & -> & F' & Hall).
    + intros a' w2 Ha'. apply Hbody. by right.
    + by eapply Frame_trans.
    + exists w'. split; [done |]. split; [by eapply Frame_trans |].
      intros a' [-> | Ha']%elem_of_cons.
      * exists w, w1. split; [apply Frame_refl | done].
      * destruct (Hall a' Ha') as (w2 & w3 & F2 & Q2 & F3).
        exists w2, w3. split; [by eapply Frame_trans | done].
Qed.

Section lawful.
Context (rec : Rec) (Hrec : Lawful rec).

Lemma run_calls_frame cs w : Frame unguarded w (fst (run_calls rec cs w)).
Proof.
  revert w. induction cs as [| c cs IH]; intros w; cbn [run_calls].
  { apply Frame_refl. }
  destruct (rec c w) as [w1 |] eqn:E; [| apply Frame_refl].
  eapply Frame_trans; [by eapply Hrec | apply IH].
Qed.

Lemma run_calls_obliging cs w :
  Obliging rec -> snd (run_calls rec cs w) = Returns.
Proof.
  intros Ho. revert w. induction cs as [| c cs IH]; intros w; cbn [run_calls].
  { done. }
  destruct (Ho c w) as [w1 ->]. apply IH.
Qed.

Lemma run_reaction_frame r w : Frame unguarded w (fst (run_reaction rec r w)).
Proof.
  unfold run_reaction. pose proof (run_calls_frame (calls r) w) as F.
  by destruct (run_calls rec (calls r) w).
Qed.

Lemma run_reaction_obliging r w :
  Obliging rec -> snd (run_reaction rec r w) = outcome r.
Proof.
  intros Ho. unfold run_reaction.
  pose proof (run_calls_obliging (calls r) w Ho) as E.
  destruct (run_calls rec (calls r) w) as [w1 thrown]. cbn in *. by subst.
Qed.

Lemma attempt_frame c w : Frame unguarded w (attempt rec c w).
Proof.
  unfold attempt. destruct (rec c w) as [w1 |] eqn:E;
    [by eapply Hrec | apply Frame_refl].
Qed.

Lemma route_to_frame id plugin event w :
  exists w', route_to rec id plugin event w = Some w' /\
             Frame unguarded w w'.
Proof.
  unfold route_to.
  destruct (String.eqb_spec (source event) id) as [Heq | Hne].
  { exists w. split; [done | apply Frame_refl]. }
  set (w1 := record (TProcess id event) w).
  assert (F1 : Frame unguarded w w1).
  { apply Frame_record. intros id' e' [= <- <-]. exact Hne. }
  pose proof (run_calls_frame (before (process plugin event)) w1) as F2.
  destruct (run_calls rec _ w1) as [w2 thrown]. cbn [fst] in F2.
  assert (F02 : Frame unguarded w w2) by (by eapply Frame_trans).
  destruct thrown; [| by exists w2].
  destruct (result (process plugin event)) as [| s]; [by exists w2 |].
  destruct (for_each_frame
              (fun out w => Some (attempt rec (CEmit (routed id event out)) w))
              (fun _ _ _ => True) (emitted s) w2 w2) as (w3 & -> & F3 & _);
    [| apply Frame_refl |].
  { intros out wa _ _. eexists. split; [done |].
    split; [apply attempt_frame | done]. }
  cbn [mbind option_bind].
  assert (F03 : Frame unguarded w w3) by (by eapply Frame_trans).
  destruct (ending s); eexists; (split; [done |]); try done.
  eapply Frame_trans; [exact F03 | apply attempt_frame].
Qed.

Lemma route_from_frame m event slots :
  forall pos w, exists w',
    route_from rec m event slots pos w = Some w' /\ Frame unguarded w w'.
Proof.
  induction slots as [| slots IH]; intros pos w; cbn.
  { exists w. split; [done | apply Frame_refl]. }
  destruct (JsMap.slot pos (map_at m w)) as [[[id plugin] |] |].
  - destruct (route_to_frame id plugin event w) as (w1 & -> & F1). cbn.
    destruct (IH (S pos) w1) as (w' & -> & F').
    exists w'. split; [done | by eapply Frame_trans].
  - apply IH.
  - exists w. split; [done | apply Frame_refl].
Qed.

(** One observer's turn always comes to an end: the observer is handed
    the event, and when it throws with the stack not used up, the hub's
    diagnostic goes out. *)
Lemma deliver_frame event sub w :
  exists w', deliver rec event sub w = Some w' /\ Frame unguarded w w' /\
    within w w' (TObserved (fst sub) event) /\
    forall react message,
      snd sub = Callback react -> outcome (react event) = Throws message ->
      Obliging rec ->
      exists d, within w w' (TNext d) /\ reports_throw event message d.
Proof.
  unfold deliver.
  set (w1 := record (TObserved (fst sub) event) w).
  assert (F1 : Frame unguarded w w1) by (by apply Frame_record).
  assert (H1 : within w w1 (TObserved (fst sub) event)).
  { exists [TObserved (fst sub) event]. split; [done | left]. }
  destruct sub as [i [react | m | it]]; cbn [fst snd] in *.
  - pose proof (run_reaction_frame (react event) w1) as F2.
    pose proof (run_reaction_obliging (react event) w1) as O2.
    destruct (run_reaction rec (react event) w1) as [w2 thrown].
    cbn [fst snd] in F2, O2.
    assert (F02 : Frame unguarded w w2) by (by eapply Frame_trans).
    destruct thrown as [| thrown].
    + exists w2. split; [done |]. split; [done |].
      split; [by eapply within_Frame_r |].
      intros react' message [= <-] Hout Ho. rewrite <- (O2 Ho) in Hout.
      discriminate.
    + unfold handleSubscriberError.
      set (d := diagnostic w2 "subscriber_error" "EventHub"
                  (VObj [("originalEvent", event_value event);
                         ("error", VStr thrown)]) (flagged (1 # 2)%Q)).
      fold (attempt rec (CEmit d) w2).
      pose proof (attempt_frame (CEmit d) w2) as F3.
      eexists. split; [done |]. split; [by eapply Frame_trans |].
      split; [eapply within_Frame_r; [exact H1 | by eapply Frame_trans] |].
      intros react' message [= <-] Hout Ho.
      rewrite Hout in O2. injection (O2 Ho) as ->.
      clear O2.
      unfold attempt. destruct (Ho (CEmit d) w2) as [w3 E3]. rewrite E3.
      destruct (Hrec _ _ _ E3) as [_ Hann].
      destruct (Hann d eq_refl) as [l Hl].
      exists (fst (stamp d w2)). split.
      * eapply within_Frame_l; [exact F02 | by eapply added_within].
      * destruct (stamp_same_message d w2) as (Et & _ & Es & Ed).
        unfold reports_throw. by rewrite <- Et, <- Es, <- Ed.
  - destruct (route_from_frame m event (length (map_at m w1)) 0 w1)
      as (w2 & E & F2).
    exists w2. split; [exact E |]. split; [by eapply Frame_trans |].
    split; [by eapply within_Frame_r | intros ? ? [=]].
  - eexists. split; [done |].
    split; [eapply Frame_trans; [exact F1 | apply Frame_update_iterator] |].
    split; [| intros ? ? [=]].
    eapply within_Frame_r; [exact H1 | apply (Frame_update_iterator unguarded)].
Qed.

Lemma emit_frame event w :
  exists w', emit rec event w = Some w' /\ Frame unguarded w w' /\
    (exists l, added w w' (TNext (fst (stamp event w)) :: l)) /\
    forall sub, sub ∈ observers (hub w) ->
      within w w' (TObserved (fst sub) (fst (stamp event w))) /\
      forall react message,
        snd sub = Callback react ->
        outcome (react (fst (stamp event w))) = Throws message ->
        Obliging rec ->
        exists d, within w w' (TNext d) /\
          reports_throw (fst (stamp event w)) message d.
Proof.
  unfold emit.
  pose proof (Frame_stamp unguarded event w) as Fs.
  pose proof (stamp_trace event w) as Etr.
  destruct (stamp event w) as [e' ws]. cbn [fst snd] in *.
  unfold Subject_next.
  set (w1 := record (TNext e') ws).
  assert (F1 : Frame unguarded ws w1) by (by apply Frame_record).
  assert (F01 : Frame unguarded w w1) by (by eapply Frame_trans).
  assert (Hobs : observers (hub ws) = observers (hub w))
    by apply (frame_observers _ _ _ Fs).
  destruct (for_each_frame (deliver rec e')
              (fun sub wa wb =>
                 within wa wb (TObserved (fst sub) e') /\
                 forall react message,
                   snd sub = Callback react ->
                   outcome (react e') = Throws message -> Obliging rec ->
                   exists d, within wa wb (TNext d) /\
                     reports_throw e' message d)
              (observers (hub ws)) w1 w1) as (w' & -> & F' & Hall);
    [| apply Frame_refl |].
  { intros sub wa _ _. apply deliver_frame. }
  exists w'. split; [done |]. split; [by eapply Frame_trans |]. split.
  - destruct (added_record_Frame unguarded (TNext e') ws w' F') as [l Hl].
    exists l. unfold added in *. by rewrite <- Etr.
  - intros sub Hsub. rewrite <- Hobs in Hsub.
    destruct (Hall sub Hsub) as (wa & wb & Fa & [Hseen Hthrown] & Fb).
    assert (F0a : Frame unguarded w wa) by (by eapply Frame_trans).
    split.
    + eapply within_Frame_l; [exact F0a |]. by eapply within_Frame_r.
    + intros react message Hs Hout Ho.
      destruct (Hthrown react message Hs Hout Ho) as (d & Hd & Hr).
      exists d. split; [| done].
      eapply within_Frame_l; [exact F0a |]. by eapply within_Frame_r.
Qed.

Lemma select_next_frame key value observer w :
  exists w', select_next rec key value observer w = Some w' /\
             Frame unguarded w w'.
Proof.
  unfold select_next. destruct (is_undefined value).
  { exists w. split; [done | apply Frame_refl]. }
  set (w1 := incrementSubscriberCount key w).
  assert (F1 : Frame unguarded w w1) by apply Frame_incrementSubscriberCount.
  case_bool_decide as Hcursed.
  - unfold random. cbv iota beta. eexists. split; [done |].
    eapply Frame_trans; [exact F1 |].
    eapply Frame_trans; [apply (Frame_random unguarded w1) |].
    by apply Frame_record.
  - eexists. split; [done |].
    eapply Frame_trans; [exact F1 |].
    eapply Frame_trans; [| apply run_reaction_frame]. by apply Frame_record.
Qed.

Lemma setState_frame key value w :
  exists w', setState rec key value w = Some w' /\ Frame unguarded w w'.
Proof.
  unfold setState.
  assert (Hloop : exists w2,
    match spectralState (hub w) !! key with
    | Some subject =>
        for_each (select_next rec key value) (imap pair (bs_observers subject))
          (with_hub (fun h =>
             set_spectralState
               (<[key := mkSubject value (bs_observers subject)]>
                  (spectralState h)) h) w)
    | None =>
        Some (with_hub (fun h =>
                set_spectralState
                  (<[key := mkSubject value []]> (spectralState h)) h) w)
    end = Some w2 /\ Frame unguarded w w2).
  { destruct (spectralState (hub w) !! key) as [subject |] eqn:E.
    - set (w1 := with_hub _ w).
      assert (F1 : Frame unguarded w w1)
        by (apply (Frame_update_key unguarded key value subject w E); tauto).
      destruct (for_each_frame (select_next rec key value) (fun _ _ _ => True)
                  (imap pair (bs_observers subject)) w1 w1)
        as (w2 & -> & F2 & _); [| apply Frame_refl |].
      { intros o wa _ _.
        destruct (select_next_frame key value o wa) as (wb & Eb & Fb).
        by exists wb. }
      exists w2. split; [done | by eapply Frame_trans].
    - eexists. split; [done |].
      apply (Frame_new_key unguarded key value w E). tauto. }
  destruct Hloop as (w2 & -> & F2). cbn [mbind option_bind].
  set (w3 := updateStreamState key value (getSubscriberCount key w2) w2).
  assert (F3 : Frame unguarded w2 w3) by apply Frame_updateStreamState.
  destruct (emit_frame (state_changed w3 key value) w3) as (w' & -> & F' & _).
  exists w'. split; [done |].
  eapply Frame_trans; [exact F2 |]. by eapply Frame_trans.
Qed.

End lawful.

Lemma Lawful_run_call depth : Lawful (run_call depth).
Proof.
  induction depth as [| depth IH]; intros c w w'; [discriminate |].
  destruct c as [e | key value | m key | id]; cbn [run_call].
  - destruct (emit_frame (run_call depth) IH e w) as (w1 & E & F & Hann & _).
    rewrite E. intros [= <-]. split; [done |]. by intros e' [= <-].
  - destruct (setState_frame (run_call depth) IH key value w) as (w1 & E & F).
    rewrite E. intros [= <-]. split; [done | done].
  - intros [= <-]. split; [apply Frame_delete; tauto | done].
  - intros [= <-]. split; [apply Frame_teardownPlugin; tauto | done].
Qed.

(** With room for one more call on the stack, every call returns. *)
Lemma Obliging_run_call depth : Obliging (run_call (S depth)).
Proof.
  intros c w. destruct c as [e | key value | m key | id]; cbn [run_call].
  - destruct (emit_frame (run_call depth) (Lawful_run_call depth) e w)
      as (w1 & E & _). by exists w1.
  - destruct (setState_frame (run_call depth) (Lawful_run_call depth)
                key value w) as (w1 & E & _). by exists w1.
  - by eexists.
  - by eexists.
Qed.



(** On the hub of the witness, with room for three nested calls: the
    observer that throws at everything is handed the knock and the three
    diagnostics of its own throws, and the listener subscribed after it is
    handed the three diagnostics and then the knock. *)
Lemma listener_still_hears_the_knock :
  exists w' l,
    emit (run_call 3) (message "knock" "client") tormented = Some w' /\
    added tormented w' l /\
    map ev_type (seen_by 0 l)
    = ["knock"; "subscriber_error"; "subscriber_error"; "subscriber_error"] /\
    map ev_type (seen_by 1 l)
    = ["subscriber_error"; "subscriber_error"; "subscriber_error"; "knock"].
Proof.
  eexists _, _. split; [vm_compute; reflexivity |].
  split; [unfold added; cbn [trace tormented]; reflexivity |].
  split; reflexivity.
Qed.

(* ===================================================================== *)
(** * The event count *)
(* ===================================================================== *)

(** X11 ([emit], [getSpectralMetrics]).  On a hub whose reactions rank
    below their cause, with the stack deep enough for them (so that no
    call runs out of stack), [emit] returns and the event count of the
    metrics has grown by the number of events handed to the subscribers
    during the call: one for the emitted event, which is handed out
    first, plus one for every event handed out while the subscribers ran
    (their own emits and state writes, and the hub's diagnostics). *)
Theorem event_count_counts_deliveries rk G depth event w :
  Ranked rk G w -> rk (ev_type event) <= depth ->
  exists w' l,
    emit (run_call depth) event w = Some w' /\
    added w w' (TNext (fst (stamp event w)) :: l) /\
    m_eventCount (getSpectralMetrics w')
    = m_eventCount (getSpectralMetrics w) + S (nexts l).
Proof.
  intros Hw Hdepth.
  destruct (emit_spec rk G (run_call depth) event w) as (w' & E & _);
    [eapply Answers_mono; [exact Hdepth | apply run_call_spec] | done |].
  exists w'. revert E.
  unfold emit. pose proof (stamp_counts event w) as Hc.
  pose proof (stamp_trace event w) as Ht.
  destruct (stamp event w) as [e' ws]. cbn [fst snd] in *.
  unfold Subject_next. intros H. pose proof H as H'.
  apply (Tallied_for_each (deliver (run_call depth) e')) in H'
    as [_ (l & a & c)].
  2: { intros sub. apply Tallied_deliver. apply Sound_run_call. }
  exists l. split; [done |]. unfold added in *. cbn in a, c. split.
  - by rewrite a, Ht, <- app_assoc.
  - cbn. rewrite c, Hc. lia.
Qed.

Lemma event_count_counts_deliveries_witness :
  exists w' l,
    emit (run_call 1) (message "knock" "client") rapping = Some w' /\
    added rapping w'
      (TNext (fst (stamp (message "knock" "client") rapping)) :: l) /\
    m_eventCount (getSpectralMetrics w')
    = m_eventCount (getSpectralMetrics rapping) + S (nexts l).
Proof.
  apply (event_count_counts_deliveries knock_rank unguarded 1
           (message "knock" "client") rapping).
  - apply rapping_ranked.
  - cbn. lia.
Defined.
